(** * vd-card: a verified model of the video-card initializer

    The development embeds vd-card.js (version 1.1.0, the file with
    [isHlsSource], [attachDirectFile] and [detectMimeTypeFromUrl]) and, for
    the overlay click handler only, its predecessor (version 1.0.0).

    Layout:
    - [Js]      : the JavaScript values and built-ins the script relies on
                  (truthiness, [split], [toLowerCase], [indexOf], the regular
                  expression of the classifier, [parseInt], [ToString]);
    - [Url]     : the two lexical functions [isHlsSource] and
                  [detectMimeTypeFromUrl];
    - [Dom]     : a store of DOM nodes with the mutations the script performs;
    - [Card]    : the script itself, in a state-and-exception monad over a
                  world made of the DOM store, the global [window.Hls] and a
                  trace of the observable actions;
    - the theorems.

    Strings are sequences of 8-bit characters.  Every character the script
    inspects is ASCII, and a character outside ASCII never compares equal to
    one of them, neither directly nor after case folding. *)

From Stdlib Require Import ZArith Lia Bool Ascii String.
From stdpp Require Import base list strings gmap.

(* ===================================================================== *)
(** * JavaScript values and built-ins *)
(* ===================================================================== *)

Module Js.

(** A Number is either NaN or an integer.  [parseInt] only produces these;
    the integer is exact in the model, whereas a JavaScript Number rounds
    beyond 2^53. *)
Inductive JsNum : Type :=
| NaN
| Int (z : Z).

Inductive JsVal : Type :=
| VUndefined
| VNull
| VBool (b : bool)
| VNum (n : JsNum)
| VStr (s : string).

(** ToBoolean *)
Definition truthy (v : JsVal) : bool :=
  match v with
  | VUndefined | VNull => false
  | VBool b => b
  | VNum NaN => false
  | VNum (Int z) => negb (z =? 0)%Z
  | VStr s => negb (String.eqb s "")
  end.

(** The value of [card.getAttribute(name)]: [null] or a string. *)
Definition of_attr (a : option string) : JsVal :=
  match a with
  | None => VNull
  | Some s => VStr s
  end.

(** [!s] for a string-or-null. *)
Definition falsy_str (a : option string) : bool :=
  match a with
  | None => true
  | Some s => String.eqb s ""
  end.

(** [a || ""] for a string-or-null. *)
Definition or_empty (a : option string) : string :=
  match a with
  | None => ""
  | Some s => s
  end.

(** ** Characters and case *)

Definition is_upper (c : ascii) : bool :=
  (65 <=? nat_of_ascii c) && (nat_of_ascii c <=? 90).

Definition lower (c : ascii) : ascii :=
  if is_upper c then ascii_of_nat (nat_of_ascii c + 32) else c.

(** [s.toLowerCase()] *)
Fixpoint toLowerCase (s : string) : string :=
  match s with
  | EmptyString => EmptyString
  | String c r => String (lower c) (toLowerCase r)
  end.

(** ** [split], [pop], [indexOf] *)

(** [s.split(d)] for a one-character separator: never the empty array. *)
Fixpoint split (d : ascii) (s : string) : list string :=
  match s with
  | EmptyString => [EmptyString]
  | String c r =>
      if Ascii.eqb c d then EmptyString :: split d r
      else match split d r with
           | h :: t => String c h :: t
           | [] => [String c EmptyString]
           end
  end.

(** [a[0]] on an array of strings; [undefined] is rendered as [None]. *)
Definition first (a : list string) : option string := head a.

(** [a.pop()] (the value only). *)
Definition pop (a : list string) : option string := last a.

(** [s.indexOf(t) !== -1] *)
Fixpoint includes (t s : string) : bool :=
  String.prefix t s ||
  match s with
  | EmptyString => false
  | String _ r => includes t r
  end.

(** ** The regular expression [/\.m3u8(\?|#|$)/i]

    [atoms] is the literal part, lower-cased; under the [i] flag a character
    matches an atom when both fold to the same character.  [match_atoms]
    returns the input left after the literal part. *)

Definition atoms : list ascii := ["."; "m"; "3"; "u"; "8"]%char.

Fixpoint match_atoms (pat : list ascii) (s : string) : option string :=
  match pat, s with
  | [], _ => Some s
  | p :: pat', String c r =>
      if Ascii.eqb (lower c) p then match_atoms pat' r else None
  | _ :: _, EmptyString => None
  end.

(** The group [(\?|#|$)]: a question mark, a hash, or the end of input. *)
Definition match_tail (s : string) : bool :=
  match s with
  | EmptyString => true
  | String c _ => Ascii.eqb c "?" || Ascii.eqb c "#"
  end.

Definition match_here (s : string) : bool :=
  match match_atoms atoms s with
  | Some r => match_tail r
  | None => false
  end.

(** [re.test(s)]: the pattern is not anchored, so every start position is
    tried. *)
Fixpoint regex_test (s : string) : bool :=
  match_here s ||
  match s with
  | EmptyString => false
  | String _ r => regex_test r
  end.

(** ** [parseInt(s, 10)] *)

(** StrWhiteSpaceChar, restricted to ASCII: TAB, LF, VT, FF, CR, SP. *)
Definition is_space (c : ascii) : bool :=
  let n := nat_of_ascii c in
  ((9 <=? n) && (n <=? 13)) || (n =? 32).

Fixpoint trim_start (s : string) : string :=
  match s with
  | String c r => if is_space c then trim_start r else s
  | EmptyString => EmptyString
  end.

Definition digit (c : ascii) : option Z :=
  let n := nat_of_ascii c in
  if (48 <=? n) && (n <=? 57) then Some (Z.of_nat (n - 48)) else None.

(** The longest prefix of decimal digits, accumulated left to right;
    [None] when no digit has been read. *)
Fixpoint digits (acc : option Z) (s : string) : option Z :=
  match s with
  | EmptyString => acc
  | String c r =>
      match digit c with
      | Some d => digits (Some (10 * default 0%Z acc + d)%Z) r
      | None => acc
      end
  end.

Definition parseInt (s : string) : JsNum :=
  let t := trim_start s in
  let '(sign, body) :=
    match t with
    | String "-" r => ((-1)%Z, r)
    | String "+" r => (1%Z, r)
    | _ => (1%Z, t)
    end in
  match digits None body with
  | Some n => Int (sign * n)
  | None => NaN
  end.

(** ** ToString *)

Definition digit_char (d : Z) : ascii := ascii_of_nat (48 + Z.to_nat d).

(** Decimal digits of a non-negative integer, most significant first. *)
Fixpoint decimal_fuel (fuel : nat) (n : Z) (acc : string) : string :=
  match fuel with
  | O => acc
  | S f =>
      let acc' := String (digit_char (n mod 10)) acc in
      if (n <? 10)%Z then acc' else decimal_fuel f (n / 10) acc'
  end.

Definition decimal (n : Z) : string :=
  decimal_fuel (S (Z.to_nat (Z.log2 n))) n EmptyString.

(** Trailing zeros of the fraction are not written. *)
Fixpoint strip_zeros (s : string) : string :=
  match s with
  | EmptyString => EmptyString
  | String c r =>
      match strip_zeros r with
      | EmptyString =>
          if Ascii.eqb c "0" then EmptyString else String c EmptyString
      | r' => String c r'
      end
  end.

(** Number::toString for an integer: plain decimal digits below 10^21, and
    exponent notation from there on ([d.ddde+x]).  In exponent notation the
    model writes the digits of the exact integer. *)
Definition exponent (n : Z) : string :=
  match decimal n with
  | String d r =>
      let frac := strip_zeros r in
      String d (if String.eqb frac "" then "" else String "." frac)
        +:+ "e+" +:+ decimal (Z.of_nat (String.length r))
  | EmptyString => EmptyString
  end.

Definition number_to_string (n : JsNum) : string :=
  match n with
  | NaN => "NaN"
  | Int z =>
      let m := Z.abs z in
      let body := if (m <? 10 ^ 21)%Z then decimal m else exponent m in
      if (z <? 0)%Z then String "-" body else body
  end.

Definition to_string (v : JsVal) : string :=
  match v with
  | VUndefined => "undefined"
  | VNull => "null"
  | VBool true => "true"
  | VBool false => "false"
  | VNum n => number_to_string n
  | VStr s => s
  end.

(** [parseInt(v, 10)] on an arbitrary value: the argument is first
    converted to a string. *)
Definition parseInt_val (v : JsVal) : JsNum := parseInt (to_string v).

(** [Number.isNaN(v)] *)
Definition isNaN (v : JsVal) : bool :=
  match v with
  | VNum NaN => true
  | _ => false
  end.

End Js.

(* ===================================================================== *)
(** * The lexical functions of the script *)
(* ===================================================================== *)

Module Url.
Import Js.

(** The MIME-type token searched for by [isHlsSource]. *)
Definition hls_mime : string := "application/vnd.apple.mpegurl".

(** [isHlsSource(src)] *)
Definition isHlsSource (src : string) : bool :=
  if String.eqb src "" then false
  else regex_test src || includes hls_mime src.

(** [detectMimeTypeFromUrl(url)] *)
Definition detectMimeTypeFromUrl (url : string) : string :=
  if String.eqb url "" then ""
  else
    let ext :=
      toLowerCase
        (or_empty (pop (split "." (or_empty (first (split "?" url)))))) in
    if String.eqb ext "mp4" then "video/mp4"
    else if String.eqb ext "webm" then "video/webm"
    else if String.eqb ext "ogg" then "video/ogg"
    else if String.eqb ext "mov" then "video/quicktime"
    else "".

End Url.

(* ===================================================================== *)
(** * The DOM store *)
(* ===================================================================== *)

Module Dom.
Import Js.

(** ** Closures kept by DOM nodes

    The script registers three kinds of functions on nodes: the click
    listener of the poster overlay, and the [onload]/[onerror] handlers of an
    injected script element, which forward to the completion callback given
    to [loadScript].  Each is represented by the variables it captures. *)

Inductive Callback : Type :=
| CbClick (video overlay : nat) (src : string) (startLevel : JsVal)
| CbEager (video : nat) (src : string) (startLevel : JsVal)
| CbProceed (cards : list nat).

Inductive Handler : Type :=
| OnPlayClick (video overlay : nat) (src : string) (startLevel : JsVal)
    (hlsCdn : string)
| OnPlayClickV0 (video overlay : nat) (src : string)
| ScriptOnload (cb : option Callback)
| ScriptOnerror (src : string) (cb : option Callback).

(** ** Nodes

    A node is identified by the key under which the store holds it.  The
    properties the script assigns ([className], [src], [type], [preload],
    [async]) reflect content attributes and are kept in [attrs]; [attrs] is
    ordered, as the attribute list of an element is. *)

Record Node : Type := {
  tag : string;
  attrs : list (string * string);
  children : list nat;
  text : string;                (* character data of a text node *)
  innerHTML : string;           (* markup assigned through innerHTML, unparsed *)
  backgroundImage : string;     (* style.backgroundImage *)
  listeners : list Handler;     (* click listeners, in registration order *)
  onload : option Handler;
  onerror : option Handler
}.

Definition new_node (t : string) : Node :=
  {| tag := t; attrs := []; children := []; text := ""; innerHTML := "";
     backgroundImage := ""; listeners := []; onload := None;
     onerror := None |}.

Definition with_attrs (f : list (string * string) → list (string * string))
    (n : Node) : Node :=
  {| tag := tag n; attrs := f (attrs n); children := children n;
     text := text n; innerHTML := innerHTML n;
     backgroundImage := backgroundImage n; listeners := listeners n;
     onload := onload n; onerror := onerror n |}.

Definition with_children (f : list nat → list nat) (n : Node) : Node :=
  {| tag := tag n; attrs := attrs n; children := f (children n);
     text := text n; innerHTML := innerHTML n;
     backgroundImage := backgroundImage n; listeners := listeners n;
     onload := onload n; onerror := onerror n |}.

Definition with_innerHTML (s : string) (n : Node) : Node :=
  {| tag := tag n; attrs := attrs n; children := children n;
     text := text n; innerHTML := s;
     backgroundImage := backgroundImage n; listeners := listeners n;
     onload := onload n; onerror := onerror n |}.

Definition with_backgroundImage (s : string) (n : Node) : Node :=
  {| tag := tag n; attrs := attrs n; children := children n;
     text := text n; innerHTML := innerHTML n;
     backgroundImage := s; listeners := listeners n;
     onload := onload n; onerror := onerror n |}.

Definition with_listener (h : Handler) (n : Node) : Node :=
  {| tag := tag n; attrs := attrs n; children := children n;
     text := text n; innerHTML := innerHTML n;
     backgroundImage := backgroundImage n; listeners := listeners n ++ [h];
     onload := onload n; onerror := onerror n |}.

Definition with_onload (h : Handler) (n : Node) : Node :=
  {| tag := tag n; attrs := attrs n; children := children n;
     text := text n; innerHTML := innerHTML n;
     backgroundImage := backgroundImage n; listeners := listeners n;
     onload := Some h; onerror := onerror n |}.

Definition with_onerror (h : Handler) (n : Node) : Node :=
  {| tag := tag n; attrs := attrs n; children := children n;
     text := text n; innerHTML := innerHTML n;
     backgroundImage := backgroundImage n; listeners := listeners n;
     onload := onload n; onerror := Some h |}.

(** ** Attribute lists *)

Fixpoint assoc (k : string) (l : list (string * string)) : option string :=
  match l with
  | [] => None
  | (k', v) :: r => if String.eqb k' k then Some v else assoc k r
  end.

(** Replace the value in place when the name exists, else add it last. *)
Fixpoint assoc_set (k v : string) (l : list (string * string))
    : list (string * string) :=
  match l with
  | [] => [(k, v)]
  | (k', v') :: r =>
      if String.eqb k' k then (k, v) :: r else (k', v') :: assoc_set k v r
  end.

(** ** Reading the store *)

Abbreviation Store := (gmap nat Node).

Definition node_children (d : Store) (i : nat) : list nat :=
  match d !! i with
  | Some n => children n
  | None => []
  end.

(** [el.getAttribute(k)] *)
Definition getAttribute (d : Store) (i : nat) (k : string) : option string :=
  match d !! i with
  | Some n => assoc k (attrs n)
  | None => None
  end.

Definition node_listeners (d : Store) (i : nat) : list Handler :=
  match d !! i with
  | Some n => listeners n
  | None => []
  end.

(** ** Mutations *)

Definition remove_id (c : nat) (l : list nat) : list nat :=
  filter (λ x, x ≠ c) l.

(** Take [c] out of the child list that holds it. *)
Definition detach (c : nat) (d : Store) : Store :=
  with_children (remove_id c) <$> d.

(** [p.appendChild(c)]: a node has one parent, so [c] first leaves its
    present one. *)
Definition appendChild (p c : nat) (d : Store) : Store :=
  alter (with_children (λ l, l ++ [c])) p (detach c d).

(** [el.innerHTML = ''] *)
Definition clear (p : nat) (d : Store) : Store :=
  alter (λ n, with_innerHTML "" (with_children (λ _, []) n)) p d.

(** [el.setAttribute(k, v)], and every reflecting property assignment. *)
Definition setAttribute (i : nat) (k v : string) (d : Store) : Store :=
  alter (with_attrs (assoc_set k v)) i d.

(** ** Tree queries *)

(** The descendants of a node in tree order.  The fuel bounds the depth; the
    number of nodes of the store is enough for a tree. *)
Fixpoint descendants (fuel : nat) (d : Store) (i : nat) : list nat :=
  match fuel with
  | O => []
  | S f => flat_map (λ c, c :: descendants f d c) (node_children d i)
  end.

(** ASCII whitespace of the HTML standard, which separates the tokens of
    an attribute: TAB, LF, FF, CR and SP. *)
Definition is_html_space (c : ascii) : bool :=
  let n := nat_of_ascii c in
  (n =? 9) || (n =? 10) || (n =? 12) || (n =? 13) || (n =? 32).

(** The tokens of a [class] attribute. *)
Fixpoint tokens_aux (cur : string) (s : string) : list string :=
  match s with
  | EmptyString => if String.eqb cur "" then [] else [cur]
  | String c r =>
      if is_html_space c
      then (if String.eqb cur "" then tokens_aux "" r
            else cur :: tokens_aux "" r)
      else tokens_aux (cur +:+ String c EmptyString) r
  end.

Definition class_list (d : Store) (i : nat) : list string :=
  tokens_aux "" (or_empty (getAttribute d i "class")).

Definition has_class (d : Store) (cls : string) (i : nat) : bool :=
  existsb (String.eqb cls) (class_list d i).

Definition is_text (d : Store) (i : nat) : bool :=
  match d !! i with
  | Some n => String.eqb (tag n) "#text"
  | None => false
  end.

(** [el.querySelector('.' + cls)] *)
Definition querySelector_class (d : Store) (i : nat) (cls : string)
    : option nat :=
  find (has_class d cls) (descendants (size d) d i).

(** [el.textContent] *)
Definition textContent (d : Store) (i : nat) : string :=
  fold_right (λ j acc, match d !! j with
                       | Some n => if String.eqb (tag n) "#text"
                                   then text n +:+ acc else acc
                       | None => acc
                       end)
    "" (descendants (size d) d i).

(** The test of the selector [.vd-card[data-src]] on one element. *)
Definition matches_card (d : Store) (i : nat) : bool :=
  has_class d "vd-card" i && bool_decide (is_Some (getAttribute d i "data-src")).

(** [root.querySelectorAll('.vd-card[data-src]')] *)
Definition querySelectorAll_cards (d : Store) (root : nat) : list nat :=
  filter (λ i, matches_card d i = true) (descendants (size d) d root).

End Dom.

(* ===================================================================== *)
(** * The script *)
(* ===================================================================== *)

Module Card.
Import Js Url Dom.

(** ** The environment of the script *)

Inductive Outcome (A : Type) : Type :=
| Returns (a : A)
| Throws.
Arguments Returns {A} a.
Arguments Throws {A}.

(** The streaming-decoder library, as far as the script consumes it: the
    support query, the constructor and the two binding operations, each of
    which may throw. *)
Record HlsLib : Type := {
  isSupported : Outcome bool;
  construct : Outcome unit;
  loadSource : string → Outcome unit;
  attachMedia : nat → Outcome unit
}.

(** The global [window.Hls]: undefined, defined with a falsy value, or the
    library. *)
Inductive HlsGlobal : Type :=
| HlsUndefined
| HlsFalsy
| HlsDefined (lib : HlsLib).

(** [videoEl.canPlayType]: absent, or a function that returns a string (the
    empty string for "no") or throws. *)
Inductive CanPlay : Type :=
| CanPlayMissing
| CanPlayReturns (answer : string)
| CanPlayThrows.

(** The behaviour of the host's media element. *)
Record Host : Type := {
  canPlayType : CanPlay;
  src_setter : Outcome unit;    (* the assignment [videoEl.src = url] *)
  play : Outcome unit           (* [video.play()] *)
}.

(** ** Observable actions

    An event records that the action was started: a call that then throws
    is in the trace all the same. *)
Inductive Event : Type :=
| EvCreate (node : nat) (tag : string)
| EvAppend (parent child : nat)
| EvRemove (node : nat)
| EvClear (node : nat)
| EvAttachHls (video : nat) (src : string) (startLevel : JsVal)
| EvAttachDirectFile (video : nat) (src : string)
| EvSetSrc (video : nat) (src : string)
| EvHlsNew
| EvHlsSet (property : string) (value : JsVal)
| EvHlsLoadSource (src : string)
| EvHlsAttachMedia (video : nat)
| EvWarn (message : string)
| EvError (message : string)
| EvPlay (video : nat)
| EvUncaught.

Record World : Type := {
  store : Store;
  next : nat;                   (* the key of the next node to be created *)
  document : nat;               (* root of the tree that initAll scans *)
  doc_head : nat;               (* document.head *)
  Hls : HlsGlobal;              (* window.Hls *)
  trace : list Event
}.

Definition with_store (f : Store → Store) (w : World) : World :=
  {| store := f (store w); next := next w; document := document w;
     doc_head := doc_head w; Hls := Hls w; trace := trace w |}.

Definition with_trace (e : Event) (w : World) : World :=
  {| store := store w; next := next w; document := document w;
     doc_head := doc_head w; Hls := Hls w; trace := trace w ++ [e] |}.

Definition with_Hls (g : HlsGlobal) (w : World) : World :=
  {| store := store w; next := next w; document := document w;
     doc_head := doc_head w; Hls := g; trace := trace w |}.

(** ** State and exceptions *)

Definition M (A : Type) : Type := World → Outcome A * World.

#[global] Instance M_ret : MRet M := λ A a w, (Returns a, w).

#[global] Instance M_bind : MBind M := λ A B k m w,
  match m w with
  | (Returns a, w') => k a w'
  | (Throws, w') => (Throws, w')
  end.

(** [try { m } catch (e) { h }] *)
Definition try_catch {A} (m : M A) (h : M A) : M A := λ w,
  match m w with
  | (Throws, w') => h w'
  | r => r
  end.

Definition lift {A} (o : Outcome A) : M A := λ w, (o, w).
Definition gets {A} (f : World → A) : M A := λ w, (Returns (f w), w).
Definition modify (f : Store → Store) : M unit :=
  λ w, (Returns tt, with_store f w).
Definition emit (e : Event) : M unit := λ w, (Returns tt, with_trace e w).

(** The world a computation leaves behind. *)
Definition exec {A} (m : M A) (w : World) : World := (m w).2.

(** ** DOM operations of the script *)

(** A fresh key for a node. *)
Definition alloc : M nat := λ w,
  (Returns (next w),
   {| store := store w; next := S (next w); document := document w;
      doc_head := doc_head w; Hls := Hls w; trace := trace w |}).

(** [document.createElement(t)] *)
Definition createElement (t : string) : M nat :=
  id ← alloc;
  modify (insert id (new_node t));;
  emit (EvCreate id t);;
  mret id.

Definition append (p c : nat) : M unit :=
  emit (EvAppend p c);; modify (appendChild p c).

(** [el.remove()] and [parent.removeChild(el)] *)
Definition remove (c : nat) : M unit :=
  emit (EvRemove c);; modify (detach c).

Definition set_attr (i : nat) (k v : string) : M unit :=
  modify (setAttribute i k v).

Definition get_attr (i : nat) (k : string) : M (option string) :=
  gets (λ w, getAttribute (store w) i k).

(** [videoEl.src = url] *)
Definition set_src (host : Host) (v : nat) (url : string) : M unit :=
  emit (EvSetSrc v url);;
  lift (src_setter host);;
  set_attr v "src" url.

(** [videoEl.canPlayType && videoEl.canPlayType('application/vnd.apple.mpegurl')],
    as a condition. *)
Definition can_play_hls (host : Host) : M bool :=
  match canPlayType host with
  | CanPlayMissing => mret false
  | CanPlayReturns s => mret (negb (String.eqb s ""))
  | CanPlayThrows => lift Throws
  end.

(** [try { video.play(); } catch(e){}] *)
Definition try_play (host : Host) (v : nat) : M unit :=
  try_catch (emit (EvPlay v);; lift (play host)) (mret tt).

(** ** The script, function by function *)

Record Opts : Type := {
  hlsCdn : string;
  autoInit : JsVal;
  lazyLoad : JsVal
}.

Definition DEFAULTS : Opts :=
  {| hlsCdn := "https://cdn.jsdelivr.net/npm/hls.js@latest";
     autoInit := VBool true;
     lazyLoad := VBool false |}.

(** The argument of [initAll]: an object that may or may not carry each
    key. *)
Record Options : Type := {
  o_hlsCdn : option string;
  o_autoInit : option JsVal;
  o_lazyLoad : option JsVal
}.

(** [Object.assign({}, DEFAULTS, options || {})] *)
Definition assign (options : option Options) : Opts :=
  match options with
  | None => DEFAULTS
  | Some o =>
      {| hlsCdn := default (hlsCdn DEFAULTS) (o_hlsCdn o);
         autoInit := default (autoInit DEFAULTS) (o_autoInit o);
         lazyLoad := default (lazyLoad DEFAULTS) (o_lazyLoad o) |}
  end.

(** [loadScript(src, cb)] *)
Definition loadScript (src : string) (cb : option Callback) : M unit :=
  s ← createElement "script";
  set_attr s "src" src;;
  set_attr s "async" "";;
  modify (alter (with_onload (ScriptOnload cb)) s);;
  modify (alter (with_onerror (ScriptOnerror src cb)) s);;
  h ← gets doc_head;
  append h s.

(** The guard on the quality-level hint in [attachHls]. *)
Definition hint_supplied (startLevel : JsVal) : bool :=
  match startLevel with
  | VUndefined => false
  | VNull => false
  | v => negb (isNaN v)
  end.

(** [attachHls(videoEl, src, startLevel)] *)
Definition attachHls (host : Host) (videoEl : nat) (src : string)
    (startLevel : JsVal) : M unit :=
  emit (EvAttachHls videoEl src startLevel);;
  try_catch
    (g ← gets Hls;
     supported ← match g with
                 | HlsDefined lib => lift (isSupported lib)
                 | _ => mret false
                 end;
     match g, supported return M unit with
     | HlsDefined lib, true =>
         emit EvHlsNew;;
         lift (construct lib);;
         (if hint_supplied startLevel
          then emit (EvHlsSet "startLevel" (VNum (parseInt_val startLevel)));;
               emit (EvHlsSet "autoLevelEnabled" (VBool false))
          else mret tt);;
         emit (EvHlsLoadSource src);;
         lift (loadSource lib src);;
         emit (EvHlsAttachMedia videoEl);;
         lift (attachMedia lib videoEl)
     | _, _ =>
         native ← can_play_hls host;
         if (native : bool) then set_src host videoEl src
         else emit (EvWarn "No HLS support in this browser.")
     end)
    (emit (EvError "vd-card attachHls error:")).

(** [while (videoEl.firstChild) videoEl.removeChild(videoEl.firstChild)];
    the fuel is the number of children at entry. *)
Fixpoint remove_children (fuel : nat) (v : nat) : M unit :=
  match fuel with
  | O => mret tt
  | S f =>
      cs ← gets (λ w, node_children (store w) v);
      match cs with
      | [] => mret tt
      | c :: _ => remove c;; remove_children f v
      end
  end.

(** [attachDirectFile(videoEl, src)] *)
Definition attachDirectFile (host : Host) (videoEl : nat) (src : string)
    : M unit :=
  emit (EvAttachDirectFile videoEl src);;
  let type := detectMimeTypeFromUrl src in
  n ← gets (λ w, length (node_children (store w) videoEl));
  remove_children n videoEl;;
  source ← createElement "source";
  set_attr source "src" src;;
  (if negb (String.eqb type "") then set_attr source "type" type
   else mret tt);;
  append videoEl source;;
  try_catch (set_src host videoEl src) (mret tt).

(** A double quote, for the template literals of the script. *)
Definition dq : string := String (ascii_of_nat 34) EmptyString.

(** [createPosterOverlay(posterUrl, onClick)].  The listener of the script
    refers to the variable that receives the overlay, so it is given here as
    a function of the overlay.  [backgroundImage] receives the string the
    script assigns to [style.backgroundImage]; a browser keeps that string
    when it is a valid CSS value, and drops it otherwise. *)
Definition createPosterOverlay (posterUrl : string)
    (onClick : nat → Handler) : M nat :=
  overlay ← createElement "div";
  set_attr overlay "class" "vd-poster";;
  (if negb (String.eqb posterUrl "")
   then modify (alter (with_backgroundImage
                         ("url(" +:+ dq +:+ posterUrl +:+ dq +:+ ")")) overlay)
   else mret tt);;
  btn ← createElement "div";
  set_attr btn "class" "vd-playbtn";;
  append overlay btn;;
  modify (alter (with_listener (onClick overlay)) overlay);;
  mret overlay.

(** The completion callback of the click path (lines 114 to 127): [err] is
    true when the script failed to load. *)
Definition click_loaded (host : Host) (video overlay : nat) (src : string)
    (startLevel : JsVal) (err : bool) : M unit :=
  (if err then
     emit (EvWarn "Could not load hls.js from CDN, trying native fallback.");;
     native ← can_play_hls host;
     if (native : bool) then set_src host video src else mret tt
   else attachHls host video src startLevel);;
  remove overlay;;
  try_play host video.

(** The completion callback of the eager path (lines 151 to 160). *)
Definition eager_loaded (host : Host) (video : nat) (src : string)
    (startLevel : JsVal) (err : bool) : M unit :=
  if err then
    native ← can_play_hls host;
    if (native : bool) then set_src host video src else mret tt
  else attachHls host video src startLevel.

(** [typeof window.Hls === 'undefined'] *)
Definition Hls_undefined : M bool :=
  gets (λ w, match Hls w with HlsUndefined => true | _ => false end).

(** [onPlayClick], the click listener of the overlay (lines 109 to 139). *)
Definition onPlayClick (host : Host) (video overlay : nat) (src : string)
    (startLevel : JsVal) (cdn : string) : M unit :=
  if isHlsSource src then
    undef ← Hls_undefined;
    if (undef : bool) then
      loadScript cdn (Some (CbClick video overlay src startLevel))
    else
      attachHls host video src startLevel;;
      remove overlay;;
      try_play host video
  else
    attachDirectFile host video src;;
    remove overlay;;
    try_play host video.

(** [lazy], line 93. *)
Definition lazy_flag (lazyAttr : option string) (opts : Opts) : bool :=
  (match lazyAttr with
   | Some s => String.eqb s "1" || String.eqb s "true"
   | None => false
   end) || truthy (lazyLoad opts).

(** [startLevel], line 95. *)
Definition start_level (startLevelAttr : option string) : JsVal :=
  match startLevelAttr with
  | Some s => if String.eqb s "" then VNull else VNum (parseInt s)
  | None => VNull
  end.

(** [card.getAttribute(a) || card.querySelector('.' + cls)?.textContent || ""] *)
Definition attr_or_text (d : Store) (card : nat) (a cls : string) : string :=
  match getAttribute d card a with
  | Some s => if negb (String.eqb s "") then s else
      match querySelector_class d card cls with
      | Some e => textContent d e
      | None => ""
      end
  | None =>
      match querySelector_class d card cls with
      | Some e => textContent d e
      | None => ""
      end
  end.

(** [initOne] runs in three phases, kept apart here: building the player
    (lines 97 to 144), the eager attachment (lines 147 to 172) and the
    injection into the card (lines 175 to 181). *)

(** Lines 97 to 144: the wrapper, the video element and the overlay with
    its listener.  Returns the three nodes. *)
Definition buildPlayer (opts : Opts) (src poster : string) (lazy : bool)
    (startLevel : JsVal) : M (nat * nat * nat) :=
  wrapper ← createElement "div";
  set_attr wrapper "class" "vd-wrapper";;
  video ← createElement "video";
  set_attr video "controls" "";;
  set_attr video "playsinline" "";;
  set_attr video "preload" (if lazy then "none" else "metadata");;
  append wrapper video;;
  overlay ← createPosterOverlay poster
              (λ overlay, OnPlayClick video overlay src startLevel (hlsCdn opts));
  append wrapper overlay;;
  mret (wrapper, video, overlay).

(** Lines 147 to 172: the body of [if (!lazy)]. *)
Definition attachEager (host : Host) (opts : Opts) (video overlay : nat)
    (src poster : string) (startLevel : JsVal) : M unit :=
  (if isHlsSource src then
     undef ← Hls_undefined;
     if (undef : bool) then
       loadScript (hlsCdn opts) (Some (CbEager video src startLevel))
     else attachHls host video src startLevel
   else attachDirectFile host video src);;
  (if String.eqb poster "" then remove overlay else mret tt).

(** Lines 175 to 181: the card is emptied and receives the head and the
    wrapper. *)
Definition injectCard (card wrapper : nat) (title desc : string) : M unit :=
  emit (EvClear card);;
  modify (clear card);;
  head ← createElement "div";
  set_attr head "class" "vd-head";;
  (if negb (String.eqb title "")
   then modify (alter (with_innerHTML
                         ("<div class=" +:+ dq +:+ "vd-title" +:+ dq +:+ ">"
                            +:+ title +:+ "</div>")) head)
   else mret tt);;
  (if negb (String.eqb desc "")
   then modify (alter (λ n, with_innerHTML
                         (innerHTML n +:+
                          "<div class=" +:+ dq +:+ "vd-desc" +:+ dq +:+ ">"
                            +:+ desc +:+ "</div>") n) head)
   else mret tt);;
  append card head;;
  append card wrapper.

(** [initOne(card, opts)] *)
Definition initOne (host : Host) (card : nat) (opts : Opts) : M unit :=
  src0 ← get_attr card "data-src";
  if falsy_str src0 then mret tt else
  let src := or_empty src0 in
  title ← gets (λ w, attr_or_text (store w) card "data-title" "vd-title");
  desc ← gets (λ w, attr_or_text (store w) card "data-desc" "vd-desc");
  posterAttr ← get_attr card "data-poster";
  let poster := or_empty posterAttr in
  lazyAttr ← get_attr card "data-lazy";
  let lazy := lazy_flag lazyAttr opts in
  startLevelAttr ← get_attr card "data-startlevel";
  let startLevel := start_level startLevelAttr in
  player ← buildPlayer opts src poster lazy startLevel;
  let '(wrapper, video, overlay) := player in
  (if negb lazy
   then attachEager host opts video overlay src poster startLevel
   else mret tt);;
  injectCard card wrapper title desc.

(** [cards.forEach(f)] *)
Fixpoint forEach (cards : list nat) (f : nat → M unit) : M unit :=
  match cards with
  | [] => mret tt
  | c :: r => f c;; forEach r f
  end.

(** [initAll(options)] *)
Definition initAll (host : Host) (options : option Options) : M unit :=
  let opts := assign options in
  cards ← gets (λ w, querySelectorAll_cards (store w) (document w));
  if (length cards =? 0) then mret tt
  else forEach cards (λ card, initOne host card opts).

(** ** Version 1.0.0

    The predecessor of the script has no eager attachment; its click
    listener looks at the video element before it attaches anything. *)

(** [attachHls(videoEl, src)] of version 1.0.0. *)
Definition attachHlsV0 (host : Host) (videoEl : nat) (src : string)
    : M unit :=
  emit (EvAttachHls videoEl src VUndefined);;
  try_catch
    (g ← gets Hls;
     supported ← match g with
                 | HlsDefined lib => lift (isSupported lib)
                 | _ => mret false
                 end;
     match g, supported return M unit with
     | HlsDefined lib, true =>
         emit EvHlsNew;;
         lift (construct lib);;
         emit (EvHlsLoadSource src);;
         lift (loadSource lib src);;
         emit (EvHlsAttachMedia videoEl);;
         lift (attachMedia lib videoEl)
     | _, _ =>
         native ← can_play_hls host;
         if (native : bool) then set_src host videoEl src
         else emit (EvWarn "No HLS support in this browser.")
     end)
    (emit (EvError "vd-card attach error:")).

(** [video.childElementCount] *)
Definition childElementCount (d : Store) (i : nat) : nat :=
  length (List.filter (λ c, negb (is_text d c)) (node_children d i)).

(** The click listener of version 1.0.0 (lines 67 to 77 of that file). *)
Definition onPlayClickV0 (host : Host) (video overlay : nat) (src : string)
    : M unit :=
  vsrc ← get_attr video "src";
  count ← gets (λ w, childElementCount (store w) video);
  (if falsy_str vsrc && (count =? 0) then attachHlsV0 host video src
   else if falsy_str vsrc && negb (String.eqb (or_empty vsrc) src)
        then set_src host video src
        else mret tt);;
  remove overlay;;
  try_play host video.

(** [initOne(card, opts)] of version 1.0.0. *)
Definition initOneV0 (card : nat) : M unit :=
  src0 ← get_attr card "data-src";
  if falsy_str src0 then mret tt else
  let src := or_empty src0 in
  title ← gets (λ w, attr_or_text (store w) card "data-title" "vd-title");
  desc ← gets (λ w, attr_or_text (store w) card "data-desc" "vd-desc");
  posterAttr ← get_attr card "data-poster";
  let poster := or_empty posterAttr in
  wrapper ← createElement "div";
  set_attr wrapper "class" "vd-wrapper";;
  video ← createElement "video";
  set_attr video "controls" "";;
  set_attr video "playsinline" "";;
  set_attr video "preload" "metadata";;
  append wrapper video;;
  overlay ← createPosterOverlay poster
              (λ overlay, OnPlayClickV0 video overlay src);
  append wrapper overlay;;
  injectCard card wrapper title desc.

(** [initAll(options)] of version 1.0.0: the cards are initialised once
    the decoder script has loaded or failed to load. *)
Definition initAllV0 (options : option Options) : M unit :=
  let opts := assign options in
  cards ← gets (λ w, querySelectorAll_cards (store w) (document w));
  if (length cards =? 0) then mret tt
  else
    undef ← Hls_undefined;
    if (undef : bool) then loadScript (hlsCdn opts) (Some (CbProceed cards))
    else forEach cards initOneV0.

(** ** The events the page delivers to the script *)

(** The completion callbacks given to [loadScript]; in version 1.0.0 the
    callback warns on failure and proceeds in both cases. *)
Definition run_callback (host : Host) (cb : Callback) (err : bool) : M unit :=
  match cb with
  | CbClick video overlay src startLevel =>
      click_loaded host video overlay src startLevel err
  | CbEager video src startLevel =>
      eager_loaded host video src startLevel err
  | CbProceed cards =>
      (if err then emit (EvWarn "Could not load hls.js from CDN.")
       else mret tt);;
      forEach cards initOneV0
  end.

Definition run_handler (host : Host) (h : Handler) : M unit :=
  match h with
  | OnPlayClick video overlay src startLevel cdn =>
      onPlayClick host video overlay src startLevel cdn
  | OnPlayClickV0 video overlay src => onPlayClickV0 host video overlay src
  | ScriptOnload cb =>
      match cb with
      | Some c => run_callback host c false
      | None => mret tt
      end
  | ScriptOnerror _ cb =>
      match cb with
      | Some c => run_callback host c true
      | None => mret tt
      end
  end.

(** A handler run by the event loop: an exception that escapes it is
    reported and goes no further. *)
Definition dispatch (host : Host) (h : Handler) (w : World) : World :=
  match run_handler host h w with
  | (Returns _, w') => w'
  | (Throws, w') => with_trace EvUncaught w'
  end.

Inductive Input : Type :=
| Click (target : nat)
| ScriptLoaded (script : nat) (defines : HlsGlobal)
| ScriptFailed (script : nat).

(** [Click target]: a click event reaches [target], dispatched on it or
    bubbling up to it from a descendant, and runs the click listeners
    registered on [target]; the script registers click listeners on
    overlays only, so a click on the play button of an overlay is
    [Click overlay].  [ScriptLoaded] runs the loaded script, which leaves
    [window.Hls] as [defines], and then the [onload] handler;
    [ScriptFailed] runs the [onerror] handler. *)
Definition deliver (host : Host) (i : Input) (w : World) : World :=
  match i with
  | Click target =>
      fold_left (λ w h, dispatch host h w)
        (node_listeners (store w) target) w
  | ScriptLoaded s defines =>
      let w1 := with_Hls defines w in
      match store w1 !! s with
      | Some n => match onload n with
                  | Some h => dispatch host h w1
                  | None => w1
                  end
      | None => w1
      end
  | ScriptFailed s =>
      match store w !! s with
      | Some n => match onerror n with
                  | Some h => dispatch host h w
                  | None => w
                  end
      | None => w
      end
  end.

Definition run (host : Host) (inputs : list Input) (w : World) : World :=
  fold_left (λ w i, deliver host i w) inputs w.

End Card.

(* ===================================================================== *)
(** * The vocabulary of the statements *)
(* ===================================================================== *)

Module Wording.
Import Js Url Dom Card.

(** ** What the specification calls the extension of a URL

    Modelled on the wording of the specification, for comparison with the
    code: the path component of a URL is what precedes its first [?] or [#],
    and the file extension is what follows the last dot of the path (none
    when the path has no dot), compared without regard to case. *)

Fixpoint spec_path (url : string) : string :=
  match url with
  | EmptyString => EmptyString
  | String c r =>
      if Ascii.eqb c "?" || Ascii.eqb c "#" then EmptyString
      else String c (spec_path r)
  end.

Definition spec_extension (url : string) : string :=
  match split "." (spec_path url) with
  | [] | [_] => ""
  | parts => toLowerCase (or_empty (last parts))
  end.

(** The suffix that may follow the manifest extension: nothing, a query or
    a fragment. *)
Definition query_or_fragment (t : string) : Prop :=
  t = "" ∨ (∃ r, t = String "?" r) ∨ (∃ r, t = String "#" r).

(** A character does not occur in a string. *)
Fixpoint free_of (c : ascii) (s : string) : bool :=
  match s with
  | EmptyString => true
  | String c' r => negb (Ascii.eqb c' c) && free_of c r
  end.

Fixpoint string_of (l : list ascii) : string :=
  match l with
  | [] => EmptyString
  | c :: r => String c (string_of r)
  end.

(** The table of the specification: mp4, webm, ogg and mov have a MIME
    type, every other extension has none. *)
Definition spec_mime (ext : string) : string :=
  if String.eqb ext "mp4" then "video/mp4"
  else if String.eqb ext "webm" then "video/webm"
  else if String.eqb ext "ogg" then "video/ogg"
  else if String.eqb ext "mov" then "video/quicktime"
  else "".

(** ** Around [attachHls] *)

(** The decoder path is not taken: [window.Hls] is undefined or falsy, or
    the library reports no support. *)
Definition decoder_declines (g : HlsGlobal) : Prop :=
  match g with
  | HlsDefined lib => isSupported lib = Returns false
  | _ => True
  end.

(** The native path is not taken: no [canPlayType], or the empty answer. *)
Definition native_declines (host : Host) : Prop :=
  canPlayType host = CanPlayMissing ∨ canPlayType host = CanPlayReturns "".

(** The native fallback of a completion callback raises nothing: the
    capability query declines, or it accepts and the assignment of [src]
    goes through. *)
Definition fallback_safe (host : Host) : Prop :=
  native_declines host
  ∨ (∃ s, canPlayType host = CanPlayReturns s ∧ src_setter host = Returns tt).

(** The events added to the trace between two worlds. *)
Definition emitted (w w' : World) (evs : list Event) : Prop :=
  trace w' = trace w ++ evs.

Definition attach_error : Event := EvError "vd-card attachHls error:".
Definition no_support : Event := EvWarn "No HLS support in this browser.".

(** The two property assignments made on the decoder for a hint. *)
Definition pin_level (level : JsNum) : list Event :=
  [EvHlsSet "startLevel" (VNum level);
   EvHlsSet "autoLevelEnabled" (VBool false)].

(** ** Around the card *)

(** No child list of the store holds [c]: the node is out of the tree. *)
Definition absent (c : nat) (d : Store) : Prop :=
  ∀ p, c ∉ node_children d p.

(** The calls of the two attachers in a trace. *)
Definition is_attach_call (e : Event) : bool :=
  match e with
  | EvAttachHls _ _ _ | EvAttachDirectFile _ _ => true
  | _ => false
  end.

Definition attach_calls (evs : list Event) : nat :=
  length (List.filter is_attach_call evs).

(** The events of the first phase of [initOne], with [n] the first free
    key: wrapper [n], video element [n+1], overlay [n+2] and its button,
    assembled under the wrapper. *)
Definition build_events (n : nat) : list Event :=
  [EvCreate n "div"; EvCreate (S n) "video"; EvAppend n (S n);
   EvCreate (S (S n)) "div"; EvCreate (S (S (S n))) "div";
   EvAppend (S (S n)) (S (S (S n))); EvAppend n (S (S n))].

(** Whatever the computation does, it adds events to the trace and drops
    none. *)
Definition extends {A} (m : M A) : Prop :=
  ∀ w, ∃ evs, trace (m w).2 = trace w ++ evs.

(** The store after [loadScript(src, cb)]. *)
Definition with_script (src : string) (cb : option Callback) (w : World)
    : Store :=
  appendChild (doc_head w) (next w)
    (alter (with_onerror (ScriptOnerror src cb)) (next w)
       (alter (with_onload (ScriptOnload cb)) (next w)
          (setAttribute (next w) "async" ""
             (setAttribute (next w) "src" src
                (<[next w:=new_node "script"]> (store w)))))).

(** The frame around a node [e] that the script leaves alone: [e] is
    held as [x]; keys from [n] on are the ones handed out since, and the
    nodes under them list only such keys; [document.head] is [hd]. *)
Definition store_frame (e : nat) (x : option Node) (n : nat) (d : Store)
    : Prop :=
  d !! e = x
  ∧ ∀ i nd, n ≤ i → d !! i = Some nd → Forall (λ c, n ≤ c) (children nd).

Definition frame (e : nat) (x : option Node) (n hd : nat) (w : World)
    : Prop :=
  store_frame e x n (store w) ∧ n ≤ next w ∧ doc_head w = hd.

(** The computation preserves [I], and what it returns satisfies [Q]. *)
Definition keeps {A} (I : World → Prop) (m : M A) (Q : A → Prop) : Prop :=
  ∀ w, I w →
    I (m w).2 ∧ match (m w).1 with Returns a => Q a | Throws => True end.

(** Every node of the store, and every child it lists, has a key below the
    next one to be handed out. *)
Definition allocated (w : World) : Prop :=
  map_Forall (λ i nd, i < next w ∧ Forall (λ c, c < next w) (children nd))
    (store w).

(** ** Around exceptions and the trace *)

(** The computation raises nothing. *)
Definition returns {A} (m : M A) : Prop := ∀ w, ∃ a, (m w).1 = Returns a.



(** ** Fields of the nodes that the script does not write *)

(** The nodes with a key below [n] show [p0] through [π]. *)
Definition shows {X} (π : Node → X) (n : nat) (p0 : nat → option X)
    (d : Store) : Prop :=
  ∀ k, k < n → π <$> d !! k = p0 k.

Definition preserved {X} (π : Node → X) (n : nat) (p0 : nat → option X)
    (w : World) : Prop :=
  n ≤ next w ∧ shows π n p0 (store w).

(** A node may be rewritten when it is new, or when [π] does not see the
    change. *)
Definition unseen {X} (π : Node → X) (n : nat) (i : nat) (f : Node → Node)
    : Prop :=
  n ≤ i ∨ ∀ nd, π (f nd) = π nd.

(** ** Strings that need no care *)

(** Printable ASCII other than the two quotes, the parentheses and the
    backslash.  A URL made of such characters stands between the quotes of
    a CSS [url("...")] as it is, and is read back from the style as it was
    written. *)
Definition css_plain_char (c : ascii) : bool :=
  let n := nat_of_ascii c in
  (33 <=? n) && (n <=? 126)
  && negb ((n =? 34) || (n =? 39) || (n =? 40) || (n =? 41) || (n =? 92)).

Fixpoint css_plain (s : string) : bool :=
  match s with
  | EmptyString => true
  | String c r => css_plain_char c && css_plain r
  end.

(** A string of ASCII characters: [parseInt] skips no white space in it
    but TAB, LF, VT, FF, CR and SP. *)
Fixpoint ascii_only (s : string) : bool :=
  match s with
  | EmptyString => true
  | String c r => (nat_of_ascii c <? 128) && ascii_only r
  end.

(** ** Version 1.0.0 *)

(** The log text of [attachHls] in version 1.0.0. *)
Definition relabel (e : Event) : Event :=
  match e with
  | EvError _ => EvError "vd-card attach error:"
  | _ => e
  end.

End Wording.

(* ===================================================================== *)
(** * Sample pages, hosts and libraries *)
(* ===================================================================== *)

Module Samples.
Import Js Url Dom Card.

Definition elem (t : string) (a : list (string * string)) (c : list nat)
    : Node :=
  {| tag := t; attrs := a; children := c; text := ""; innerHTML := "";
     backgroundImage := ""; listeners := []; onload := None;
     onerror := None |}.

(** A page with one card, node 3, in the body. *)
Definition page (card_attrs : list (string * string)) (g : HlsGlobal)
    : World :=
  {| store := list_to_map
       [(0, elem "html" [] [1; 2]); (1, elem "head" [] []);
        (2, elem "body" [] [3]);
        (3, elem "div" (("class", "vd-card") :: card_attrs) [])];
     next := 4; document := 0; doc_head := 1; Hls := g; trace := [] |}.

(** A host with native HLS, and one without. *)
Definition safari : Host :=
  {| canPlayType := CanPlayReturns "maybe"; src_setter := Returns tt;
     play := Returns tt |}.

Definition chrome : Host :=
  {| canPlayType := CanPlayReturns ""; src_setter := Returns tt;
     play := Returns tt |}.

(** A host whose capability query throws. *)
Definition broken_host : Host :=
  {| canPlayType := CanPlayThrows; src_setter := Returns tt;
     play := Returns tt |}.

(** A decoder library that works, and one whose [loadSource] throws. *)
Definition hls_js : HlsLib :=
  {| isSupported := Returns true; construct := Returns tt;
     loadSource := λ _, Returns tt; attachMedia := λ _, Returns tt |}.

Definition hls_js_failing : HlsLib :=
  {| isSupported := Returns true; construct := Returns tt;
     loadSource := λ _, Throws; attachMedia := λ _, Returns tt |}.

End Samples.

(* ===================================================================== *)
(** * The classifier and the MIME table *)
(* ===================================================================== *)

Module UrlFacts.
Import Js Url Wording.

(** ** Prefixes and occurrences *)

Lemma append_nil (s : string) : "" +:+ s = s.
Proof. reflexivity. Qed.

Lemma append_cons (c : ascii) (a b : string) :
  String c a +:+ b = String c (a +:+ b).
Proof. reflexivity. Qed.

(** Push [+:+] below the constructors, in the goal and the hypotheses. *)
Ltac str_simpl :=
  repeat first [ progress rewrite ?append_cons, ?append_nil in *
               | progress simpl in * ].

Lemma append_assoc (a b c : string) : (a +:+ b) +:+ c = a +:+ (b +:+ c).
Proof. induction a as [|x a IH]; str_simpl; [done | by rewrite IH]. Qed.

Lemma prefix_spec (p s : string) :
  String.prefix p s = true ↔ ∃ t, s = p +:+ t.
Proof.
  revert s. induction p as [|c p IH]; intros [|c' s]; simpl.
  - split; [intros _; by exists "" | done].
  - split; [intros _; by exists (String c' s) | done].
  - split; [done | intros [t Ht]; discriminate].
  - destruct (ascii_dec c c') as [->|Hne].
    + rewrite IH. split; intros [t Ht]; exists t.
      * by rewrite Ht.
      * rewrite append_cons in Ht. by injection Ht.
    + split; [done | intros [t Ht]].
      rewrite append_cons in Ht. injection Ht. congruence.
Qed.

Lemma includes_spec (t s : string) :
  includes t s = true ↔ ∃ p r, s = p +:+ t +:+ r.
Proof.
  induction s as [|c s IH]; cbn [includes].
  - rewrite orb_false_r, prefix_spec. split.
    + intros [r Hr]. by exists "", r.
    + intros (p & r & H). destruct p; [by exists r | discriminate].
  - rewrite orb_true_iff, prefix_spec, IH. split.
    + intros [[r Hr] | (p & r & H)].
      * by exists "", r.
      * exists (String c p), r. by rewrite append_cons, H.
    + intros (p & r & H). destruct p as [|c' p].
      * left. by exists r.
      * right. exists p, r. rewrite append_cons in H. by injection H.
Qed.

(** ** The regular expression *)

Lemma match_atoms_spec (pat : list ascii) (s r : string) :
  match_atoms pat s = Some r ↔
  ∃ e, s = e +:+ r ∧ toLowerCase e = string_of pat.
Proof.
  revert s. induction pat as [|p pat IH]; intros s; simpl.
  - split.
    + intros [= ->]. by exists "".
    + intros (e & -> & He). destruct e; [done | discriminate].
  - destruct s as [|c s].
    + split; [done |]. intros (e & H & He).
      destruct e; discriminate.
    + destruct (Ascii.eqb_spec (lower c) p) as [<-|Hne].
      * rewrite IH. split.
        -- intros (e & -> & He). exists (String c e).
           rewrite append_cons. simpl. by rewrite He.
        -- intros (e & H & He). destruct e as [|c' e]; [discriminate|].
           rewrite append_cons in H. simpl in He.
           injection H as -> ->. injection He as He.
           by exists e.
      * split; [done |]. intros (e & H & He).
        destruct e as [|c' e]; [discriminate|].
        rewrite append_cons in H. simpl in He.
        injection H as -> ->. injection He as Hc _.
        congruence.
Qed.

Lemma match_tail_spec (t : string) :
  match_tail t = true ↔ query_or_fragment t.
Proof.
  unfold query_or_fragment. destruct t as [|c t]; simpl.
  - split; [by left | done].
  - rewrite orb_true_iff. split.
    + intros [H|H]; apply Ascii.eqb_eq in H as ->; eauto.
    + intros [H|[[r H]|[r H]]]; [discriminate | | ];
        injection H as -> _; [by left | by right].
Qed.

Lemma match_here_spec (s : string) :
  match_here s = true ↔
  ∃ e t, s = e +:+ t ∧ toLowerCase e = ".m3u8" ∧ query_or_fragment t.
Proof.
  unfold match_here. split.
  - destruct (match_atoms atoms s) as [r|] eqn:E; [|done].
    intros Ht. apply match_atoms_spec in E as (e & -> & He).
    exists e, r. by rewrite <- match_tail_spec.
  - intros (e & t & -> & He & Ht).
    assert (match_atoms atoms (e +:+ t) = Some t) as ->.
    { apply match_atoms_spec. by exists e. }
    by apply match_tail_spec.
Qed.

Lemma regex_test_spec (s : string) :
  regex_test s = true ↔
  ∃ p e t, s = p +:+ e +:+ t ∧ toLowerCase e = ".m3u8" ∧ query_or_fragment t.
Proof.
  induction s as [|c s IH].
  - simpl. split; [done |].
    intros (p & e & t & H & He & _).
    destruct p; [|discriminate]. destruct e; discriminate.
  - cbn [regex_test]. rewrite orb_true_iff, match_here_spec, IH. split.
    + intros [(e & t & H & He & Ht) | (p & e & t & H & He & Ht)].
      * by exists "", e, t.
      * exists (String c p), e, t. by rewrite append_cons, H.
    + intros (p & e & t & H & He & Ht). destruct p as [|c' p].
      * left. by exists e, t.
      * right. rewrite append_cons in H. injection H as -> ->.
        by exists p, e, t.
Qed.

(** A URL whose path ends in [.m3u8], in any letter case, with nothing, a
    query or a fragment behind it, is adaptive-stream. *)
Lemma isHlsSource_manifest (p e t : string) :
  toLowerCase e = ".m3u8" → query_or_fragment t →
  isHlsSource (p +:+ e +:+ t) = true.
Proof.
  intros He Ht. unfold isHlsSource.
  destruct (String.eqb_spec (p +:+ e +:+ t) "") as [E|_].
  - destruct p; [|discriminate]. destruct e; discriminate.
  - apply orb_true_iff. left. apply regex_test_spec. by exists p, e, t.
Qed.

(** C1, as amended.  [isHlsSource] answers adaptive-stream exactly when the
    string contains, at any position, [.m3u8] in any letter case followed at
    once by [?], by [#] or by the end of the string, or contains the manifest
    MIME-type token.  The occurrence need not close the path: one inside
    the query or the fragment counts as well. *)
Theorem isHlsSource_spec (src : string) :
  isHlsSource src = true ↔
  (∃ p e t, src = p +:+ e +:+ t ∧ toLowerCase e = ".m3u8"
            ∧ query_or_fragment t)
  ∨ (∃ p r, src = p +:+ hls_mime +:+ r).
Proof.
  unfold isHlsSource. destruct (String.eqb_spec src "") as [->|Hne].
  - split; [done |].
    intros [(p & e & t & H & He & _) | (p & r & H)].
    + destruct p; [|discriminate]. destruct e; discriminate.
    + destruct p; discriminate.
  - by rewrite orb_true_iff, regex_test_spec, includes_spec.
Qed.

(** C1, counterexample.  The path of this URL ends in [.mp4] and the string
    does not contain the MIME-type token, yet the classifier answers
    adaptive-stream, because the query ends in [.m3u8]. *)
Lemma isHlsSource_other_extension :
  spec_extension "movie.mp4?next=a.m3u8" = "mp4"
  ∧ includes hls_mime "movie.mp4?next=a.m3u8" = false
  ∧ isHlsSource "movie.mp4?next=a.m3u8" = true.
Proof. by vm_compute. Qed.

(** ** The MIME table *)

Lemma free_of_append (c : ascii) (a b : string) :
  free_of c (a +:+ b) = free_of c a && free_of c b.
Proof.
  induction a as [|x a IH]; [done |].
  rewrite append_cons. simpl. by rewrite IH, andb_assoc.
Qed.

Lemma split_free (d : ascii) (p : string) :
  free_of d p = true → split d p = [p].
Proof.
  induction p as [|c p IH]; [done |]. simpl.
  intros [Hc Hp]%andb_true_iff. apply negb_true_iff in Hc.
  by rewrite Hc, IH.
Qed.

Lemma split_first (d : ascii) (p q : string) :
  free_of d p = true → first (split d (p +:+ String d q)) = Some p.
Proof.
  induction p as [|c p IH]; intros H.
  - rewrite append_nil. simpl. by rewrite Ascii.eqb_refl.
  - rewrite append_cons. simpl in *.
    apply andb_true_iff in H as [Hc Hp]. apply negb_true_iff in Hc.
    rewrite Hc. specialize (IH Hp). unfold first in *.
    destruct (split d (p +:+ String d q)); [done |].
    simpl in *. by injection IH as ->.
Qed.

Lemma split_nonempty (d : ascii) (s : string) : split d s ≠ [].
Proof.
  induction s as [|c s IH]; [done |]. simpl.
  destruct (Ascii.eqb c d); [done |]. by destruct (split d s).
Qed.

Lemma split_two (d : ascii) (p e : string) :
  ∃ h h' t, split d (p +:+ String d e) = h :: h' :: t.
Proof.
  induction p as [|c p (h & h' & t & IH)].
  - rewrite append_nil. simpl. rewrite Ascii.eqb_refl.
    pose proof (split_nonempty d e).
    destruct (split d e) as [|h' t]; [done |]. by exists "", h', t.
  - rewrite append_cons. simpl. rewrite IH.
    destruct (Ascii.eqb c d); eauto.
Qed.

Lemma split_last (d : ascii) (p e : string) :
  free_of d e = true → pop (split d (p +:+ String d e)) = Some e.
Proof.
  intros He. unfold pop. induction p as [|c p IH].
  - rewrite append_nil. simpl. rewrite Ascii.eqb_refl, (split_free d e He).
    done.
  - rewrite append_cons. simpl.
    destruct (split_two d p e) as (h & h' & t & E). rewrite E in *.
    destruct (Ascii.eqb c d); by rewrite !last_cons_cons in *.
Qed.

(** Where the code is right: with a path free of [?], an extension free of
    [.] and of [?], and nothing or a query behind it, the result is the
    entry of the table for the extension, whatever its letter case. *)
Lemma detectMimeTypeFromUrl_query (p e q : string) :
  free_of "?" p = true → free_of "?" e = true → free_of "." e = true →
  q = "" ∨ (∃ r, q = String "?" r) →
  detectMimeTypeFromUrl (p +:+ String "." e +:+ q) = spec_mime (toLowerCase e).
Proof.
  intros Hp Hq He Hcase. unfold detectMimeTypeFromUrl.
  assert (first (split "?" (p +:+ String "." e +:+ q)) = Some (p +:+ String "." e))
    as ->.
  { destruct Hcase as [->|[r ->]].
    - assert (String "." e +:+ "" = String "." e) as ->.
      { clear. induction e as [|c e IH]; [done |].
        rewrite append_cons in *. injection IH as IH.
        by rewrite append_cons, IH. }
      rewrite split_free; [done |].
      rewrite free_of_append. simpl. by rewrite Hp, Hq.
    - rewrite <- append_assoc. apply split_first.
      rewrite free_of_append. simpl. by rewrite Hp, Hq. }
  cbn [or_empty]. rewrite (split_last "." p e He). cbn [or_empty].
  destruct (String.eqb_spec (p +:+ String "." e +:+ q) "") as [E|_]; [|done].
  destruct p; discriminate.
Qed.

Lemma split_first_app (d : ascii) (a b : string) :
  free_of d a = true →
  first (split d (a +:+ b)) = Some (a +:+ or_empty (first (split d b))).
Proof.
  induction a as [|c a IH]; intros H.
  - rewrite !append_nil. pose proof (split_nonempty d b).
    by destruct (split d b).
  - rewrite !append_cons. simpl in *.
    apply andb_true_iff in H as [Hc Ha]. apply negb_true_iff in Hc.
    rewrite Hc. specialize (IH Ha). unfold first in *.
    destruct (split d (a +:+ b)); [done |].
    simpl in *. by injection IH as ->.
Qed.

Lemma free_of_first (c d : ascii) (s : string) :
  free_of c s = true → free_of c (or_empty (first (split d s))) = true.
Proof.
  induction s as [|x s IH]; [done |]. simpl.
  intros [Hx Hs]%andb_true_iff. specialize (IH Hs).
  destruct (Ascii.eqb x d); [done |]. unfold first in *.
  pose proof (split_nonempty d s).
  destruct (split d s) as [|h t]; [done |]. simpl in *. by rewrite Hx, IH.
Qed.

Lemma lower_hash (c : ascii) : Ascii.eqb c "#" = true → lower c = "#"%char.
Proof. intros ->%Ascii.eqb_eq. reflexivity. Qed.

(** A string that holds [#] is not an entry of the table. *)
Lemma hash_no_entry (a b : string) :
  spec_mime (toLowerCase (a +:+ String "#" b)) = "".
Proof.
  assert (free_of "#" (toLowerCase (a +:+ String "#" b)) = false) as H.
  { induction a as [|c a IH]; [done |].
    rewrite append_cons. simpl. rewrite IH. apply andb_false_r. }
  unfold spec_mime.
  repeat match goal with
         | |- context [String.eqb ?s ?t] =>
             destruct (String.eqb_spec s t) as [E|_];
               [rewrite E in H; discriminate |]
         end.
  reflexivity.
Qed.

Lemma spec_path_cut (x f : string) :
  free_of "?" x = true → free_of "#" x = true →
  spec_path (x +:+ String "#" f) = x.
Proof.
  induction x as [|c x IH]; [done |].
  rewrite append_cons. simpl.
  intros [Hq Hx]%andb_true_iff [Hh Hx']%andb_true_iff.
  apply negb_true_iff in Hq, Hh. by rewrite Hq, Hh, IH.
Qed.

Lemma spec_extension_dot (p e : string) (f : string) :
  free_of "?" (p +:+ String "." e) = true →
  free_of "#" (p +:+ String "." e) = true →
  free_of "." e = true →
  spec_extension ((p +:+ String "." e) +:+ String "#" f) = toLowerCase e.
Proof.
  intros Hq Hh Hd. unfold spec_extension. rewrite spec_path_cut by done.
  pose proof (split_last "." p e Hd) as Hl. unfold pop in Hl.
  destruct (split_two "." p e) as (h & h' & t & E).
  rewrite E in *. by rewrite Hl.
Qed.

(** With a fragment behind the extension and no query before it, the
    lookup finds nothing. *)
Lemma detectMimeTypeFromUrl_hash (p e f : string) :
  free_of "?" p = true → free_of "?" e = true → free_of "." e = true →
  free_of "." f = true →
  detectMimeTypeFromUrl ((p +:+ String "." e) +:+ String "#" f) = "".
Proof.
  intros Hp He Hd Hf.
  set (f1 := or_empty (first (split "?" f))).
  assert (first (split "?" ((p +:+ String "." e) +:+ String "#" f))
          = Some (p +:+ String "." (e +:+ String "#" f1))) as Hcut.
  { replace ((p +:+ String "." e) +:+ String "#" f)
      with (((p +:+ String "." e) +:+ "#") +:+ f)
      by (by rewrite !append_assoc, ?append_cons, ?append_nil).
    rewrite split_first_app.
    - by rewrite !append_assoc, ?append_cons, ?append_nil.
    - rewrite !free_of_append. simpl. by rewrite Hp, He. }
  unfold detectMimeTypeFromUrl. rewrite Hcut. cbn [or_empty].
  rewrite (split_last "." p (e +:+ String "#" f1)).
  - cbn [or_empty].
    destruct (String.eqb_spec ((p +:+ String "." e) +:+ String "#" f) "")
      as [E|_]; [done |].
    apply (hash_no_entry e f1).
  - rewrite free_of_append. simpl. rewrite Hd. by apply free_of_first.
Qed.

(** C4.  The code cuts the URL at the first [?] only.  A fragment that
    follows the extension stays glued to it: the result is the empty string
    whatever the extension is, where the table gives the entry of the
    extension and where the same URL without the fragment gets that entry.
    ([p] is the path up to the last dot, [e] the extension, [f] the
    fragment.) *)
Theorem detectMimeTypeFromUrl_fragment (p e f : string) :
  free_of "?" p = true → free_of "#" p = true →
  free_of "?" e = true → free_of "#" e = true → free_of "." e = true →
  free_of "." f = true →
  let url := (p +:+ String "." e) +:+ String "#" f in
  detectMimeTypeFromUrl url = ""
  ∧ spec_mime (spec_extension url) = spec_mime (toLowerCase e)
  ∧ detectMimeTypeFromUrl (p +:+ String "." e) = spec_mime (toLowerCase e).
Proof.
  intros Hp Hp' He He' Hd Hf url. subst url. split; [|split].
  - set (f1 := or_empty (first (split "?" f))).
    assert (first (split "?" ((p +:+ String "." e) +:+ String "#" f))
            = Some (p +:+ String "." (e +:+ String "#" f1))) as Hcut.
    { replace ((p +:+ String "." e) +:+ String "#" f)
        with (((p +:+ String "." e) +:+ "#") +:+ f)
        by (by rewrite !append_assoc, ?append_cons, ?append_nil).
      rewrite split_first_app.
      - by rewrite !append_assoc, ?append_cons, ?append_nil.
      - rewrite !free_of_append. simpl. by rewrite Hp, He. }
    unfold detectMimeTypeFromUrl. rewrite Hcut. cbn [or_empty].
    rewrite (split_last "." p (e +:+ String "#" f1)).
    + cbn [or_empty].
      destruct (String.eqb_spec ((p +:+ String "." e) +:+ String "#" f) "")
        as [E|_]; [done |].
      apply (hash_no_entry e f1).
    + rewrite free_of_append. simpl. rewrite Hd. by apply free_of_first.
  - rewrite spec_extension_dot; [done | | | done];
      rewrite free_of_append; simpl; by rewrite ?Hp, ?He, ?Hp', ?He'.
  - pose proof (detectMimeTypeFromUrl_query p e "" Hp He Hd) as H.
    assert (String "." e +:+ "" = String "." e) as E.
    { clear. induction e as [|c e IH]; [done |].
      rewrite append_cons in *. injection IH as IH.
      by rewrite append_cons, IH. }
    rewrite E in H. apply H. by left.
Qed.

(** The theorem at [movie.mp4#t=10]. *)
Lemma detectMimeTypeFromUrl_fragment_witness :
  detectMimeTypeFromUrl "movie.mp4#t=10" = ""
  ∧ spec_mime (spec_extension "movie.mp4#t=10") = "video/mp4"
  ∧ detectMimeTypeFromUrl "movie.mp4" = "video/mp4".
Proof.
  apply (detectMimeTypeFromUrl_fragment "movie" "mp4" "t=10");
    reflexivity.
Defined.

End UrlFacts.

(* ===================================================================== *)
(** * The lazy flag *)
(* ===================================================================== *)

Module LazyFacts.
Import Js Dom Card.

(** C10.  Lazy mode is on exactly when [data-lazy] is the string [1] or the
    string [true], or the [lazyLoad] option is truthy.  Other spellings of
    the attribute do not turn it on, and no attribute value turns it off
    once the option is truthy. *)
Theorem lazy_flag_spec (lazyAttr : option string) (opts : Opts) :
  (lazy_flag lazyAttr opts = true ↔
     lazyAttr = Some "1" ∨ lazyAttr = Some "true"
     ∨ truthy (lazyLoad opts) = true)
  ∧ (truthy (lazyLoad opts) = false →
     lazy_flag (Some "TRUE") opts = false
     ∧ lazy_flag (Some "yes") opts = false
     ∧ lazy_flag (Some "0") opts = false
     ∧ lazy_flag (Some "") opts = false
     ∧ lazy_flag None opts = false)
  ∧ (truthy (lazyLoad opts) = true → lazy_flag lazyAttr opts = true).
Proof.
  unfold lazy_flag. split; [|split].
  - rewrite orb_true_iff. destruct lazyAttr as [s|].
    + rewrite orb_true_iff, !String.eqb_eq. split.
      * intros [[->| ->]|H]; eauto.
      * intros [[= ->]|[[= ->]|H]]; eauto.
    + split; [intros [?|?]; [done | right; by right] | intros [?|[?|?]]; [done | done | by right]].
  - intros ->. by vm_compute.
  - intros ->. by rewrite orb_true_r.
Qed.

(** The theorem at a card with [data-lazy="true"] and the default options. *)
Lemma lazy_flag_spec_witness :
  lazy_flag (Some "true") DEFAULTS = true
  ∧ lazy_flag (Some "TRUE") DEFAULTS = false.
Proof.
  destruct (lazy_flag_spec (Some "true") DEFAULTS) as ([_ Hon] & Hoff & _).
  split.
  - apply Hon. right. by left.
  - by apply Hoff.
Defined.

End LazyFacts.

(* ===================================================================== *)
(** * Printing and parsing integers *)
(* ===================================================================== *)

Module JsFacts.
Import Js.

Lemma digit_digit_char (d : Z) :
  (0 ≤ d ≤ 9)%Z → digit (digit_char d) = Some d.
Proof.
  intros Hd. unfold digit, digit_char.
  rewrite nat_ascii_embedding by lia.
  replace ((48 <=? 48 + Z.to_nat d) && (48 + Z.to_nat d <=? 57)) with true.
  - f_equal. lia.
  - symmetry. apply andb_true_iff. split; apply Nat.leb_le; lia.
Qed.

Lemma digits_one (a : option Z) (d : Z) (s : string) :
  (0 ≤ d ≤ 9)%Z →
  digits a (String (digit_char d) s) = digits (Some (10 * default 0%Z a + d)%Z) s.
Proof. intros Hd. cbn [digits]. by rewrite digit_digit_char. Qed.

Lemma decimal_fuel_S (f : nat) (n : Z) (acc : string) :
  decimal_fuel (S f) n acc =
  if (n <? 10)%Z then String (digit_char (n mod 10)) acc
  else decimal_fuel f (n / 10) (String (digit_char (n mod 10)) acc).
Proof. reflexivity. Qed.

Lemma digits_decimal_fuel (f : nat) (n : Z) (acc : string) :
  (0 ≤ n < 10 ^ Z.of_nat (S f))%Z →
  digits None (decimal_fuel (S f) n acc) = digits (Some n) acc.
Proof.
  revert n acc. induction f as [|f IH]; intros n acc Hn;
    rewrite decimal_fuel_S; destruct (Z.ltb_spec n 10) as [Hlt|Hge].
  - rewrite Z.mod_small, digits_one by lia.
    by replace (10 * default 0 None + n)%Z with n by (simpl; lia).
  - change (10 ^ Z.of_nat 1)%Z with 10%Z in Hn. lia.
  - rewrite Z.mod_small, digits_one by lia.
    by replace (10 * default 0 None + n)%Z with n by (simpl; lia).
  - rewrite IH.
    + rewrite digits_one by (pose proof (Z.mod_pos_bound n 10); lia).
      replace (10 * default 0 (Some (n / 10)) + n mod 10)%Z with n; [done |].
      simpl default. pose proof (Z.div_mod n 10). lia.
    + split; [apply Z.div_pos; lia |].
      apply Z.div_lt_upper_bound; [lia |].
      rewrite (Nat2Z.inj_succ (S f)), Z.pow_succ_r in Hn by lia. lia.
Qed.

Lemma decimal_bound (n : Z) :
  (0 ≤ n)%Z → (n < 10 ^ Z.of_nat (S (Z.to_nat (Z.log2 n))))%Z.
Proof.
  intros Hn. rewrite Nat2Z.inj_succ, Z2Nat.id by apply Z.log2_nonneg.
  destruct (Z.eq_dec n 0%Z) as [->|Hne]; [done |].
  pose proof (Z.log2_spec n ltac:(lia)) as [_ Hlt].
  eapply Z.lt_le_trans; [exact Hlt |].
  apply Z.pow_le_mono_l. lia.
Qed.

Lemma digits_decimal (n : Z) : (0 ≤ n)%Z → digits None (decimal n) = Some n.
Proof.
  intros Hn. unfold decimal. rewrite digits_decimal_fuel; [done |].
  split; [done | by apply decimal_bound].
Qed.

(** The first character of a decimal numeral is a digit. *)
Lemma decimal_fuel_head (f : nat) (n : Z) (acc : string) :
  ∃ d r, (0 ≤ d ≤ 9)%Z ∧ decimal_fuel (S f) n acc = String (digit_char d) r.
Proof.
  revert n acc. induction f as [|f IH]; intros n acc; rewrite decimal_fuel_S.
  - exists (n mod 10)%Z.
    pose proof (Z.mod_pos_bound n 10 ltac:(lia)).
    destruct (n <? 10)%Z; eexists; (split; [lia | done]).
  - destruct (n <? 10)%Z; [|apply IH].
    pose proof (Z.mod_pos_bound n 10 ltac:(lia)).
    exists (n mod 10)%Z. eexists; (split; [lia | done]).
Qed.

Lemma digit_char_plain (d : Z) :
  (0 ≤ d ≤ 9)%Z →
  is_space (digit_char d) = false
  ∧ digit_char d ≠ "-"%char ∧ digit_char d ≠ "+"%char.
Proof.
  intros Hd.
  assert (d = 0 ∨ d = 1 ∨ d = 2 ∨ d = 3 ∨ d = 4 ∨ d = 5 ∨ d = 6 ∨ d = 7
          ∨ d = 8 ∨ d = 9)%Z as H by lia.
  repeat destruct H as [->|H]; try subst d; by vm_compute.
Qed.

Lemma parseInt_decimal (n : Z) : (0 ≤ n)%Z → parseInt (decimal n) = Int n.
Proof.
  intros Hn. pose proof (digits_decimal n Hn) as Hd.
  unfold decimal in *.
  destruct (decimal_fuel_head (Z.to_nat (Z.log2 n)) n "") as (d & r & Hr & E).
  rewrite E in *. destruct (digit_char_plain d Hr) as (Hs & Hm & Hp).
  unfold parseInt. cbn [trim_start]. rewrite Hs.
  destruct (digit_char d) as [b0 b1 b2 b3 b4 b5 b6 b7] eqn:Ec.
  destruct b0, b1, b2, b3, b4, b5, b6, b7; try done;
    rewrite Hd; f_equal; lia.
Qed.

Lemma parseInt_minus_decimal (n : Z) :
  (0 ≤ n)%Z → parseInt (String "-" (decimal n)) = Int (- n).
Proof.
  intros Hn. unfold parseInt. cbn [trim_start].
  change (is_space "-") with false. cbv iota beta.
  rewrite (digits_decimal n Hn). f_equal; lia.
Qed.

(** Printing an integer below 10^21 and parsing it back gives the
    integer. *)
Lemma parseInt_val_int (z : Z) :
  (Z.abs z < 10 ^ 21)%Z → parseInt_val (VNum (Int z)) = Int z.
Proof.
  intros Hz. unfold parseInt_val, to_string, number_to_string.
  destruct (Z.ltb_spec (Z.abs z) (10 ^ 21)) as [_|?]; [|lia].
  destruct (Z.ltb_spec z 0).
  - rewrite parseInt_minus_decimal by lia. f_equal; lia.
  - rewrite parseInt_decimal by lia. f_equal; lia.
Qed.

End JsFacts.

(* ===================================================================== *)
(** * The adaptive-stream attacher *)
(* ===================================================================== *)

Module AttachFacts.
Import Js Url Dom Card Wording.

Ltac run_monad :=
  unfold exec, try_catch, set_src, can_play_hls, set_attr, emit, gets, lift,
    modify, mbind, mret, M_bind, M_ret in *;
  simpl in *.

(** Each way through [attachHls]: what it returns and the world it leaves. *)
Lemma attachHls_cases (host : Host) (v : nat) (src : string) (h : JsVal)
    (w : World) :
  attachHls host v src h w =
  (Returns tt,
   let w0 := with_trace (EvAttachHls v src h) w in
   let failed := with_trace (EvError "vd-card attachHls error:") in
   let native w0 :=
     match canPlayType host with
     | CanPlayThrows => failed w0
     | CanPlayMissing => with_trace (EvWarn "No HLS support in this browser.") w0
     | CanPlayReturns s =>
         if String.eqb s ""
         then with_trace (EvWarn "No HLS support in this browser.") w0
         else match src_setter host with
              | Returns _ =>
                  with_store (setAttribute v "src" src)
                    (with_trace (EvSetSrc v src) w0)
              | Throws => failed (with_trace (EvSetSrc v src) w0)
              end
     end in
   match Hls w with
   | HlsDefined lib =>
       match isSupported lib with
       | Throws => failed w0
       | Returns false => native w0
       | Returns true =>
           let w1 := with_trace EvHlsNew w0 in
           match construct lib with
           | Throws => failed w1
           | Returns _ =>
               let w2 :=
                 if hint_supplied h
                 then with_trace (EvHlsSet "autoLevelEnabled" (VBool false))
                        (with_trace
                           (EvHlsSet "startLevel" (VNum (parseInt_val h))) w1)
                 else w1 in
               let w3 := with_trace (EvHlsLoadSource src) w2 in
               match loadSource lib src with
               | Throws => failed w3
               | Returns _ =>
                   let w4 := with_trace (EvHlsAttachMedia v) w3 in
                   match attachMedia lib v with
                   | Throws => failed w4
                   | Returns _ => w4
                   end
               end
           end
       end
   | _ => native w0
   end).
Proof.
  unfold attachHls. run_monad.
  destruct (Hls w) as [| |lib]; simpl.
  1,2: destruct (canPlayType host) as [|s|]; simpl; try done;
       destruct (String.eqb s ""); simpl; try done;
       by destruct (src_setter host) as [[]|].
  destruct (isSupported lib) as [[|]|]; simpl; try done.
  - destruct (construct lib) as [[]|]; simpl; [|done].
    destruct (hint_supplied h); simpl;
      destruct (loadSource lib src) as [[]|]; simpl; try done;
      by destruct (attachMedia lib v) as [[]|].
  - destruct (canPlayType host) as [|s|]; simpl; try done.
    destruct (String.eqb s ""); simpl; try done.
    by destruct (src_setter host) as [[]|].
Qed.

Lemma hint_supplied_spec (h : JsVal) :
  hint_supplied h = true ↔ h ≠ VUndefined ∧ h ≠ VNull ∧ h ≠ VNum NaN.
Proof.
  destruct h as [| |b|[|z]|s]; simpl; split; try done;
    intros (? & ? & ?); done.
Qed.

(** C7.  With the library present, supporting the browser and
    instantiated: the decoder gets [startLevel] and [autoLevelEnabled]
    exactly when the hint is neither undefined, nor null, nor NaN; the
    level is [parseInt] of the hint, the hint itself when it is an integer;
    both assignments precede [loadSource], and nothing is assigned after
    it. *)
Theorem attachHls_hint (host : Host) (v : nat) (src : string) (h : JsVal)
    (w : World) (lib : HlsLib) :
  Hls w = HlsDefined lib →
  isSupported lib = Returns true →
  construct lib = Returns tt →
  let w' := exec (attachHls host v src h) w in
  (∃ rest,
      emitted w w'
        ([EvAttachHls v src h; EvHlsNew]
           ++ (if hint_supplied h then pin_level (parseInt_val h) else [])
           ++ EvHlsLoadSource src :: rest)
      ∧ (∀ p x, EvHlsSet p x ∉ rest)
      ∧ (loadSource lib src = Returns tt → attachMedia lib v = Returns tt →
         rest = [EvHlsAttachMedia v]))
  ∧ (hint_supplied h = true ↔ h ≠ VUndefined ∧ h ≠ VNull ∧ h ≠ VNum NaN)
  ∧ (∀ z, (Z.abs z < 10 ^ 21)%Z → h = VNum (Int z) →
       hint_supplied h = true ∧ parseInt_val h = Int z).
Proof.
  intros Hg Hs Hc w'. split; [|split].
  - subst w'. unfold exec, emitted. rewrite attachHls_cases.
    cbn [snd]. rewrite Hg, Hs, Hc. cbv zeta.
    destruct (loadSource lib src) as [[]|] eqn:Hl;
      [destruct (attachMedia lib v) as [[]|] eqn:Ha|];
      destruct (hint_supplied h); simpl; rewrite <- ?app_assoc; simpl;
      eexists; (split; [reflexivity |]);
      (split; [intros p x; rewrite ?elem_of_cons, elem_of_nil; intuition discriminate
              | done]).
  - apply hint_supplied_spec.
  - intros z Hz ->. split; [done |]. by apply JsFacts.parseInt_val_int.
Qed.

(** The theorem at a card with [data-startlevel="2"] and hls.js loaded. *)
Lemma attachHls_hint_witness :
  ∃ rest,
    emitted (Samples.page [] (HlsDefined Samples.hls_js))
      (exec (attachHls Samples.chrome 5 "s.m3u8" (VNum (Int 2)))
         (Samples.page [] (HlsDefined Samples.hls_js)))
      ([EvAttachHls 5 "s.m3u8" (VNum (Int 2)); EvHlsNew]
         ++ pin_level (Int 2) ++ EvHlsLoadSource "s.m3u8" :: rest).
Proof.
  destruct (attachHls_hint Samples.chrome 5 "s.m3u8" (VNum (Int 2))
              (Samples.page [] (HlsDefined Samples.hls_js)) Samples.hls_js
              eq_refl eq_refl eq_refl) as ((rest & H & _) & _ & _).
  exists rest. exact H.
Defined.

(** C8.  [attachHls] returns normally whatever the library and the host do.
    When neither path applies it warns and leaves the DOM alone; when the
    support query, the constructor, [loadSource], [attachMedia], the
    capability query or the assignment of [src] throws, the error is logged
    and nothing more is done. *)
Theorem attachHls_no_exception (host : Host) (v : nat) (src : string)
    (h : JsVal) (w : World) :
  let w' := exec (attachHls host v src h) w in
  let pin := if hint_supplied h then pin_level (parseInt_val h) else [] in
  (attachHls host v src h w).1 = Returns tt
  ∧ (decoder_declines (Hls w) → native_declines host →
       store w' = store w ∧ emitted w w' [EvAttachHls v src h; no_support])
  ∧ (∀ lib, Hls w = HlsDefined lib → isSupported lib = Throws →
       store w' = store w ∧ emitted w w' [EvAttachHls v src h; attach_error])
  ∧ (∀ lib, Hls w = HlsDefined lib → isSupported lib = Returns true →
       store w' = store w
       ∧ (construct lib = Throws →
            emitted w w' [EvAttachHls v src h; EvHlsNew; attach_error])
       ∧ (construct lib = Returns tt → loadSource lib src = Throws →
            emitted w w'
              ([EvAttachHls v src h; EvHlsNew] ++ pin
                 ++ [EvHlsLoadSource src; attach_error]))
       ∧ (construct lib = Returns tt → loadSource lib src = Returns tt →
          attachMedia lib v = Throws →
            emitted w w'
              ([EvAttachHls v src h; EvHlsNew] ++ pin
                 ++ [EvHlsLoadSource src; EvHlsAttachMedia v; attach_error])))
  ∧ (decoder_declines (Hls w) → canPlayType host = CanPlayThrows →
       store w' = store w ∧ emitted w w' [EvAttachHls v src h; attach_error])
  ∧ (∀ answer, decoder_declines (Hls w) →
       canPlayType host = CanPlayReturns answer → answer ≠ "" →
       src_setter host = Throws →
       store w' = store w
       ∧ emitted w w' [EvAttachHls v src h; EvSetSrc v src; attach_error]).
Proof.
  intros w' pin. subst w' pin.
  unfold exec, emitted, decoder_declines, native_declines.
  rewrite attachHls_cases. cbn [fst snd]. cbv zeta.
  split; [done |].
  destruct (Hls w) as [| |lib0]; repeat split; intros; simplify_eq;
    repeat match goal with
           | H : _ ∨ _ |- _ => destruct H
           | H : _ ≠ "" |- _ => apply String.eqb_neq in H
           | H : ?x = _ |- context [?x] => rewrite H
           end;
    simpl; rewrite <- ?app_assoc; try done.
  - destruct (construct lib) as [[]|]; [|done].
    destruct (loadSource lib src) as [[]|];
      [destruct (attachMedia lib v) as [[]|]|];
      by destruct (hint_supplied h).
  - destruct (hint_supplied h); simpl; by rewrite <- !app_assoc.
  - destruct (hint_supplied h); simpl; by rewrite <- !app_assoc.
Qed.

(** The theorem on a host whose capability query throws, and on a library
    whose [loadSource] throws. *)
Lemma attachHls_no_exception_witness :
  emitted (Samples.page [] HlsUndefined)
    (exec (attachHls Samples.broken_host 5 "s.m3u8" VNull)
       (Samples.page [] HlsUndefined))
    [EvAttachHls 5 "s.m3u8" VNull; attach_error]
  ∧ emitted (Samples.page [] (HlsDefined Samples.hls_js_failing))
      (exec (attachHls Samples.chrome 5 "s.m3u8" VNull)
         (Samples.page [] (HlsDefined Samples.hls_js_failing)))
      [EvAttachHls 5 "s.m3u8" VNull; EvHlsNew; EvHlsLoadSource "s.m3u8";
       attach_error].
Proof.
  split.
  - destruct (attachHls_no_exception Samples.broken_host 5 "s.m3u8" VNull
                (Samples.page [] HlsUndefined))
      as (_ & _ & _ & _ & Hq & _).
    by apply Hq.
  - destruct (attachHls_no_exception Samples.chrome 5 "s.m3u8" VNull
                (Samples.page [] (HlsDefined Samples.hls_js_failing)))
      as (_ & _ & _ & Hd & _).
    destruct (Hd Samples.hls_js_failing eq_refl eq_refl) as (_ & _ & Hl & _).
    by apply Hl.
Defined.

End AttachFacts.

(* ===================================================================== *)
(** * Running the script on a symbolic world *)
(* ===================================================================== *)

Module DomFacts.
Import Js Url Dom Card Wording.

(** Unfold the script and the monad in [E] and compute on the world. *)
Ltac munfold E :=
  unfold exec, initOne, buildPlayer, attachEager, injectCard, onPlayClick,
    click_loaded, eager_loaded, loadScript,
    createPosterOverlay, attachDirectFile, try_play, Hls_undefined,
    createElement, append, remove, alloc, get_attr,
    try_catch, set_src, can_play_hls, set_attr, emit, gets, lift,
    modify, mbind, mret, M_bind, M_ret in E;
  cbn [store next trace doc_head document Hls with_store with_trace with_Hls
       fst snd falsy_str or_empty negb remove_children length] in E.

(** Look a key up through the updates of a store. *)
Ltac lookup_norm :=
  unfold appendChild, setAttribute, detach, clear;
  repeat first
    [ rewrite lookup_fmap
    | rewrite lookup_alter_eq
    | rewrite lookup_alter_ne by lia
    | rewrite lookup_insert_eq
    | rewrite lookup_insert_ne by lia ].

Lemma eqb_empty_refl : String.eqb "" "" = true.
Proof. reflexivity. Qed.

(** One step of symbolic execution in [E]: compute, or settle a test on an
    empty string, or read the (empty) child list of a node just created. *)
Ltac mstep E :=
  first
    [ progress munfold E
    | progress rewrite ?eqb_empty_refl in E
    | match type of E with
      | context [node_children ?d ?v] =>
          replace (node_children d v) with (@nil nat) in E
            by (unfold node_children; lookup_norm; reflexivity)
      | context [if negb (String.eqb ?s "") then _ else _] =>
          destruct (String.eqb s "") eqn:?
      | context [if (String.eqb ?s "") then _ else _] =>
          destruct (String.eqb s "") eqn:?
      end ].

Lemma remove_id_nil (c : nat) : remove_id c [] = [].
Proof. reflexivity. Qed.

Lemma remove_id_cons_ne (c x : nat) (l : list nat) :
  x ≠ c → remove_id c (x :: l) = x :: remove_id c l.
Proof. intros H. unfold remove_id. by rewrite filter_cons_True. Qed.

Lemma remove_id_cons_eq (c : nat) (l : list nat) :
  remove_id c (c :: l) = remove_id c l.
Proof. unfold remove_id. rewrite filter_cons_False; [done | by intros H]. Qed.

Lemma remove_id_length (c : nat) (l : list nat) :
  length (remove_id c l) ≤ length l.
Proof. apply length_filter. Qed.

(** Compute a field of a node found by [lookup_norm]. *)
Ltac node_norm :=
  lookup_norm;
  cbn [fmap option_fmap option_map tag children attrs listeners onload onerror
       with_children with_attrs with_innerHTML with_backgroundImage
       with_listener with_onload with_onerror new_node app];
  repeat first
    [ rewrite remove_id_nil
    | rewrite remove_id_cons_eq
    | rewrite remove_id_cons_ne by lia
    | progress cbn [app] ].

(** ** Nodes out of the tree *)

Lemma absent_detach_same (c : nat) (d : Store) : absent c (detach c d).
Proof.
  intros p. unfold node_children, detach. rewrite lookup_fmap.
  destruct (d !! p) as [n|]; simpl; [|apply not_elem_of_nil].
  unfold remove_id. rewrite list_elem_of_filter. by intros [H _].
Qed.

Lemma absent_alter (c : nat) (f : Node → Node) (i : nat) (d : Store) :
  (∀ n, c ∉ children n → c ∉ children (f n)) →
  absent c d → absent c (alter f i d).
Proof.
  intros Hf Hd p. specialize (Hd p). unfold node_children in *.
  rewrite lookup_alter. case_decide; [subst|done].
  destruct (d !! p); simpl in *; [by apply Hf | done].
Qed.

Lemma absent_insert (c i : nat) (n : Node) (d : Store) :
  c ∉ children n → absent c d → absent c (<[i:=n]> d).
Proof.
  intros Hn Hd p. specialize (Hd p). unfold node_children in *.
  rewrite lookup_insert. by case_decide.
Qed.

Lemma absent_detach (c c' : nat) (d : Store) :
  absent c d → absent c (detach c' d).
Proof.
  intros Hd p. specialize (Hd p). unfold node_children, detach in *.
  rewrite lookup_fmap. destruct (d !! p) as [n|]; simpl in *; [|done].
  unfold remove_id. rewrite list_elem_of_filter. by intros [_ H].
Qed.

Lemma absent_appendChild (c p x : nat) (d : Store) :
  x ≠ c → absent c d → absent c (appendChild p x d).
Proof.
  intros Hx Hd. apply absent_alter; [|by apply absent_detach].
  intros n Hn. simpl. rewrite elem_of_app, list_elem_of_singleton.
  intros [H|H]; [done | by subst].
Qed.

Lemma absent_setAttribute (c i : nat) (k v : string) (d : Store) :
  absent c d → absent c (setAttribute i k v d).
Proof. by apply absent_alter. Qed.

Lemma absent_clear (c p : nat) (d : Store) : absent c d → absent c (clear p d).
Proof. apply absent_alter. intros n _. simpl. apply not_elem_of_nil. Qed.

Ltac absent_solve :=
  repeat first
    [ apply absent_detach_same
    | apply absent_setAttribute
    | apply absent_clear
    | apply absent_appendChild; [lia |]
    | apply absent_insert; [apply not_elem_of_nil |]
    | apply absent_alter; [by intros [] |] ].

(** ** Counting attachment calls *)

Lemma attach_calls_app (a b : list Event) :
  attach_calls (a ++ b) = attach_calls a + attach_calls b.
Proof. unfold attach_calls. by rewrite List.filter_app, length_app. Qed.

Lemma attach_calls_removes (l : list nat) : attach_calls (EvRemove <$> l) = 0.
Proof. induction l as [|c l IH]; [done | exact IH]. Qed.

(** ** The loop that empties the video element *)

Lemma node_children_detach (c : nat) (d : Store) (j : nat) :
  node_children (detach c d) j = remove_id c (node_children d j).
Proof.
  unfold node_children, detach. rewrite lookup_fmap.
  by destruct (d !! j).
Qed.

Lemma getAttribute_detach (c : nat) (d : Store) (j : nat) (k : string) :
  getAttribute (detach c d) j k = getAttribute d j k.
Proof.
  unfold getAttribute, detach. rewrite lookup_fmap. by destruct (d !! j).
Qed.

Lemma node_listeners_detach (c : nat) (d : Store) (j : nat) :
  node_listeners (detach c d) j = node_listeners d j.
Proof.
  unfold node_listeners, detach. rewrite lookup_fmap. by destruct (d !! j).
Qed.

Lemma remove_children_spec (fuel v : nat) (w : World) :
  length (node_children (store w) v) ≤ fuel →
  ∃ w' removed,
    remove_children fuel v w = (Returns tt, w')
    ∧ trace w' = trace w ++ (EvRemove <$> removed)
    ∧ next w' = next w ∧ doc_head w' = doc_head w ∧ Hls w' = Hls w
    ∧ node_children (store w') v = []
    ∧ (∀ j, is_Some (store w' !! j) ↔ is_Some (store w !! j))
    ∧ (∀ j k, getAttribute (store w') j k = getAttribute (store w) j k)
    ∧ (∀ j, node_listeners (store w') j = node_listeners (store w) j)
    ∧ (∀ c, absent c (store w) → absent c (store w')).
Proof.
  revert w. induction fuel as [|fuel IH]; intros w Hlen.
  - exists w, []. simpl. rewrite app_nil_r.
    destruct (node_children (store w) v); [done | simpl in Hlen; lia].
  - cbn [remove_children].
    unfold remove, gets, emit, modify.
    unfold mbind, mret, M_bind, M_ret. cbv beta iota.
    destruct (node_children (store w) v) as [|c rest] eqn:Hcs.
    { exists w, []. simpl. by rewrite app_nil_r. }
    set (w1 := with_store (detach c) (with_trace (EvRemove c) w)).
    destruct (IH w1) as (w' & removed & Hrun & Htr & Hn & Hh & Hg & Hv & Hs & Ha & Hl & Hab).
    { subst w1. cbn [store with_store with_trace].
      rewrite node_children_detach, Hcs, remove_id_cons_eq.
      pose proof (remove_id_length c rest). simpl in Hlen. lia. }
    exists w', (c :: removed). rewrite Hrun.
    subst w1. cbn [store with_store with_trace trace next doc_head Hls] in *.
    repeat split; try done.
    + by rewrite Htr, <- app_assoc.
    + rewrite Hs. unfold detach. rewrite lookup_fmap, fmap_is_Some. done.
    + rewrite Hs. unfold detach. rewrite lookup_fmap, fmap_is_Some. done.
    + intros j k. by rewrite Ha, getAttribute_detach.
    + intros j. by rewrite Hl, node_listeners_detach.
    + intros c' Hc'. by apply Hab, absent_detach.
Qed.


(** ** What the two attachers do to a world *)

Lemma attachHls_effect (host : Host) (v : nat) (src : string) (h : JsVal)
    (w : World) :
  ∃ w' evs,
    attachHls host v src h w = (Returns tt, w')
    ∧ trace w' = trace w ++ EvAttachHls v src h :: evs
    ∧ attach_calls evs = 0
    ∧ next w' = next w ∧ doc_head w' = doc_head w ∧ Hls w' = Hls w
    ∧ (store w' = store w ∨ store w' = setAttribute v "src" src (store w)).
Proof.
  rewrite AttachFacts.attachHls_cases. cbv zeta.
  assert (∀ (w1 : World),
            (∃ evs, trace w1 = trace w ++ EvAttachHls v src h :: evs
                    ∧ attach_calls evs = 0) →
            next w1 = next w → doc_head w1 = doc_head w → Hls w1 = Hls w →
            (store w1 = store w
             ∨ store w1 = setAttribute v "src" src (store w)) →
            ∃ w' evs, (Returns tt, w1) = (Returns tt, w')
              ∧ trace w' = trace w ++ EvAttachHls v src h :: evs
              ∧ attach_calls evs = 0 ∧ next w' = next w
              ∧ doc_head w' = doc_head w ∧ Hls w' = Hls w
              ∧ (store w' = store w
                 ∨ store w' = setAttribute v "src" src (store w))) as Hpack.
  { intros w1 (evs & Ht & Hc) ????. by exists w1, evs. }
  assert (∀ evs : list Event,
            (trace w ++ [EvAttachHls v src h]) ++ evs
            = trace w ++ EvAttachHls v src h :: evs) as Hsnoc.
  { intros evs. by rewrite <- app_assoc. }
  apply Hpack; clear Hpack;
    destruct (Hls w) as [| |lib] eqn:Hg;
    try destruct (isSupported lib) as [[|]|];
    try destruct (construct lib) as [[]|];
    try destruct (loadSource lib src) as [[]|];
    try destruct (attachMedia lib v) as [[]|];
    try destruct (hint_supplied h);
    try destruct (canPlayType host) as [|s|];
    try destruct (String.eqb s "");
    try destruct (src_setter host) as [[]|];
    cbn [store next trace doc_head Hls with_store with_trace];
    try done; try (by left); try (by right);
    rewrite <- ?app_assoc; cbn [app]; eexists; (split; [reflexivity | done]).
Qed.

Lemma assoc_set_eq (k v : string) (l : list (string * string)) :
  assoc k (assoc_set k v l) = Some v.
Proof.
  induction l as [|[k' v'] l IH]; simpl.
  - by rewrite String.eqb_refl.
  - destruct (String.eqb k' k) eqn:E; simpl.
    + by rewrite String.eqb_refl.
    + by rewrite E.
Qed.

Lemma assoc_set_ne (k k' v : string) (l : list (string * string)) :
  k ≠ k' → assoc k' (assoc_set k v l) = assoc k' l.
Proof.
  intros Hne. induction l as [|[k0 v0] l IH]; simpl.
  - by apply String.eqb_neq in Hne as ->.
  - destruct (String.eqb k0 k) eqn:E; simpl.
    + apply String.eqb_eq in E as ->.
      by apply String.eqb_neq in Hne as ->.
    + by rewrite IH.
Qed.

Lemma attachDirectFile_effect (host : Host) (v : nat) (src : string)
    (w : World) :
  ∃ w' evs,
    attachDirectFile host v src w = (Returns tt, w')
    ∧ trace w' = trace w ++ EvAttachDirectFile v src :: evs
    ∧ attach_calls evs = 0
    ∧ next w' = S (next w) ∧ doc_head w' = doc_head w ∧ Hls w' = Hls w
    ∧ (is_Some (store w !! v) → v ≠ next w →
       node_children (store w') v = [next w]
       ∧ tag <$> store w' !! next w = Some "source"
       ∧ getAttribute (store w') (next w) "src" = Some src
       ∧ getAttribute (store w') (next w) "type"
         = (if String.eqb (detectMimeTypeFromUrl src) "" then None
            else Some (detectMimeTypeFromUrl src))
       ∧ (src_setter host = Returns tt →
          getAttribute (store w') v "src" = Some src)).
Proof.
  destruct (attachDirectFile host v src w) as [o w'] eqn:E.
  set (mime := detectMimeTypeFromUrl src) in *.
  munfold E. change (detectMimeTypeFromUrl src) with mime in E. clearbody mime.
  destruct (remove_children_spec (length (node_children (store w) v)) v
              (with_trace (EvAttachDirectFile v src) w))
    as (w1 & removed & Hrun & Htr & Hn & Hh & Hg & Hv & Hs & Ha & Hl & Hab);
    [done |].
  cbn [store next trace doc_head Hls with_store with_trace] in *.
  rewrite Hrun in E.
  exists w', ((EvRemove <$> removed)
              ++ [EvCreate (next w) "source"; EvAppend v (next w);
                  EvSetSrc v src]).
  rewrite attach_calls_app, attach_calls_removes.
  assert (is_Some (store w !! v) →
          ∃ nv, store w1 !! v = Some nv ∧ children nv = []) as Hnode.
  { intros [nv Hnv]%Hs. exists nv. split; [done |].
    unfold node_children in Hv. by rewrite Hnv in Hv. }
  destruct (String.eqb mime "") eqn:Hm, (src_setter host) as [[]|] eqn:Hset;
    repeat mstep E; injection E as <- <-;
    cbn [store next trace doc_head Hls with_store with_trace];
    rewrite Htr, Hn, Hh, Hg, <- !app_assoc; cbn [app];
    (repeat split; try done); intros;
    match goal with
    | H : is_Some (store w !! v) |- _ =>
        destruct (Hnode H) as (nv & Hnv & Hcs)
    end;
    unfold node_children, getAttribute; node_norm;
    rewrite ?Hnv; node_norm; rewrite ?Hcs; node_norm;
    rewrite ?assoc_set_eq; reflexivity.
Qed.

(** ** The click listener and the completion callbacks *)

Lemma try_play_run (host : Host) (v : nat) (w : World) :
  try_play host v w = (Returns tt, with_trace (EvPlay v) w).
Proof.
  unfold try_play, try_catch, emit, lift, mbind, mret, M_bind, M_ret.
  by destruct (play host) as [[]|].
Qed.

Lemma bind_run {A B} (m : M A) (k : A → M B) (w w1 : World) (a : A) :
  m w = (Returns a, w1) → (m ≫= k) w = k a w1.
Proof. intros H. unfold mbind, M_bind. by rewrite H. Qed.

(** The end of every path that attaches and then reveals the player:
    [overlay.remove()] and [video.play()]. *)
Lemma reveal_run (host : Host) (video overlay : nat) (w : World) :
  (remove overlay;; try_play host video) w
  = (Returns tt,
     with_trace (EvPlay video)
       (with_store (detach overlay) (with_trace (EvRemove overlay) w))).
Proof.
  unfold remove, emit, modify, mbind, mret, M_bind, M_ret. cbv beta iota.
  by rewrite try_play_run.
Qed.

Lemma onPlayClick_direct (host : Host) (video overlay : nat) (src : string)
    (sl : JsVal) (cdn : string) (w : World) :
  isHlsSource src = false →
  ∃ w' pre,
    onPlayClick host video overlay src sl cdn w = (Returns tt, w')
    ∧ trace w' = trace w ++ EvAttachDirectFile video src :: pre
                   ++ [EvRemove overlay; EvPlay video]
    ∧ attach_calls pre = 0
    ∧ absent overlay (store w').
Proof.
  intros Hd. unfold onPlayClick. rewrite Hd.
  destruct (attachDirectFile_effect host video src w)
    as (w1 & pre & Hrun & Htr & Hc & _).
  rewrite (bind_run _ _ _ _ _ Hrun).
  eexists _, pre. split; [apply reveal_run |].
  cbn [store trace with_store with_trace]. rewrite Htr, <- !app_assoc.
  split; [reflexivity |]. split; [done |]. apply absent_detach_same.
Qed.

Lemma onPlayClick_hls_sync (host : Host) (video overlay : nat) (src : string)
    (sl : JsVal) (cdn : string) (w : World) :
  isHlsSource src = true → Hls w ≠ HlsUndefined →
  ∃ w' pre,
    onPlayClick host video overlay src sl cdn w = (Returns tt, w')
    ∧ trace w' = trace w ++ EvAttachHls video src sl :: pre
                   ++ [EvRemove overlay; EvPlay video]
    ∧ attach_calls pre = 0
    ∧ absent overlay (store w').
Proof.
  intros Hd Hg. unfold onPlayClick. rewrite Hd.
  assert (Hls_undefined w = (Returns false, w)) as Hu.
  { unfold Hls_undefined, gets. by destruct (Hls w). }
  rewrite (bind_run _ _ _ _ _ Hu).
  destruct (attachHls_effect host video src sl w)
    as (w1 & pre & Hrun & Htr & Hc & _).
  rewrite (bind_run _ _ _ _ _ Hrun).
  eexists _, pre. split; [apply reveal_run |].
  cbn [store trace with_store with_trace]. rewrite Htr, <- !app_assoc.
  split; [reflexivity |]. split; [done |]. apply absent_detach_same.
Qed.

Lemma loadScript_run (src : string) (cb : option Callback) (w : World) :
  loadScript src cb w
  = (Returns tt,
     {| store := with_script src cb w; next := S (next w);
        document := document w; doc_head := doc_head w; Hls := Hls w;
        trace := trace w ++ [EvCreate (next w) "script";
                             EvAppend (doc_head w) (next w)] |}).
Proof.
  destruct w as [d n doc hd g t].
  unfold loadScript, createElement, append, alloc, set_attr, emit, gets, modify,
    mbind, mret, M_bind, M_ret, with_script.
  cbv beta iota delta
    [store next trace doc_head document Hls with_store with_trace].
  by rewrite <- app_assoc.
Qed.

Lemma with_script_handlers (src : string) (cb : option Callback)
    (w : World) :
  ∃ n, with_script src cb w !! next w = Some n
       ∧ onload n = Some (ScriptOnload cb)
       ∧ onerror n = Some (ScriptOnerror src cb).
Proof.
  unfold with_script, appendChild. rewrite lookup_alter.
  case_decide as Hd; [rewrite Hd|]; lookup_norm;
    cbn [fmap option_fmap option_map].
  all: eexists; (split; [reflexivity | done]).
Qed.

Lemma elem_children_appendChild (d : Store) (p q c x : nat) :
  x ≠ c → x ∈ node_children d p → x ∈ node_children (appendChild q c d) p.
Proof.
  intros Hx. unfold appendChild, node_children, detach.
  rewrite lookup_alter. case_decide as Hq; [subst q|]; rewrite lookup_fmap;
    destruct (d !! p) as [n|]; cbn [fmap option_fmap option_map children with_children];
    try done; intros Hin; rewrite ?elem_of_app; [left|];
    unfold remove_id; rewrite list_elem_of_filter; by split.
Qed.

(** A node that is not the script keeps its place under its parent. *)
Lemma with_script_child (src : string) (cb : option Callback) (w : World)
    (p c : nat) :
  c ≠ next w → p ≠ next w → c ∈ node_children (store w) p →
  c ∈ node_children (with_script src cb w) p.
Proof.
  intros Hc Hp Hin. unfold with_script.
  apply elem_children_appendChild; [done |].
  unfold node_children in *. by lookup_norm.
Qed.

Lemma onPlayClick_hls_async (host : Host) (video overlay : nat)
    (src : string) (sl : JsVal) (cdn : string) (w : World) :
  isHlsSource src = true → Hls w = HlsUndefined →
  onPlayClick host video overlay src sl cdn w
  = (Returns tt,
     {| store := with_script cdn (Some (CbClick video overlay src sl)) w;
        next := S (next w);
        document := document w; doc_head := doc_head w; Hls := Hls w;
        trace := trace w ++ [EvCreate (next w) "script";
                             EvAppend (doc_head w) (next w)] |}).
Proof.
  intros Hd Hg. unfold onPlayClick. rewrite Hd.
  assert (Hls_undefined w = (Returns true, w)) as Hu.
  { unfold Hls_undefined, gets. by rewrite Hg. }
  rewrite (bind_run _ _ _ _ _ Hu). apply loadScript_run.
Qed.

(** The completion callback of the click path, after a successful load. *)
Lemma click_loaded_ok (host : Host) (video overlay : nat) (src : string)
    (sl : JsVal) (w : World) :
  ∃ w' pre,
    click_loaded host video overlay src sl false w = (Returns tt, w')
    ∧ trace w' = trace w ++ EvAttachHls video src sl :: pre
                   ++ [EvRemove overlay; EvPlay video]
    ∧ attach_calls pre = 0
    ∧ absent overlay (store w').
Proof.
  unfold click_loaded.
  destruct (attachHls_effect host video src sl w)
    as (w1 & pre & Hrun & Htr & Hc & _).
  rewrite (bind_run _ _ _ _ _ Hrun).
  eexists _, pre. split; [apply reveal_run |].
  cbn [store trace with_store with_trace]. rewrite Htr, <- !app_assoc.
  split; [reflexivity |]. split; [done |]. apply absent_detach_same.
Qed.

(** The same callback after a failed load: [attachHls] is not called. *)
Lemma click_loaded_failed (host : Host) (video overlay : nat) (src : string)
    (sl : JsVal) (w : World) :
  ∃ o w' evs,
    click_loaded host video overlay src sl true w = (o, w')
    ∧ trace w' = trace w ++ evs
    ∧ attach_calls evs = 0
    ∧ (fallback_safe host →
       o = Returns tt ∧ absent overlay (store w')
       ∧ ∃ pre, evs = pre ++ [EvRemove overlay; EvPlay video])
    ∧ (¬ fallback_safe host → o = Throws ∧ store w' = store w).
Proof.
  destruct (click_loaded host video overlay src sl true w) as [o w'] eqn:E.
  exists o, w'. unfold fallback_safe, native_declines.
  munfold E.
  destruct (canPlayType host) as [|s|] eqn:Hcp;
    [|destruct (String.eqb_spec s "") as [->|Hs]|];
    [| |destruct (src_setter host) as [[]|] eqn:Hset|];
    repeat munfold E; try destruct (play host) as [[]|];
    injection E as <- <-;
    cbn [store trace with_store with_trace]; rewrite <- ?app_assoc;
    eexists; (split; [reflexivity |]); (split; [reflexivity |]);
    (split; [reflexivity |]);
    (split; [intros Hsafe | intros Hn]);
    first
      [ split; [reflexivity |];
        split; [apply absent_detach_same |];
        first [ eexists [_]; reflexivity | eexists [_; _]; reflexivity ]
      | exfalso; destruct Hsafe as [[?|?]|(? & ? & ?)]; congruence
      | by split
      | exfalso; apply Hn;
        first [ left; left; reflexivity | left; right; reflexivity
              | right; eexists; split; reflexivity ] ].
Qed.

(** ** Delivering an event to a single handler *)

Lemma deliver_click (host : Host) (t : nat) (h : Handler) (w : World) :
  node_listeners (store w) t = [h] →
  deliver host (Click t) w = dispatch host h w.
Proof. intros H. unfold deliver. by rewrite H. Qed.

Lemma deliver_loaded (host : Host) (s : nat) (g : HlsGlobal) (w : World)
    (n : Node) (h : Handler) :
  store w !! s = Some n → onload n = Some h →
  deliver host (ScriptLoaded s g) w = dispatch host h (with_Hls g w).
Proof.
  intros Hn Hh. unfold deliver. cbn [store with_Hls]. by rewrite Hn, Hh.
Qed.

Lemma deliver_failed (host : Host) (s : nat) (w : World) (n : Node)
    (h : Handler) :
  store w !! s = Some n → onerror n = Some h →
  deliver host (ScriptFailed s) w = dispatch host h w.
Proof. intros Hn Hh. unfold deliver. by rewrite Hn, Hh. Qed.

(** ** Initialisation in lazy mode *)

Lemma initOne_lazy (host : Host) (card : nat) (opts : Opts) (w : World)
    (src : string) :
  getAttribute (store w) card "data-src" = Some src →
  src ≠ "" →
  lazy_flag (getAttribute (store w) card "data-lazy") opts = true →
  card < next w →
  let w1 := exec (initOne host card opts) w in
  let wrapper := next w in
  let video := S wrapper in
  let overlay := S video in
  let head := S (S overlay) in
  getAttribute (store w1) video "src" = None
  ∧ node_children (store w1) video = []
  ∧ node_children (store w1) wrapper = [video; overlay]
  ∧ node_children (store w1) card = [head; wrapper]
  ∧ node_listeners (store w1) overlay
    = [OnPlayClick video overlay src
         (start_level (getAttribute (store w) card "data-startlevel"))
         (hlsCdn opts)]
  ∧ trace w1
    = trace w ++ [EvCreate wrapper "div"; EvCreate video "video";
                  EvAppend wrapper video; EvCreate overlay "div";
                  EvCreate (S overlay) "div"; EvAppend overlay (S overlay);
                  EvAppend wrapper overlay; EvClear card;
                  EvCreate head "div"; EvAppend card head;
                  EvAppend card wrapper]
  ∧ next w1 = S head ∧ doc_head w1 = doc_head w ∧ Hls w1 = Hls w.
Proof.
  intros Hsrc Hne%String.eqb_neq Hlazy Hcard.
  intros w1 wrapper video overlay head. subst wrapper video overlay head.
  assert (∃ n, store w !! card = Some n) as [n Hn].
  { unfold getAttribute in Hsrc. destruct (store w !! card); [eauto | done]. }
  remember w1 as w' eqn:E. subst w1.
  munfold E. rewrite Hsrc in E. munfold E. rewrite Hne, Hlazy in E.
  generalize dependent (attr_or_text (store w) card "data-title" "vd-title").
  generalize dependent (attr_or_text (store w) card "data-desc" "vd-desc").
  generalize dependent
    (start_level (getAttribute (store w) card "data-startlevel")).
  generalize dependent (or_empty (getAttribute (store w) card "data-poster")).
  intros poster sl desc title E.
  repeat mstep E.
  all: subst w'; cbn [store next trace doc_head Hls with_store with_trace];
    unfold getAttribute, node_children, node_listeners.
  all: repeat split;
    try (node_norm; rewrite ?Hn; node_norm; reflexivity);
    try (by rewrite <- !app_assoc).
Qed.

Lemma attach_calls_cons (e : Event) (l : list Event) :
  attach_calls (e :: l)
  = (if is_attach_call e then 1 else 0) + attach_calls l.
Proof. unfold attach_calls. simpl. by destruct (is_attach_call e). Qed.

(** The attributes of a node other than the new script. *)
Lemma getAttribute_with_script (src : string) (cb : option Callback)
    (w : World) (j : nat) (k : string) :
  j ≠ next w →
  getAttribute (with_script src cb w) j k = getAttribute (store w) j k.
Proof.
  intros Hj. unfold with_script, getAttribute, appendChild.
  rewrite lookup_alter. case_decide; subst; lookup_norm.
  all: by destruct (store w !! _).
Qed.

Lemma getAttribute_is_Some (d : Store) (i : nat) (k x : string) :
  getAttribute d i k = Some x → is_Some (d !! i).
Proof. unfold getAttribute. by destruct (d !! i); [eauto |]. Qed.

(** The [onerror] handler of the script requested by a click, as the event
    loop runs it: what becomes of [src] and of the overlay. *)
Lemma dispatch_click_failed (host : Host) (video overlay : nat)
    (src : string) (sl : JsVal) (cdn : string) (w : World) :
  let w' := dispatch host
              (ScriptOnerror cdn (Some (CbClick video overlay src sl))) w in
  ∃ evs,
    trace w' = trace w ++ evs
    ∧ attach_calls evs = 0
    ∧ (fallback_safe host → absent overlay (store w'))
    ∧ (¬ fallback_safe host → store w' = store w)
    ∧ (native_declines host →
       (EvSetSrc video src ∉ evs)
       ∧ getAttribute (store w') video "src"
         = getAttribute (store w) video "src")
    ∧ (∀ s, canPlayType host = CanPlayReturns s → s ≠ "" →
         EvSetSrc video src ∈ evs
         ∧ (src_setter host = Returns tt → is_Some (store w !! video) →
            getAttribute (store w') video "src" = Some src)).
Proof.
  cbv zeta. unfold dispatch, run_handler, run_callback.
  destruct (click_loaded host video overlay src sl true w) as [o w'] eqn:E.
  unfold fallback_safe, native_declines.
  munfold E.
  destruct (canPlayType host) as [|s|] eqn:Hcp;
    [|destruct (String.eqb_spec s "") as [->|Hs]|];
    [| |destruct (src_setter host) as [[]|] eqn:Hset|];
    repeat munfold E; try destruct (play host) as [[]|];
    injection E as <- <-;
    cbn [store trace with_store with_trace]; rewrite <- ?app_assoc;
    eexists; (split; [reflexivity |]); (split; [reflexivity |]);
    cbn [app].
  all: split; [intros Hsafe; try apply absent_detach_same;
               exfalso; destruct Hsafe as [[?|?]|(? & ? & ?)]; congruence |].
  all: split; [intros Hn; try reflexivity; exfalso; apply Hn;
               first [ left; left; reflexivity | left; right; reflexivity
                     | right; eexists; split; reflexivity ] |].
  all: split; [intros [?|?]; try congruence; rewrite getAttribute_detach;
               (split; [| reflexivity]);
               rewrite ?elem_of_cons, elem_of_nil; intuition discriminate |].
  all: intros s' [= <-] Hs'; try done.
  all: split; [rewrite !elem_of_cons; auto |].
  all: intros Hret [nd Hnd]; try discriminate Hret.
  all: rewrite getAttribute_detach; unfold getAttribute, setAttribute.
  all: rewrite lookup_alter_eq, Hnd; cbn; apply assoc_set_eq.
Qed.

(** In lazy mode the video element is built with [preload="none"]. *)
Lemma initOne_lazy_preload (host : Host) (card : nat) (opts : Opts)
    (w : World) (src : string) :
  getAttribute (store w) card "data-src" = Some src →
  src ≠ "" →
  lazy_flag (getAttribute (store w) card "data-lazy") opts = true →
  card < next w →
  getAttribute (store (exec (initOne host card opts) w)) (S (next w))
    "preload" = Some "none".
Proof.
  intros Hsrc Hne%String.eqb_neq Hlazy Hcard.
  assert (∃ n, store w !! card = Some n) as [n Hn].
  { unfold getAttribute in Hsrc. destruct (store w !! card); [eauto | done]. }
  remember (exec (initOne host card opts) w) as w' eqn:E.
  munfold E. rewrite Hsrc in E. munfold E. rewrite Hne, Hlazy in E.
  generalize dependent (attr_or_text (store w) card "data-title" "vd-title").
  generalize dependent (attr_or_text (store w) card "data-desc" "vd-desc").
  generalize dependent
    (start_level (getAttribute (store w) card "data-startlevel")).
  generalize dependent (or_empty (getAttribute (store w) card "data-poster")).
  intros poster sl desc title E.
  repeat mstep E.
  all: subst w'; cbn [store next trace doc_head Hls with_store with_trace];
    unfold getAttribute.
  all: node_norm; rewrite ?Hn; node_norm; reflexivity.
Qed.

(** C2, as amended.  In lazy mode, after initialisation the video element
    has no [src] and no child, the overlay sits in the wrapper of the card
    and no attachment has been attempted.  One click on the overlay then
    calls exactly one attacher and removes the overlay when the source is a
    direct file or when [window.Hls] is already defined.  With an
    adaptive-stream source and [window.Hls] undefined the click only
    requests the decoder script and the overlay stays; once the script has
    loaded, [attachHls] is called once and the overlay is removed; when the
    script fails to load no attacher is called: the URL is assigned to the
    [src] of the video element when [canPlayType] answers with a non-empty
    string, and not otherwise, and the overlay is removed unless that
    fallback throws, in which case it stays in the wrapper and the video
    element is left without [src]. *)
Theorem lazy_init_then_click (host : Host) (card : nat) (opts : Opts)
    (w : World) (src : string) :
  getAttribute (store w) card "data-src" = Some src →
  src ≠ "" →
  lazy_flag (getAttribute (store w) card "data-lazy") opts = true →
  card < next w →
  let w1 := exec (initOne host card opts) w in
  let wrapper := next w in
  let video := S wrapper in
  let overlay := S video in
  let head := S (S overlay) in
  let script := S head in
  let sl := start_level (getAttribute (store w) card "data-startlevel") in
  let w2 := deliver host (Click overlay) w1 in
  (getAttribute (store w1) video "src" = None
   ∧ node_children (store w1) video = []
   ∧ node_children (store w1) wrapper = [video; overlay]
   ∧ node_children (store w1) card = [head; wrapper]
   ∧ ∃ evs, emitted w w1 evs ∧ attach_calls evs = 0)
  ∧ (isHlsSource src = false →
     ∃ evs, emitted w1 w2 evs ∧ attach_calls evs = 1
            ∧ EvAttachDirectFile video src ∈ evs
            ∧ absent overlay (store w2))
  ∧ (isHlsSource src = true → Hls w ≠ HlsUndefined →
     ∃ evs, emitted w1 w2 evs ∧ attach_calls evs = 1
            ∧ EvAttachHls video src sl ∈ evs
            ∧ absent overlay (store w2))
  ∧ (isHlsSource src = true → Hls w = HlsUndefined →
     emitted w1 w2 [EvCreate script "script"; EvAppend (doc_head w) script]
     ∧ overlay ∈ node_children (store w2) wrapper
     ∧ (∀ g, ∃ evs,
          emitted w2 (deliver host (ScriptLoaded script g) w2) evs
          ∧ attach_calls evs = 1
          ∧ EvAttachHls video src sl ∈ evs
          ∧ absent overlay (store (deliver host (ScriptLoaded script g) w2)))
     ∧ (∃ evs,
          emitted w2 (deliver host (ScriptFailed script) w2) evs
          ∧ attach_calls evs = 0
          ∧ (fallback_safe host →
             absent overlay (store (deliver host (ScriptFailed script) w2)))
          ∧ (¬ fallback_safe host →
             overlay
             ∈ node_children
                 (store (deliver host (ScriptFailed script) w2)) wrapper
             ∧ getAttribute
                 (store (deliver host (ScriptFailed script) w2)) video "src"
               = None)
          ∧ (native_declines host →
             (EvSetSrc video src ∉ evs)
             ∧ getAttribute
                 (store (deliver host (ScriptFailed script) w2)) video "src"
               = None)
          ∧ (∀ s, canPlayType host = CanPlayReturns s → s ≠ "" →
               EvSetSrc video src ∈ evs
               ∧ (src_setter host = Returns tt →
                  getAttribute
                    (store (deliver host (ScriptFailed script) w2)) video
                    "src" = Some src)))).
Proof.
  intros Hsrc Hne Hlazy Hcard w1 wrapper video overlay head script sl w2.
  destruct (initOne_lazy host card opts w src Hsrc Hne Hlazy Hcard)
    as (Hvs & Hvc & Hwc & Hcc & Hl & Htr & Hnext & Hhead & Hg).
  pose proof (initOne_lazy_preload host card opts w src Hsrc Hne Hlazy Hcard)
    as Hpre.
  fold w1 wrapper video overlay head sl in Hvs, Hvc, Hwc, Hcc, Hl, Htr, Hnext, Hhead, Hg, Hpre.
  assert (w2 = dispatch host
                 (OnPlayClick video overlay src sl (hlsCdn opts)) w1) as Hw2.
  { subst w2. by apply deliver_click. }
  clearbody w2. clearbody w1. unfold emitted.
  split; [|split; [|split]].
  - repeat split; try done. eexists. split; [exact Htr | done].
  - intros Hd.
    destruct (onPlayClick_direct host video overlay src sl (hlsCdn opts) w1 Hd)
      as (w' & pre & Hrun & Ht & Hc & Hab).
    unfold dispatch, run_handler in Hw2. rewrite Hrun in Hw2. subst w2.
    eexists. split; [exact Ht |].
    rewrite attach_calls_cons, attach_calls_app, Hc.
    split; [done |]. split; [apply list_elem_of_here | done].
  - intros Hd Hdef. rewrite <- Hg in Hdef.
    destruct (onPlayClick_hls_sync host video overlay src sl (hlsCdn opts) w1
                Hd Hdef) as (w' & pre & Hrun & Ht & Hc & Hab).
    unfold dispatch, run_handler in Hw2. rewrite Hrun in Hw2. subst w2.
    eexists. split; [exact Ht |].
    rewrite attach_calls_cons, attach_calls_app, Hc.
    split; [done |]. split; [apply list_elem_of_here | done].
  - intros Hd Hundef. rewrite <- Hg in Hundef.
    unfold dispatch, run_handler in Hw2.
    rewrite (onPlayClick_hls_async _ _ _ _ _ _ _ Hd Hundef) in Hw2.
    set (cb := Some (CbClick video overlay src sl)) in *.
    destruct (with_script_handlers (hlsCdn opts) cb w1)
      as (n & Hlook & Hon & Herr).
    assert (overlay ∈ node_children (with_script (hlsCdn opts) cb w1) wrapper)
      as Hin.
    { apply with_script_child; [lia | lia |]. rewrite Hwc.
      apply list_elem_of_further, list_elem_of_here. }
    assert (∀ k, getAttribute (with_script (hlsCdn opts) cb w1) video k
                 = getAttribute (store w1) video k) as Hattr.
    { intros k. apply getAttribute_with_script. lia. }
    subst w2. cbn [store trace]. rewrite Hnext, Hhead in *.
    split; [done |]. split; [exact Hin |].
    split.
    + intros g. erewrite deliver_loaded; [|exact Hlook | exact Hon].
      unfold dispatch, run_handler, cb, run_callback.
      match goal with |- context [click_loaded host video overlay src sl false ?W] =>
        destruct (click_loaded_ok host video overlay src sl W)
          as (w' & pre & Hrun & Ht & Hc & Hab) end.
      rewrite Hrun. eexists. split; [exact Ht |].
      rewrite attach_calls_cons, attach_calls_app, Hc.
      split; [done |]. split; [apply list_elem_of_here | done].
    + erewrite deliver_failed; [|exact Hlook | exact Herr].
      match goal with |- context [dispatch host _ ?W] =>
        destruct (dispatch_click_failed host video overlay src sl
                    (hlsCdn opts) W)
          as (evs & Ht & Hc & Hsafe & Hunsafe & Hdecl & Hnat) end.
      unfold cb in *. cbn [store trace] in *.
      exists evs. split; [exact Ht |]. split; [exact Hc |].
      split; [exact Hsafe |].
      split; [| split].
      * intros Hn. rewrite (Hunsafe Hn). by rewrite Hattr.
      * intros Hn. destruct (Hdecl Hn) as [Hno Hsame].
        split; [exact Hno |]. by rewrite Hsame, Hattr.
      * intros s Hcp Hs. destruct (Hnat s Hcp Hs) as [Hset Hval].
        split; [exact Hset |]. intros Hret. apply Hval; [exact Hret |].
        apply (getAttribute_is_Some _ _ "preload" "none").
        by rewrite Hattr.
Qed.

(** The theorem on a page with one lazy card for [movie.mp4]: the click
    attaches the file once. *)
Lemma lazy_init_then_click_witness :
  getAttribute
    (store (exec (initOne Samples.chrome 3 DEFAULTS)
              (Samples.page [("data-src", "movie.mp4"); ("data-lazy", "1")]
                 HlsUndefined))) 5 "src" = None
  ∧ ∃ evs,
      emitted
        (exec (initOne Samples.chrome 3 DEFAULTS)
           (Samples.page [("data-src", "movie.mp4"); ("data-lazy", "1")]
              HlsUndefined))
        (deliver Samples.chrome (Click 6)
           (exec (initOne Samples.chrome 3 DEFAULTS)
              (Samples.page [("data-src", "movie.mp4"); ("data-lazy", "1")]
                 HlsUndefined))) evs
      ∧ attach_calls evs = 1.
Proof.
  destruct (lazy_init_then_click Samples.chrome 3 DEFAULTS
              (Samples.page [("data-src", "movie.mp4"); ("data-lazy", "1")]
                 HlsUndefined) "movie.mp4")
    as ((Hsrc & _) & Hdirect & _);
    [by vm_compute | done | by vm_compute | simpl; lia |].
  split; [exact Hsrc |].
  destruct Hdirect as (evs & Hev & Hn & _); [by vm_compute |].
  exists evs. split; [exact Hev | exact Hn].
Defined.

(** C2, the sentence as written: a lazy card for [stream.m3u8] on a page
    where [window.Hls] is undefined.  After the click no attacher has been
    called and the overlay is still in the wrapper; when the decoder script
    then fails to load, on a host without native support, the overlay goes
    and the video element is left without [src] and without child: no
    attacher was ever called. *)
Lemma lazy_click_without_attachment :
  let w1 := exec (initAll Samples.chrome None)
              (Samples.page [("data-src", "stream.m3u8"); ("data-lazy", "1")]
                 HlsUndefined) in
  let w2 := run Samples.chrome [Click 6] w1 in
  let w3 := run Samples.chrome [Click 6; ScriptFailed 9] w1 in
  isHlsSource "stream.m3u8" = true
  ∧ node_listeners (store w1) 6
    = [OnPlayClick 5 6 "stream.m3u8" VNull (hlsCdn DEFAULTS)]
  ∧ attach_calls (trace w2) = 0
  ∧ node_children (store w2) 4 = [5; 6]
  ∧ attach_calls (trace w3) = 0
  ∧ node_children (store w3) 4 = [5]
  ∧ getAttribute (store w3) 5 "src" = None
  ∧ node_children (store w3) 5 = [].
Proof. vm_compute. repeat split. Qed.

(** ** The trace only grows *)

Create HintDb extends.

Lemma extends_ret {A} (a : A) : extends (mret a : M A).
Proof. intros w. exists []. by rewrite app_nil_r. Qed.

Lemma extends_bind {A B} (m : M A) (k : A → M B) :
  extends m → (∀ a, extends (k a)) → extends (m ≫= k).
Proof.
  intros Hm Hk w. destruct (Hm w) as [e1 H1].
  unfold mbind, M_bind. destruct (m w) as [[a|] w1]; simpl in *.
  - destruct (Hk a w1) as [e2 H2]. exists (e1 ++ e2).
    by rewrite H2, H1, app_assoc.
  - by exists e1.
Qed.

Lemma extends_try {A} (m h : M A) :
  extends m → extends h → extends (try_catch m h).
Proof.
  intros Hm Hh w. destruct (Hm w) as [e1 H1].
  unfold try_catch. destruct (m w) as [[a|] w1]; simpl in *.
  - by exists e1.
  - destruct (Hh w1) as [e2 H2]. exists (e1 ++ e2).
    by rewrite H2, H1, app_assoc.
Qed.

Lemma extends_emit (e : Event) : extends (emit e).
Proof. intros w. by exists [e]. Qed.

Lemma extends_modify (f : Store → Store) : extends (modify f).
Proof. intros w. exists []. by rewrite app_nil_r. Qed.

Lemma extends_gets {A} (f : World → A) : extends (gets f).
Proof. intros w. exists []. by rewrite app_nil_r. Qed.

Lemma extends_lift {A} (o : Outcome A) : extends (lift o).
Proof. intros w. exists []. by rewrite app_nil_r. Qed.

Lemma extends_alloc : extends alloc.
Proof. intros w. exists []. by rewrite app_nil_r. Qed.

Lemma extends_if {A} (b : bool) (m1 m2 : M A) :
  extends m1 → extends m2 → extends (if b then m1 else m2).
Proof. by destruct b. Qed.

#[local] Hint Resolve extends_ret extends_emit extends_modify extends_gets
  extends_lift extends_alloc : extends.

(** Decompose a computation along its binds and tests. *)
Ltac extends_auto :=
  repeat first
    [ solve [auto with extends]
    | apply extends_ret
    | apply extends_bind; [| intros ?]
    | apply extends_try
    | apply extends_if
    | match goal with
      | |- extends (match ?x with _ => _ end) => destruct x
      end ].

Lemma extends_createElement (t : string) : extends (createElement t).
Proof. unfold createElement. extends_auto. Qed.

Lemma extends_append (p c : nat) : extends (append p c).
Proof. unfold append. extends_auto. Qed.

Lemma extends_remove (c : nat) : extends (remove c).
Proof. unfold remove. extends_auto. Qed.

Lemma extends_set_attr (i : nat) (k v : string) : extends (set_attr i k v).
Proof. unfold set_attr. extends_auto. Qed.

Lemma extends_get_attr (i : nat) (k : string) : extends (get_attr i k).
Proof. unfold get_attr. extends_auto. Qed.

#[local] Hint Resolve extends_createElement extends_append extends_remove
  extends_set_attr extends_get_attr : extends.

Lemma extends_set_src (host : Host) (v : nat) (url : string) :
  extends (set_src host v url).
Proof. unfold set_src. extends_auto. Qed.

Lemma extends_can_play_hls (host : Host) : extends (can_play_hls host).
Proof. unfold can_play_hls. extends_auto. Qed.

Lemma extends_try_play (host : Host) (v : nat) : extends (try_play host v).
Proof. unfold try_play. extends_auto. Qed.

#[local] Hint Resolve extends_set_src extends_can_play_hls extends_try_play
  : extends.

Lemma extends_attachHls (host : Host) (v : nat) (src : string) (h : JsVal) :
  extends (attachHls host v src h).
Proof. unfold attachHls. extends_auto. Qed.

Lemma extends_remove_children (fuel v : nat) :
  extends (remove_children fuel v).
Proof. induction fuel; cbn [remove_children]; extends_auto. Qed.

#[local] Hint Resolve extends_attachHls extends_remove_children : extends.

Lemma extends_attachDirectFile (host : Host) (v : nat) (src : string) :
  extends (attachDirectFile host v src).
Proof. unfold attachDirectFile. extends_auto. Qed.

Lemma extends_loadScript (src : string) (cb : option Callback) :
  extends (loadScript src cb).
Proof. unfold loadScript. extends_auto. Qed.

Lemma extends_Hls_undefined : extends Hls_undefined.
Proof. unfold Hls_undefined. extends_auto. Qed.

#[local] Hint Resolve extends_attachDirectFile extends_loadScript
  extends_Hls_undefined : extends.

Lemma extends_attachEager (host : Host) (opts : Opts) (video overlay : nat)
    (src poster : string) (sl : JsVal) :
  extends (attachEager host opts video overlay src poster sl).
Proof. unfold attachEager. extends_auto. Qed.

Lemma extends_injectCard (card wrapper : nat) (title desc : string) :
  extends (injectCard card wrapper title desc).
Proof. unfold injectCard. extends_auto. Qed.

(** ** The order of construction and attachment *)

Lemma buildPlayer_run (opts : Opts) (src poster : string) (lazy : bool)
    (sl : JsVal) (w : World) :
  ∃ w', buildPlayer opts src poster lazy sl w
        = (Returns (next w, S (next w), S (S (next w))), w')
        ∧ trace w' = trace w ++ build_events (next w).
Proof.
  destruct (buildPlayer opts src poster lazy sl w) as [o w'] eqn:E.
  exists w'. unfold build_events.
  munfold E. repeat mstep E; injection E as <- <-;
    (split; [reflexivity |]);
    cbn [trace with_store with_trace]; by rewrite <- !app_assoc.
Qed.

#[local] Hint Resolve extends_attachEager extends_injectCard : extends.


(** ** A node the script leaves alone *)

Create HintDb keeps.

Section Frame.
Context {e : nat} {x : option Node} {n hd : nat}.
Hypothesis He : e < n.
Hypothesis Hx : ∀ nd, x = Some nd → Forall (λ c, c < n) (children nd).
Hypothesis Hhd : hd ≠ e.

#[local] Abbreviation I := (frame e x n hd).
#[local] Abbreviation SI := (store_frame e x n).

(** *** Updates of the store *)

Lemma with_children_id (f : list nat → list nat) (nd : Node) :
  f (children nd) = children nd → with_children f nd = nd.
Proof. destruct nd. unfold with_children. cbn. intros H. by rewrite H. Qed.

Lemma remove_id_fresh (c : nat) (l : list nat) :
  Forall (λ y, y < n) l → n ≤ c → remove_id c l = l.
Proof.
  intros Hl Hc. induction Hl as [|y l Hy _ IH]; [done |].
  rewrite remove_id_cons_ne by lia. by rewrite IH.
Qed.

Lemma remove_id_Forall (P : nat → Prop) (c : nat) (l : list nat) :
  Forall P l → Forall P (remove_id c l).
Proof.
  rewrite !Forall_forall. intros H y Hy. apply H.
  unfold remove_id in Hy. by apply list_elem_of_filter in Hy as [_ Hy].
Qed.

Lemma SI_insert (id : nat) (t : string) (d : Store) :
  n ≤ id → SI d → SI (<[id:=new_node t]> d).
Proof.
  intros Hid [Hd Hf]. split.
  - rewrite lookup_insert_ne by lia. done.
  - intros i nd Hi. rewrite lookup_insert. case_decide.
    + intros [= <-]. constructor.
    + by apply Hf.
Qed.

Lemma SI_alter (f : Node → Node) (i : nat) (d : Store) :
  i ≠ e → (∀ nd, children (f nd) = children nd) → SI d → SI (alter f i d).
Proof.
  intros Hi Hc [Hd Hf]. split.
  - by rewrite lookup_alter_ne.
  - intros j nd Hj. rewrite lookup_alter. case_decide; [subst j|by apply Hf].
    destruct (d !! i) as [nd0|] eqn:E; [|done].
    intros [= <-]. rewrite Hc. by apply (Hf i).
Qed.

Lemma SI_detach (c : nat) (d : Store) : n ≤ c → SI d → SI (detach c d).
Proof.
  intros Hc [Hd Hf]. unfold detach. split.
  - rewrite lookup_fmap, Hd. destruct x as [nd|]; [|done]. simpl.
    f_equal. apply with_children_id, remove_id_fresh; [by apply Hx | done].
  - intros j nd Hj. rewrite lookup_fmap.
    destruct (d !! j) as [nd0|] eqn:E; [|done].
    intros [= <-]. simpl. apply remove_id_Forall. by apply (Hf j).
Qed.

Lemma SI_appendChild (p c : nat) (d : Store) :
  p ≠ e → n ≤ c → SI d → SI (appendChild p c d).
Proof.
  intros Hp Hc Hd. apply (SI_detach c) in Hd as [Hd Hf]; [|done].
  unfold appendChild. split.
  - by rewrite lookup_alter_ne.
  - intros j nd Hj. rewrite lookup_alter. case_decide; [subst j|by apply Hf].
    destruct (detach c d !! p) as [nd0|] eqn:E; [|done].
    intros [= <-]. simpl. apply Forall_app. split; [by apply (Hf p) |].
    by repeat constructor.
Qed.

Lemma SI_clear (p : nat) (d : Store) : p ≠ e → SI d → SI (clear p d).
Proof.
  intros Hp [Hd Hf]. unfold clear. split.
  - by rewrite lookup_alter_ne.
  - intros j nd Hj. rewrite lookup_alter. case_decide; [subst j|by apply Hf].
    destruct (d !! p) as [nd0|] eqn:E; [|done].
    intros [= <-]. constructor.
Qed.

Lemma SI_setAttribute (i : nat) (k v : string) (d : Store) :
  i ≠ e → SI d → SI (setAttribute i k v d).
Proof. intros Hi. by apply SI_alter. Qed.

(** *** The rules *)

Lemma keeps_ret {A} (a : A) (Q : A → Prop) : Q a → keeps I (mret a) Q.
Proof. by intros Ha w Hw. Qed.

Lemma keeps_bind {A B} (m : M A) (k : A → M B) (Q : A → Prop)
    (R : B → Prop) :
  keeps I m Q → (∀ a, Q a → keeps I (k a) R) → keeps I (m ≫= k) R.
Proof.
  intros Hm Hk w Hw. destruct (Hm w Hw) as [H1 Ha].
  unfold mbind, M_bind. destruct (m w) as [[a|] w1]; simpl in *.
  - by apply Hk.
  - done.
Qed.

Lemma keeps_weaken {A} (m : M A) (Q R : A → Prop) :
  (∀ a, Q a → R a) → keeps I m Q → keeps I m R.
Proof.
  intros HQR Hm w Hw. destruct (Hm w Hw) as [H1 Ha]. split; [done |].
  destruct (m w).1; [by apply HQR | done].
Qed.

Lemma keeps_try {A} (m h : M A) (Q : A → Prop) :
  keeps I m Q → keeps I h Q → keeps I (try_catch m h) Q.
Proof.
  intros Hm Hh w Hw. destruct (Hm w Hw) as [H1 Ha].
  unfold try_catch. destruct (m w) as [[a|] w1]; simpl in *; [done |].
  by apply Hh.
Qed.

Lemma keeps_emit (ev : Event) : keeps I (emit ev) (λ _, True).
Proof. by intros w Hw. Qed.

Lemma keeps_lift {A} (o : Outcome A) : keeps I (lift o) (λ _, True).
Proof. intros w Hw. split; [done | by destruct o]. Qed.

Lemma keeps_gets {A} (f : World → A) (Q : A → Prop) :
  (∀ w, I w → Q (f w)) → keeps I (gets f) Q.
Proof. intros HQ w Hw. split; [done | by apply HQ]. Qed.

Lemma keeps_alloc : keeps I alloc (λ id, n ≤ id).
Proof.
  intros w (Hs & Hn & Hh). unfold frame, alloc. cbn.
  split; [split; [done | split; [lia | done]] | lia].
Qed.

Lemma keeps_modify (f : Store → Store) :
  (∀ d, SI d → SI (f d)) → keeps I (modify f) (λ _, True).
Proof.
  intros Hf w (Hs & Hn & Hh). unfold frame, modify. cbn.
  split; [split; [by apply Hf | done] | done].
Qed.

Lemma keeps_if {A} (b : bool) (m1 m2 : M A) (Q : A → Prop) :
  keeps I m1 Q → keeps I m2 Q → keeps I (if b then m1 else m2) Q.
Proof. by destruct b. Qed.

Lemma keeps_unit (Q : unit → Prop) : keeps I (mret tt) (λ _, True).
Proof. by apply keeps_ret. Qed.

(** *** The operations of the script *)

#[local] Hint Resolve keeps_emit keeps_lift keeps_alloc keeps_unit : keeps.
#[local] Hint Extern 1 (_ ≤ _) => cbv beta in *; lia : keeps.
#[local] Hint Extern 1 (_ ≠ _) => cbv beta in *; lia : keeps.
#[local] Hint Extern 1 (_ ≠ _) => congruence : keeps.

(** One bind, one test or one store update at a time. *)
Ltac keeps_auto :=
  repeat first
    [ solve [eauto with keeps]
    | simple apply keeps_ret; exact Logic.I
    | simple apply (keeps_ret _ (λ _, True)); exact Logic.I
    | eapply keeps_bind; [| intros ? ?; cbv beta zeta in *]
    | apply keeps_try
    | apply keeps_if
    | apply keeps_modify; intros ? ?
    | simple apply (keeps_gets _ (λ _, True)); intros ? ?; exact Logic.I
    | apply SI_insert; [solve [eauto with keeps] |]
    | apply SI_setAttribute; [solve [eauto with keeps] |]
    | apply SI_appendChild; [solve [eauto with keeps] .. |]
    | apply SI_detach; [solve [eauto with keeps] |]
    | apply SI_clear; [solve [eauto with keeps] |]
    | apply SI_alter; [solve [eauto with keeps] | by intros [] |]
    | match goal with
      | |- keeps _ (match ?y with _ => _ end) _ => destruct y
      end ].

Lemma keeps_createElement (t : string) :
  keeps I (createElement t) (λ id, n ≤ id).
Proof.
  unfold createElement.
  eapply keeps_bind; [apply keeps_alloc |]. intros id Hid.
  eapply keeps_bind; [| intros ? ?].
  { apply keeps_modify. intros d. by apply SI_insert. }
  eapply keeps_bind; [apply keeps_emit | intros ? ?].
  by apply keeps_ret.
Qed.

Lemma keeps_append (p c : nat) :
  p ≠ e → n ≤ c → keeps I (append p c) (λ _, True).
Proof. intros Hp Hc. unfold append. keeps_auto. Qed.

Lemma keeps_remove (c : nat) : n ≤ c → keeps I (remove c) (λ _, True).
Proof. intros Hc. unfold remove. keeps_auto. Qed.

Lemma keeps_set_attr (i : nat) (k v : string) :
  i ≠ e → keeps I (set_attr i k v) (λ _, True).
Proof. intros Hi. unfold set_attr. keeps_auto. Qed.

Lemma keeps_get_attr (i : nat) (k : string) :
  keeps I (get_attr i k)
    (λ a, i = e → a = match x with
                      | Some nd => assoc k (attrs nd)
                      | None => None
                      end).
Proof.
  unfold get_attr. apply keeps_gets. intros w ((Hd & _) & _) ->.
  unfold getAttribute. by rewrite Hd.
Qed.

#[local] Hint Resolve keeps_createElement keeps_append keeps_remove
  keeps_set_attr : keeps.

Lemma keeps_set_src (host : Host) (v : nat) (url : string) :
  v ≠ e → keeps I (set_src host v url) (λ _, True).
Proof. intros Hv. unfold set_src. keeps_auto. Qed.

Lemma keeps_can_play_hls (host : Host) :
  keeps I (can_play_hls host) (λ _, True).
Proof. unfold can_play_hls. keeps_auto. Qed.

Lemma keeps_try_play (host : Host) (v : nat) :
  keeps I (try_play host v) (λ _, True).
Proof. unfold try_play. keeps_auto. Qed.

#[local] Hint Resolve keeps_set_src keeps_can_play_hls keeps_try_play
  : keeps.

Lemma keeps_attachHls (host : Host) (v : nat) (src : string) (h : JsVal) :
  v ≠ e → keeps I (attachHls host v src h) (λ _, True).
Proof. intros Hv. unfold attachHls. keeps_auto. Qed.

Lemma keeps_remove_children (fuel v : nat) :
  n ≤ v → keeps I (remove_children fuel v) (λ _, True).
Proof.
  intros Hv. induction fuel as [|fuel IH]; cbn [remove_children].
  { by apply keeps_ret. }
  apply (keeps_bind _ _ (Forall (λ c, n ≤ c))).
  - apply keeps_gets. intros w ((_ & Hf) & _). unfold node_children.
    destruct (store w !! v) as [nd|] eqn:E; [by apply (Hf v) | constructor].
  - intros [|c cs] Hcs; [by apply keeps_ret |].
    apply Forall_cons in Hcs as [Hc _]. keeps_auto.
Qed.

#[local] Hint Resolve keeps_attachHls keeps_remove_children : keeps.

Lemma keeps_attachDirectFile (host : Host) (v : nat) (src : string) :
  n ≤ v → keeps I (attachDirectFile host v src) (λ _, True).
Proof. intros Hv. unfold attachDirectFile. keeps_auto. Qed.

Lemma keeps_loadScript (src : string) (cb : option Callback) :
  keeps I (loadScript src cb) (λ _, True).
Proof.
  unfold loadScript.
  eapply keeps_bind; [apply keeps_createElement |]. intros s Hs.
  do 4 (eapply keeps_bind; [solve [keeps_auto] | intros ? ?]).
  apply (keeps_bind _ _ (λ h, h = hd)).
  - apply keeps_gets. by intros w (_ & _ & ?).
  - intros h ->. keeps_auto.
Qed.

Lemma keeps_createPosterOverlay (poster : string) (onClick : nat → Handler) :
  keeps I (createPosterOverlay poster onClick) (λ id, n ≤ id).
Proof.
  unfold createPosterOverlay.
  eapply keeps_bind; [apply keeps_createElement |]. intros o Ho.
  do 2 (eapply keeps_bind; [solve [keeps_auto] | intros ? ?]).
  eapply keeps_bind; [apply keeps_createElement |]. intros b Hb.
  do 3 (eapply keeps_bind; [solve [keeps_auto] | intros ? ?]).
  by apply keeps_ret.
Qed.

Lemma keeps_buildPlayer (opts : Opts) (src poster : string) (lazy : bool)
    (sl : JsVal) :
  keeps I (buildPlayer opts src poster lazy sl)
    (λ p, n ≤ p.1.1 ∧ n ≤ p.1.2 ∧ n ≤ p.2).
Proof.
  unfold buildPlayer.
  eapply keeps_bind; [apply keeps_createElement |]. intros wr Hwr.
  eapply keeps_bind; [solve [keeps_auto] | intros ? ?].
  eapply keeps_bind; [apply keeps_createElement |]. intros vi Hvi.
  do 4 (eapply keeps_bind; [solve [keeps_auto] | intros ? ?]).
  eapply keeps_bind; [apply keeps_createPosterOverlay |]. intros ov Hov.
  eapply keeps_bind; [solve [keeps_auto] | intros ? ?].
  by apply keeps_ret.
Qed.

#[local] Hint Resolve keeps_attachDirectFile keeps_loadScript : keeps.

Lemma keeps_attachEager (host : Host) (opts : Opts) (video overlay : nat)
    (src poster : string) (sl : JsVal) :
  n ≤ video → n ≤ overlay →
  keeps I (attachEager host opts video overlay src poster sl) (λ _, True).
Proof. intros Hv Ho. unfold attachEager, Hls_undefined. keeps_auto. Qed.

Lemma keeps_injectCard (card wrapper : nat) (title desc : string) :
  card ≠ e → n ≤ wrapper →
  keeps I (injectCard card wrapper title desc) (λ _, True).
Proof.
  intros Hc Hw. unfold injectCard.
  do 2 (eapply keeps_bind; [solve [keeps_auto] | intros ? ?]).
  eapply keeps_bind; [apply keeps_createElement |]. intros h Hh.
  keeps_auto.
Qed.

(** [initOne] on any card: on [e] itself it finds no source and returns;
    on another card it touches the card, the head of the document and
    nodes of its own making. *)
Lemma keeps_initOne (host : Host) (card : nat) (opts : Opts) :
  falsy_str (match x with
             | Some nd => assoc "data-src" (attrs nd)
             | None => None
             end) = true →
  keeps I (initOne host card opts) (λ _, True).
Proof.
  intros Hfalsy. unfold initOne.
  eapply keeps_bind; [apply keeps_get_attr |]. intros src0 Hsrc0.
  destruct (decide (card = e)) as [Heq|Hne].
  { rewrite (Hsrc0 Heq), Hfalsy. by apply keeps_ret. }
  destruct (falsy_str src0); [by apply keeps_ret |].
  do 2 (eapply keeps_bind; [solve [keeps_auto] | intros ? ?]).
  do 3 (eapply keeps_bind; [apply keeps_get_attr | intros ? ?]).
  eapply keeps_bind; [apply keeps_buildPlayer |].
  intros [[wr vi] ov] (Hwr & Hvi & Hov). simpl in Hwr, Hvi, Hov.
  eapply keeps_bind; [| intros ? ?; by apply keeps_injectCard].
  apply keeps_if; [by apply keeps_attachEager | by apply keeps_ret].
Qed.

Lemma keeps_forEach (cards : list nat) (f : nat → M unit) :
  (∀ c, keeps I (f c) (λ _, True)) → keeps I (forEach cards f) (λ _, True).
Proof.
  intros Hf. induction cards as [|c cards IH]; cbn [forEach].
  - by apply keeps_ret.
  - eapply keeps_bind; [apply Hf | by intros ? ?].
Qed.

Lemma keeps_initAll (host : Host) (options : option Options) :
  falsy_str (match x with
             | Some nd => assoc "data-src" (attrs nd)
             | None => None
             end) = true →
  keeps I (initAll host options) (λ _, True).
Proof.
  intros Hfalsy. unfold initAll.
  eapply keeps_bind; [solve [keeps_auto] | intros cards _].
  apply keeps_if; [by apply keeps_ret |].
  apply keeps_forEach. intros c. by apply keeps_initOne.
Qed.

End Frame.

(** C5.  A placeholder whose [data-src] is missing or empty is left as it
    is: [initOne] returns at once without touching the world, and after
    [initAll], whatever the other cards of the page are, the node still has
    the attributes, the children and the handlers it had.  The page is one
    whose nodes have all been handed out by the allocator, and the
    placeholder is not [document.head], where the script puts the decoder
    script. *)
Theorem initAll_skips_missing_src (host : Host) (options : option Options)
    (w : World) (e : nat) (nd : Node) :
  allocated w →
  store w !! e = Some nd →
  falsy_str (getAttribute (store w) e "data-src") = true →
  e ≠ doc_head w →
  (∀ opts, initOne host e opts w = (Returns tt, w))
  ∧ store (exec (initAll host options) w) !! e = Some nd.
Proof.
  intros Hall He Hfalsy Hhd. split.
  - intros opts. unfold initOne, get_attr, gets, mbind, M_bind.
    by rewrite Hfalsy.
  - destruct (Hall e nd He) as [Hlt Hcs].
    assert (frame e (Some nd) (next w) (doc_head w) w) as Hframe.
    { split; [split|]; [done | | done].
      intros i nd' Hi Hlook. destruct (Hall i nd' Hlook) as [? _]. lia. }
    unfold getAttribute in Hfalsy. rewrite He in Hfalsy.
    destruct (keeps_initAll (e:=e) (x:=Some nd) (n:=next w) (hd:=doc_head w)
                Hlt ltac:(by intros ? [= <-]) ltac:(done)
                host options Hfalsy w Hframe) as [((Hlook & _) & _) _].
    exact Hlook.
Qed.

(** The theorem on a page whose only card has no [data-src]. *)
Lemma initAll_skips_missing_src_witness :
  store (exec (initAll Samples.chrome None) (Samples.page [] HlsUndefined))
    !! 3
  = Some (Samples.elem "div" [("class", "vd-card")] []).
Proof.
  apply (initAll_skips_missing_src Samples.chrome None
           (Samples.page [] HlsUndefined) 3).
  - apply (bool_decide_unpack _). by vm_compute.
  - by vm_compute.
  - by vm_compute.
  - by vm_compute.
Defined.

(** ** Conditional updates

    [if (c) node.p = v] changes the store by a conditional function, so
    that a symbolic run need not split on [c]. *)

Lemma if_alter_run (b : bool) (f : Node → Node) (i : nat) (w : World) :
  (if b then λ w0 : World, (Returns tt, with_store (alter f i) w0)
   else λ w0 : World, (Returns tt, w0)) w
  = (Returns tt, with_store (alter (if b then f else λ n, n) i) w).
Proof.
  destruct b; [done |]. destruct w as [d n doc hd g t].
  unfold with_store. cbn. by rewrite alter_id.
Qed.

Lemma if_setAttribute_run (b : bool) (i : nat) (k v : string) (w : World) :
  (if b then λ w0 : World, (Returns tt, with_store (setAttribute i k v) w0)
   else λ w0 : World, (Returns tt, w0)) w
  = (Returns tt,
     with_store (alter (if b then with_attrs (assoc_set k v) else λ n, n) i)
       w).
Proof. apply if_alter_run. Qed.

(** One step of symbolic execution in [E], without a split on the tests
    that guard a single update. *)
Ltac mstep' E :=
  first
    [ progress munfold E
    | progress rewrite ?eqb_empty_refl in E
    | rewrite if_alter_run in E
    | rewrite if_setAttribute_run in E
    | mstep E ].

(** Compute a field of a node below conditional updates. *)
Ltac node_norm' :=
  node_norm;
  repeat match goal with
         | |- context [if ?b then _ else _] => destruct b; node_norm
         end.

(** [absent_solve], through conditional updates. *)
Ltac absent_solve' :=
  repeat first
    [ apply absent_alter; [by repeat case_match; intros [] |]
    | progress absent_solve ].

(** ** Eager initialisation with a direct file *)

(** The nodes [buildPlayer] leaves behind: the wrapper holds the video
    element and the overlay, the video element has no child, the overlay
    has the click listener, and the nodes that were there before are still
    there. *)
Lemma buildPlayer_nodes (opts : Opts) (src poster : string) (lazy : bool)
    (sl : JsVal) (w : World) :
  ∃ w1 nw nv no,
    buildPlayer opts src poster lazy sl w
    = (Returns (next w, S (next w), S (S (next w))), w1)
    ∧ next w1 = S (S (S (S (next w))))
    ∧ Hls w1 = Hls w
    ∧ trace w1 = trace w ++ build_events (next w)
    ∧ (store w1 !! next w = Some nw
       ∧ children nw = [S (next w); S (S (next w))])
    ∧ (store w1 !! S (next w) = Some nv
       ∧ tag nv = "video" ∧ children nv = [])
    ∧ (store w1 !! S (S (next w)) = Some no
       ∧ listeners no
         = [OnPlayClick (S (next w)) (S (S (next w))) src sl (hlsCdn opts)])
    ∧ (∀ j, j < next w → is_Some (store w !! j) → is_Some (store w1 !! j)).
Proof.
  destruct (buildPlayer opts src poster lazy sl w) as [o w1] eqn:E.
  munfold E.
  repeat mstep E; injection E as <- <-;
    destruct w as [d n doc hd g t];
    (eexists _, _, _, _; split; [reflexivity |]);
    cbv beta iota delta [store next Hls trace with_store with_trace];
    (split; [reflexivity |]; split; [reflexivity |]);
    (split; [unfold build_events; by rewrite <- !app_assoc |]);
    (split; [split; [node_norm; reflexivity | node_norm; reflexivity] |]);
    (split; [split; [node_norm; reflexivity | by split] |]);
    (split; [split; [node_norm; reflexivity | node_norm; reflexivity] |]);
    intros j Hj [nj Hnj]; node_norm; rewrite Hnj; done.
Qed.

(** [attachDirectFile] on a video element without children. *)
Lemma attachDirectFile_fresh (host : Host) (v : nat) (src : string)
    (w : World) :
  node_children (store w) v = [] →
  ∃ w',
    attachDirectFile host v src w = (Returns tt, w')
    ∧ next w' = S (next w)
    ∧ Hls w' = Hls w
    ∧ trace w'
      = trace w ++ [EvAttachDirectFile v src; EvCreate (next w) "source";
                    EvAppend v (next w); EvSetSrc v src]
    ∧ store w'
      = (match src_setter host with
         | Returns _ => setAttribute v "src" src
         | Throws => id
         end)
          (appendChild v (next w)
             ((if String.eqb (detectMimeTypeFromUrl src) "" then id
               else setAttribute (next w) "type" (detectMimeTypeFromUrl src))
                (setAttribute (next w) "src" src
                   (<[next w:=new_node "source"]> (store w))))).
Proof.
  intros Hcs.
  destruct (attachDirectFile host v src w) as [o w'] eqn:E.
  munfold E. rewrite Hcs in E. munfold E.
  destruct (String.eqb (detectMimeTypeFromUrl src) ""),
    (src_setter host) as [[]|]; munfold E;
    injection E as <- <-; eexists; (split; [reflexivity |]);
    cbn [store next Hls trace with_store with_trace];
    rewrite <- ?app_assoc; done.
Qed.

(** [injectCard]: the card is emptied, the head is created and filled, and
    the card receives the head and the wrapper. *)
Lemma injectCard_run (card wrapper : nat) (title desc : string) (w : World) :
  ∃ w' (f g : Node → Node),
    injectCard card wrapper title desc w = (Returns tt, w')
    ∧ next w' = S (next w)
    ∧ Hls w' = Hls w
    ∧ trace w'
      = trace w ++ [EvClear card; EvCreate (next w) "div";
                    EvAppend card (next w); EvAppend card wrapper]
    ∧ store w'
      = appendChild card wrapper
          (appendChild card (next w)
             (alter g (next w)
                (alter f (next w)
                   (setAttribute (next w) "class" "vd-head"
                      (<[next w:=new_node "div"]> (clear card (store w)))))))
    ∧ (∀ n, children (f n) = children n ∧ listeners (f n) = listeners n
            ∧ tag (f n) = tag n ∧ attrs (f n) = attrs n)
    ∧ (∀ n, children (g n) = children n ∧ listeners (g n) = listeners n
            ∧ tag (g n) = tag n ∧ attrs (g n) = attrs n).
Proof.
  destruct (injectCard card wrapper title desc w) as [o w'] eqn:E.
  repeat first [rewrite if_alter_run in E | progress munfold E].
  injection E as <- <-. eexists _, _, _. split; [reflexivity |].
  cbn [store next Hls trace with_store with_trace].
  rewrite <- ?app_assoc.
  repeat split; try reflexivity;
    by destruct (negb (String.eqb title "")), (negb (String.eqb desc "")).
Qed.

Lemma bind_assoc_run {A B C} (m : M A) (k : A → M B) (k' : B → M C)
    (w : World) :
  ((m ≫= k) ≫= k') w = (m ≫= (λ a, k a ≫= k')) w.
Proof. unfold mbind, M_bind. by destruct (m w) as [[a|] w1]. Qed.

(** Eager initialisation with a direct file and without poster, node by
    node.  The [type] of the [source] element is what
    [detectMimeTypeFromUrl] returns for the URL, and is absent when that
    is the empty string. *)
Lemma initOne_direct_eager_nodes (host : Host) (card : nat) (opts : Opts)
    (w : World) (src : string) :
  getAttribute (store w) card "data-src" = Some src →
  src ≠ "" →
  isHlsSource src = false →
  lazy_flag (getAttribute (store w) card "data-lazy") opts = false →
  falsy_str (getAttribute (store w) card "data-poster") = true →
  src_setter host = Returns tt →
  card < next w →
  let w' := exec (initOne host card opts) w in
  let wrapper := next w in
  let video := S wrapper in
  let overlay := S video in
  let source := S (S overlay) in
  let head := S source in
  let mime := detectMimeTypeFromUrl src in
  absent overlay (store w')
  ∧ node_children (store w') card = [head; wrapper]
  ∧ node_children (store w') wrapper = [video]
  ∧ tag <$> store w' !! video = Some "video"
  ∧ node_children (store w') video = [source]
  ∧ tag <$> store w' !! source = Some "source"
  ∧ getAttribute (store w') source "src" = Some src
  ∧ getAttribute (store w') source "type"
    = (if String.eqb mime "" then None else Some mime)
  ∧ getAttribute (store w') video "src" = Some src
  ∧ (∀ w0 v, is_Some (store w0 !! v) → v ≠ next w0 →
       node_children (store (exec (attachDirectFile host v src) w0)) v
       = [next w0]).
Proof.
  intros Hsrc Hne%String.eqb_neq Hhls Hlazy Hposter Hset Hcard.
  intros w' wrapper video overlay source head mime.
  subst wrapper video overlay source head.
  assert (or_empty (getAttribute (store w) card "data-poster") = "") as Hp.
  { destruct (getAttribute (store w) card "data-poster"); simpl in *;
      [by apply String.eqb_eq | done]. }
  assert (is_Some (store w !! card)) as Hc.
  { unfold getAttribute in Hsrc. destruct (store w !! card); [eauto | done]. }
  assert (∀ w0 v, is_Some (store w0 !! v) → v ≠ next w0 →
            node_children (store (exec (attachDirectFile host v src) w0)) v
            = [next w0]) as Hgen.
  { intros w0 v Hv Hfresh.
    destruct (attachDirectFile_effect host v src w0)
      as (w1 & evs & Hrun & _ & _ & _ & _ & _ & Hnode).
    unfold exec. rewrite Hrun. by apply Hnode. }
  (* the attributes of the card, then the player *)
  subst w'. unfold exec, initOne, get_attr.
  erewrite bind_run by (unfold gets; reflexivity). rewrite Hsrc.
  cbn [falsy_str or_empty]. rewrite Hne.
  repeat (erewrite bind_run by (unfold gets; reflexivity)).
  rewrite Hlazy, Hp. cbn [negb].
  match goal with
  | |- context [buildPlayer ?o ?s ?p ?l ?h] =>
      destruct (buildPlayer_nodes o s p l h w)
        as (w1 & nw & nv & no & Hrun1 & Hn1 & _ & _ & [Hw Hwc]
            & (Hv & Hvt & Hvc) & _ & Hold)
  end.
  rewrite (bind_run _ _ _ _ _ Hrun1). cbv beta iota.
  (* the attachment *)
  unfold attachEager. rewrite Hhls.
  destruct (attachDirectFile_fresh host (S (next w)) src w1)
    as (w2 & Hrun2 & Hn2 & _ & _ & Hst2).
  { unfold node_children. by rewrite Hv. }
  rewrite Hset in Hst2.
  rewrite bind_assoc_run, (bind_run _ _ _ _ _ Hrun2).
  destruct (Hold card Hcard Hc) as [nc Hnc].
  (* the overlay goes, the card is filled *)
  fold mime in Hst2 |- *. clearbody mime.
  destruct (String.eqb mime "") eqn:Hm; unfold id in Hst2.
  all: generalize (attr_or_text (store w) card "data-title" "vd-title").
  all: generalize (attr_or_text (store w) card "data-desc" "vd-desc").
  all: intros desc title.
  all: match goal with
  | |- context [store (snd ?r)] => remember (snd r) as wf eqn:E
  end.
  all: munfold E; rewrite eqb_empty_refl in E; munfold E.
  all: rewrite if_alter_run in E; munfold E; rewrite if_alter_run in E.
  all: munfold E; subst wf; cbn [store with_store with_trace].
  all: rewrite Hst2, Hn2, Hn1.
  all: unfold getAttribute, node_children.
  all: split; [absent_solve' |].
  all: repeat split;
    try (node_norm'; rewrite ?Hnc, ?Hw, ?Hv; node_norm';
         rewrite ?Hwc, ?Hvc, ?Hvt; node_norm';
         rewrite ?assoc_set_eq, ?assoc_set_ne by done;
         rewrite ?assoc_set_eq; reflexivity).
  all: exact Hgen.
Qed.

(** C3.  For a direct-file source, lazy mode off and no poster: after
    [initOne] the overlay is in no child list, the card holds the head and
    the wrapper, the wrapper holds the video element alone, and the video
    element has exactly one child, a [source] element whose [src] is the
    URL; the [src] of the video element itself is the URL too, and
    whatever children a video element has, [attachDirectFile] leaves it
    with the new [source] element as its only child.  The [type] of the
    [source] element is the MIME type of the extension for a URL [p.e] or
    [p.e?query].  For a URL [p.e#fragment] it is absent whatever the
    extension is, [mp4] included: the element is created without a type
    where the extension calls for one. *)
Theorem initOne_direct_eager (host : Host) (card : nat) (opts : Opts)
    (w : World) (src : string) :
  getAttribute (store w) card "data-src" = Some src →
  src ≠ "" →
  isHlsSource src = false →
  lazy_flag (getAttribute (store w) card "data-lazy") opts = false →
  falsy_str (getAttribute (store w) card "data-poster") = true →
  src_setter host = Returns tt →
  card < next w →
  let w' := exec (initOne host card opts) w in
  let wrapper := next w in
  let video := S wrapper in
  let overlay := S video in
  let source := S (S overlay) in
  let head := S source in
  let mime := detectMimeTypeFromUrl src in
  let type_of e :=
    if String.eqb (spec_mime e) "" then None else Some (spec_mime e) in
  absent overlay (store w')
  ∧ node_children (store w') card = [head; wrapper]
  ∧ node_children (store w') wrapper = [video]
  ∧ tag <$> store w' !! video = Some "video"
  ∧ node_children (store w') video = [source]
  ∧ tag <$> store w' !! source = Some "source"
  ∧ getAttribute (store w') source "src" = Some src
  ∧ getAttribute (store w') source "type"
    = (if String.eqb mime "" then None else Some mime)
  ∧ getAttribute (store w') video "src" = Some src
  ∧ (∀ w0 v, is_Some (store w0 !! v) → v ≠ next w0 →
       node_children (store (exec (attachDirectFile host v src) w0)) v
       = [next w0])
  ∧ (∀ p e q,
       src = p +:+ String "." e +:+ q →
       free_of "?" p = true → free_of "#" p = true →
       free_of "?" e = true → free_of "#" e = true → free_of "." e = true →
       q = "" ∨ (∃ r, q = String "?" r) →
       getAttribute (store w') source "type" = type_of (toLowerCase e))
  ∧ (∀ p e f,
       src = (p +:+ String "." e) +:+ String "#" f →
       free_of "?" p = true → free_of "#" p = true →
       free_of "?" e = true → free_of "#" e = true → free_of "." e = true →
       free_of "." f = true →
       spec_extension src = toLowerCase e
       ∧ getAttribute (store w') source "type" = None).
Proof.
  intros Hsrc Hne Hhls Hlazy Hposter Hset Hcard.
  destruct (initOne_direct_eager_nodes host card opts w src
              Hsrc Hne Hhls Hlazy Hposter Hset Hcard)
    as (H1 & H2 & H3 & H4 & H5 & H6 & H7 & H8 & H9 & H10).
  cbv zeta in *.
  do 10 (split; [assumption |]).
  split.
  - intros p e q -> Hp _ He _ Hd Hq. rewrite H8.
    by rewrite (UrlFacts.detectMimeTypeFromUrl_query p e q Hp He Hd Hq).
  - intros p e f -> Hp Hp' He He' Hd Hf. split.
    + apply UrlFacts.spec_extension_dot; [| | done];
        rewrite UrlFacts.free_of_append; simpl;
        by rewrite ?Hp, ?He, ?Hp', ?He'.
    + rewrite H8.
      by rewrite (UrlFacts.detectMimeTypeFromUrl_hash p e f Hp He Hd Hf).
Qed.

(** The theorem on a page with one card, [data-src="movie.mp4#t=10"], no
    poster and lazy mode off: the extension is [mp4], whose MIME type is
    [video/mp4], and the one [source] element has no [type]. *)
Lemma initOne_direct_eager_witness :
  node_children
    (store (exec (initOne Samples.chrome 3 DEFAULTS)
              (Samples.page [("data-src", "movie.mp4#t=10")] HlsUndefined))) 5
  = [8]
  ∧ spec_mime (spec_extension "movie.mp4#t=10") = "video/mp4"
  ∧ getAttribute
      (store (exec (initOne Samples.chrome 3 DEFAULTS)
                (Samples.page [("data-src", "movie.mp4#t=10")] HlsUndefined)))
      8 "type"
    = None.
Proof.
  destruct (initOne_direct_eager Samples.chrome 3 DEFAULTS
              (Samples.page [("data-src", "movie.mp4#t=10")] HlsUndefined)
              "movie.mp4#t=10")
    as (_ & _ & _ & _ & Hc & _ & _ & _ & _ & _ & _ & Hf);
    [by vm_compute | done | by vm_compute | by vm_compute | by vm_compute
    | by vm_compute | simpl; lia |].
  destruct (Hf "movie" "mp4" "t=10") as [He Ht]; try reflexivity.
  split; [exact Hc |]. split; [by rewrite He | exact Ht].
Defined.

(** ** A second attachment *)

(** Once the player is attached: [injectCard] leaves the wrapper and the
    listener of the overlay as they are, and a click on the overlay runs
    [onPlayClick]. *)
Lemma inject_then_click (host : Host) (card wrapper video overlay : nat)
    (src cdn title desc : string) (sl : JsVal) (wa : World) (nw no : Node)
    (a : Event) :
  store wa !! wrapper = Some nw → children nw = [video; overlay] →
  store wa !! overlay = Some no →
  listeners no = [OnPlayClick video overlay src sl cdn] →
  card < wrapper → wrapper < video → video < overlay → overlay < next wa →
  (∀ w0, Hls w0 = Hls wa →
     ∃ w' pre,
       onPlayClick host video overlay src sl cdn w0 = (Returns tt, w')
       ∧ trace w' = trace w0 ++ a :: pre ++ [EvRemove overlay; EvPlay video]
       ∧ attach_calls pre = 0) →
  let w1 := exec (injectCard card wrapper title desc) wa in
  trace w1 = trace wa ++ [EvClear card; EvCreate (next wa) "div";
                          EvAppend card (next wa); EvAppend card wrapper]
  ∧ node_children (store w1) wrapper = [video; overlay]
  ∧ ∃ evs, emitted w1 (deliver host (Click overlay) w1) (a :: evs)
           ∧ attach_calls evs = 0.
Proof.
  intros Hw Hwc Ho Hol Hcw Hwv Hvo Hon Hclick w1. subst w1. unfold exec.
  destruct (injectCard_run card wrapper title desc wa)
    as (w1 & f & g & Hrun & Hn1 & Hg1 & Ht1 & Hs1 & Hf & Hg).
  rewrite Hrun. cbn [snd].
  split; [exact Ht1 |].
  assert (node_children (store w1) wrapper = [video; overlay]) as Hwc1.
  { unfold node_children. rewrite Hs1. node_norm. rewrite Hw. node_norm.
    rewrite Hwc. node_norm. reflexivity. }
  split; [exact Hwc1 |].
  assert (node_listeners (store w1) overlay
          = [OnPlayClick video overlay src sl cdn]) as Hl1.
  { unfold node_listeners. rewrite Hs1. node_norm. rewrite Ho. node_norm.
    exact Hol. }
  rewrite (deliver_click _ _ _ _ Hl1). unfold dispatch, run_handler.
  destruct (Hclick w1 Hg1) as (w' & pre & Hrunc & Htc & Hc).
  rewrite Hrunc. eexists. split; [exact Htc |].
  by rewrite attach_calls_app, Hc.
Qed.

(** C6.  A card with a poster, lazy mode off, and a source that can be
    attached at once (a direct file, or [window.Hls] defined).  [initOne]
    calls the attacher and keeps the overlay in the wrapper, with its click
    listener; the click on the overlay then runs [onPlayClick], which calls
    the same attacher on the same video element a second time. *)
Theorem eager_poster_click_attaches_twice (host : Host) (card : nat)
    (opts : Opts) (w : World) (src poster : string) :
  getAttribute (store w) card "data-src" = Some src →
  src ≠ "" →
  lazy_flag (getAttribute (store w) card "data-lazy") opts = false →
  getAttribute (store w) card "data-poster" = Some poster →
  poster ≠ "" →
  card < next w →
  isHlsSource src = false ∨ Hls w ≠ HlsUndefined →
  let w1 := exec (initOne host card opts) w in
  let wrapper := next w in
  let video := S wrapper in
  let overlay := S video in
  let sl := start_level (getAttribute (store w) card "data-startlevel") in
  let w2 := deliver host (Click overlay) w1 in
  let a := if isHlsSource src then EvAttachHls video src sl
           else EvAttachDirectFile video src in
  ∃ evs1 evs2,
    emitted w w1 (build_events wrapper ++ a :: evs1)
    ∧ attach_calls evs1 = 0
    ∧ node_children (store w1) wrapper = [video; overlay]
    ∧ emitted w1 w2 (a :: evs2)
    ∧ attach_calls evs2 = 0.
Proof.
  intros Hsrc Hne%String.eqb_neq Hlazy Hposter Hpne%String.eqb_neq Hcard Hpath.
  cbv zeta.
  set (sl := start_level (getAttribute (store w) card "data-startlevel")).
  (* the attributes of the card, then the player *)
  unfold exec, initOne, get_attr.
  erewrite bind_run by (unfold gets; reflexivity). rewrite Hsrc.
  cbn [falsy_str or_empty]. rewrite Hne.
  repeat (erewrite bind_run by (unfold gets; reflexivity)).
  rewrite Hlazy, Hposter. cbn [negb or_empty].
  match goal with
  | |- context [buildPlayer ?o ?s ?p ?l ?h] =>
      destruct (buildPlayer_nodes o s p l h w)
        as (wb & nw & nv & no & Hrun & Hnb & Hgb & Htb & [Hw Hwc]
            & (Hv & _ & Hvc) & [Ho Hol] & _)
  end.
  rewrite (bind_run _ _ _ _ _ Hrun). cbv beta iota.
  unfold attachEager. rewrite Hpne.
  generalize (attr_or_text (store w) card "data-title" "vd-title").
  generalize (attr_or_text (store w) card "data-desc" "vd-desc").
  intros desc title.
  destruct (isHlsSource src) eqn:Hd.
  2: { (* a direct file *)
    destruct (attachDirectFile_fresh host (S (next w)) src wb)
      as (wa & Hrun2 & Hna & Hga & Hta & Hsa).
    { unfold node_children. by rewrite Hv. }
    rewrite !bind_assoc_run, (bind_run _ _ _ _ _ Hrun2).
    erewrite (bind_run (mret tt)) by reflexivity.
    rewrite Hnb in *.
    destruct (inject_then_click host card (next w) (S (next w))
                (S (S (next w))) src (hlsCdn opts) title desc sl wa
                (with_children (remove_id (S (S (S (S (next w)))))) nw)
                (with_children (remove_id (S (S (S (S (next w)))))) no)
                (EvAttachDirectFile (S (next w)) src))
      as (Ht1 & Hwc1 & evs2 & Hev2 & Hc2); try lia.
    + rewrite Hsa.
      destruct (src_setter host) as [[]|],
        (String.eqb (detectMimeTypeFromUrl src) "");
        unfold id; node_norm; by rewrite Hw.
    + cbn [children with_children]. rewrite Hwc. by node_norm.
    + rewrite Hsa.
      destruct (src_setter host) as [[]|],
        (String.eqb (detectMimeTypeFromUrl src) "");
        unfold id; node_norm; by rewrite Ho.
    + exact Hol.
    + intros w0 _.
      destruct (onPlayClick_direct host (S (next w)) (S (S (next w))) src sl
                  (hlsCdn opts) w0 Hd) as (w' & pre & H1 & H2 & H3 & _).
      by exists w', pre.
    + eexists _, evs2. unfold emitted, exec in *.
      split; [by rewrite Ht1, Hta, Htb, <- !app_assoc |].
      split; [reflexivity |]. by split. }
  (* an adaptive stream, the library defined *)
  destruct Hpath as [? | Hg]; [done |].
  assert (Hls_undefined wb = (Returns false, wb)) as Hu.
  { unfold Hls_undefined, gets. rewrite Hgb. by destruct (Hls w). }
  rewrite !bind_assoc_run, (bind_run _ _ _ _ _ Hu).
  destruct (attachHls_effect host (S (next w)) src sl wb)
    as (wa & pre & Hrun2 & Hta & Hca & Hna & _ & Hga & Hsa).
  rewrite (bind_run _ _ _ _ _ Hrun2).
  erewrite (bind_run (mret tt)) by reflexivity.
  rewrite Hnb in *.
  assert (∃ nw' no',
            store wa !! next w = Some nw' ∧ children nw' = children nw
            ∧ store wa !! S (S (next w)) = Some no'
            ∧ listeners no' = listeners no)
    as (nw' & no' & Hw' & Hwc' & Ho' & Hol').
  { destruct Hsa as [-> | ->]; [by exists nw, no |].
    eexists _, _. node_norm. rewrite Hw, Ho. by repeat split. }
  destruct (inject_then_click host card (next w) (S (next w))
              (S (S (next w))) src (hlsCdn opts) title desc sl wa nw' no'
              (EvAttachHls (S (next w)) src sl))
    as (Ht1 & Hwc1 & evs2 & Hev2 & Hc2); try lia; try congruence.
  - by rewrite Hol'.
  - intros w0 Hg0.
    destruct (onPlayClick_hls_sync host (S (next w)) (S (S (next w))) src sl
                (hlsCdn opts) w0 Hd) as (w' & pre' & H1 & H2 & H3 & _);
      [congruence |].
    by exists w', pre'.
  - eexists _, evs2. unfold emitted, exec in *.
    split; [by rewrite Ht1, Hta, Htb, <- !app_assoc |].
    split; [| by split].
    by rewrite attach_calls_app, Hca.
Qed.

(** The theorem on a page with one card for [movie.mp4] with a poster. *)
Lemma eager_poster_click_attaches_twice_witness :
  ∃ evs1 evs2,
    emitted
      (Samples.page [("data-src", "movie.mp4"); ("data-poster", "p.jpg")]
         HlsUndefined)
      (exec (initOne Samples.chrome 3 DEFAULTS)
         (Samples.page [("data-src", "movie.mp4"); ("data-poster", "p.jpg")]
            HlsUndefined))
      (build_events 4 ++ EvAttachDirectFile 5 "movie.mp4" :: evs1)
    ∧ emitted
        (exec (initOne Samples.chrome 3 DEFAULTS)
           (Samples.page [("data-src", "movie.mp4"); ("data-poster", "p.jpg")]
              HlsUndefined))
        (deliver Samples.chrome (Click 6)
           (exec (initOne Samples.chrome 3 DEFAULTS)
              (Samples.page
                 [("data-src", "movie.mp4"); ("data-poster", "p.jpg")]
                 HlsUndefined)))
        (EvAttachDirectFile 5 "movie.mp4" :: evs2).
Proof.
  destruct (eager_poster_click_attaches_twice Samples.chrome 3 DEFAULTS
              (Samples.page
                 [("data-src", "movie.mp4"); ("data-poster", "p.jpg")]
                 HlsUndefined) "movie.mp4" "p.jpg")
    as (evs1 & evs2 & H1 & _ & _ & H2 & _);
    [by vm_compute | done | by vm_compute | by vm_compute | done
    | simpl; lia | left; by vm_compute |].
  exists evs1, evs2. split; [exact H1 | exact H2].
Defined.

(** The second attachment on sample pages.  With a direct file
    [attachDirectFile] is called twice; with an adaptive stream and the
    decoder library defined, [attachHls] is called twice and the decoder is
    constructed and bound twice.  The click listener of version 1.0.0
    looks at the video element first: once [src] is set, further clicks
    attach nothing. *)
Lemma second_attachment_examples :
  let direct := exec (initAll Samples.chrome None)
                  (Samples.page [("data-src", "movie.mp4");
                                 ("data-poster", "p.jpg")] HlsUndefined) in
  let stream := exec (initAll Samples.chrome None)
                  (Samples.page [("data-src", "stream.m3u8");
                                 ("data-poster", "p.jpg")]
                     (HlsDefined Samples.hls_js)) in
  let old := run Samples.safari [ScriptFailed 4]
               (exec (initAllV0 None)
                  (Samples.page [("data-src", "stream.m3u8")] HlsUndefined)) in
  (List.filter is_attach_call (trace direct)
   = [EvAttachDirectFile 5 "movie.mp4"]
   ∧ node_children (store direct) 4 = [5; 6]
   ∧ node_listeners (store direct) 6
     = [OnPlayClick 5 6 "movie.mp4" VNull (hlsCdn DEFAULTS)]
   ∧ List.filter is_attach_call
       (trace (run Samples.chrome [Click 6] direct))
     = [EvAttachDirectFile 5 "movie.mp4"; EvAttachDirectFile 5 "movie.mp4"])
  ∧ (List.filter is_attach_call (trace stream)
     = [EvAttachHls 5 "stream.m3u8" VNull]
     ∧ node_children (store stream) 4 = [5; 6]
     ∧ List.filter (λ e, match e with
                         | EvAttachHls _ _ _ | EvHlsNew | EvHlsAttachMedia _
                           => true
                         | _ => false
                         end)
         (trace (run Samples.chrome [Click 6] stream))
       = [EvAttachHls 5 "stream.m3u8" VNull; EvHlsNew; EvHlsAttachMedia 5;
          EvAttachHls 5 "stream.m3u8" VNull; EvHlsNew; EvHlsAttachMedia 5])
  ∧ (node_listeners (store old) 7 = [OnPlayClickV0 6 7 "stream.m3u8"]
     ∧ attach_calls (trace old) = 0
     ∧ attach_calls (trace (run Samples.safari [Click 7] old)) = 1
     ∧ attach_calls (trace (run Samples.safari [Click 7; Click 7] old)) = 1).
Proof. vm_compute. repeat split. Qed.

(** ** The order of construction, attachment and removal *)

(** [if (!poster) overlay.remove()] *)
Lemma remove_if_run (b : bool) (c : nat) (w : World) :
  ∃ w',
    (if b then remove c else mret tt) w = (Returns tt, w')
    ∧ next w' = next w ∧ Hls w' = Hls w ∧ doc_head w' = doc_head w
    ∧ trace w' = trace w ++ (if b then [EvRemove c] else [])
    ∧ store w' = (if b then detach c (store w) else store w).
Proof.
  destruct b; eexists; (split; [reflexivity |]); cbn; [done |].
  by rewrite app_nil_r.
Qed.






End DomFacts.

(* ===================================================================== *)
(** * The rest of the script *)
(* ===================================================================== *)

Module ScriptFacts.
Import Js Url Dom Card Wording DomFacts.

(** X1.  [attachHls] takes exactly one of its three ways.  The decoder is
    constructed exactly when [window.Hls] is defined and reports support;
    [videoEl.src] is assigned exactly when the decoder path is not open and
    [canPlayType] answers a non-empty string; the warning is logged exactly
    when neither is open.  On the native way, when the assignment goes
    through, the video element ends with [src] set to the URL and nothing
    else has changed. *)
Theorem attachHls_strategy (host : Host) (v : nat) (src : string) (h : JsVal)
    (w : World) :
  let w' := exec (attachHls host v src h) w in
  ∃ evs,
    emitted w w' (EvAttachHls v src h :: evs)
    ∧ (EvHlsNew ∈ evs ↔
       ∃ lib, Hls w = HlsDefined lib ∧ isSupported lib = Returns true)
    ∧ (EvSetSrc v src ∈ evs ↔
       decoder_declines (Hls w)
       ∧ ∃ s, canPlayType host = CanPlayReturns s ∧ s ≠ "")
    ∧ (no_support ∈ evs ↔ decoder_declines (Hls w) ∧ native_declines host)
    ∧ (EvSetSrc v src ∈ evs → src_setter host = Returns tt →
       evs = [EvSetSrc v src]
       ∧ store w' = setAttribute v "src" src (store w))
    ∧ (EvSetSrc v src ∉ evs ∨ src_setter host = Throws →
       store w' = store w).
Proof.
  intros w'. subst w'. unfold exec, emitted, no_support.
  rewrite AttachFacts.attachHls_cases. cbn [snd]. cbv zeta.
  unfold decoder_declines, native_declines.
  assert (∀ evs : list Event,
            (trace w ++ [EvAttachHls v src h]) ++ evs
            = trace w ++ EvAttachHls v src h :: evs) as Hsnoc.
  { intros evs. by rewrite <- app_assoc. }
  destruct (Hls w) as [| |lib] eqn:Hg;
    [| |destruct (isSupported lib) as [[|]|] eqn:Hsup].
  3: destruct (construct lib) as [[]|];
       [destruct (loadSource lib src) as [[]|];
          [destruct (attachMedia lib v) as [[]|] |] |];
       destruct (hint_supplied h).
  1,2,11: destruct (canPlayType host) as [|s|] eqn:Hcp;
       [| destruct (String.eqb_spec s "") as [->|Hs];
          [| destruct (src_setter host) as [[]|] eqn:Hset] |].
  all: cbn [store trace with_store with_trace]; rewrite <- ?app_assoc;
    cbn [app]; eexists; (split; [reflexivity |]);
    rewrite ?elem_of_cons, ?elem_of_nil;
    repeat split; intros;
    repeat match goal with
           | H : _ ∨ _ |- _ => destruct H
           | H : _ ∧ _ |- _ => destruct H
           | H : ∃ _, _ |- _ => destruct H
           | H : False |- _ => destruct H
           end;
    simplify_eq; try done; try congruence; try (by eauto 8);
    try (exfalso; match goal with H : ¬ _ |- _ => apply H end; by eauto).
Qed.

Lemma remove_id_above (c : nat) (l : list nat) :
  Forall (λ y, y < c) l → remove_id c l = l.
Proof.
  intros Hl. induction Hl as [|y l Hy _ IH]; [done |].
  rewrite remove_id_cons_ne by lia. by rewrite IH.
Qed.

(** A node that lists only keys handed out before [c] is not touched when
    [c] is detached. *)
Lemma detach_fresh (c : nat) (d : Store) (j : nat) (nd : Node) :
  d !! j = Some nd → Forall (λ y, y < c) (children nd) →
  detach c d !! j = Some nd.
Proof.
  intros Hj Hcs. unfold detach. rewrite lookup_fmap, Hj. cbn.
  f_equal. apply with_children_id.
  by apply remove_id_above.
Qed.

(** X2.  [loadScript(src, cb)] on a well-formed page: it creates one
    [script] element with [src] and [async] set, makes it the last child of
    [document.head] and touches no other node.  When the script has loaded
    the callback is called without error, when it has failed the callback
    is called with an error, and without a callback nothing happens. *)
Theorem loadScript_contract (host : Host) (src : string)
    (cb : option Callback) (w : World) (hd : Node) :
  allocated w →
  store w !! doc_head w = Some hd →
  let w' := exec (loadScript src cb) w in
  let s := next w in
  (loadScript src cb w).1 = Returns tt
  ∧ emitted w w' [EvCreate s "script"; EvAppend (doc_head w) s]
  ∧ node_children (store w') (doc_head w) = children hd ++ [s]
  ∧ tag <$> store w' !! s = Some "script"
  ∧ getAttribute (store w') s "src" = Some src
  ∧ getAttribute (store w') s "async" = Some ""
  ∧ node_children (store w') s = []
  ∧ (∀ j, j ≠ s → j ≠ doc_head w → store w' !! j = store w !! j)
  ∧ (∀ g, deliver host (ScriptLoaded s g) w'
          = match cb with
            | Some c => match run_callback host c false (with_Hls g w') with
                        | (Returns _, w2) => w2
                        | (Throws, w2) => with_trace EvUncaught w2
                        end
            | None => with_Hls g w'
            end)
  ∧ deliver host (ScriptFailed s) w'
    = match cb with
      | Some c => match run_callback host c true w' with
                  | (Returns _, w2) => w2
                  | (Throws, w2) => with_trace EvUncaught w2
                  end
      | None => w'
      end.
Proof.
  intros Hall Hhd w' s. subst w' s. unfold exec, emitted.
  rewrite loadScript_run. cbn [fst snd store trace].
  destruct (Hall _ _ Hhd) as [Hlt Hcs].
  destruct (with_script_handlers src cb w) as (n & Hn & Hload & Herr).
  split; [done |]. split; [done |].
  unfold getAttribute, node_children, with_script in *.
  split; [node_norm; rewrite Hhd; node_norm;
          by rewrite remove_id_above |].
  do 4 (split; [node_norm; reflexivity |]).
  split.
  { intros j Hj Hjh. node_norm.
    destruct (store w !! j) as [nd|] eqn:E; [| done]. cbn.
    destruct (Hall _ _ E) as [_ Hc]. f_equal. apply with_children_id.
    by apply remove_id_above. }
  split.
  - intros g. unfold deliver. cbn [store with_Hls]. rewrite Hn, Hload.
    unfold dispatch, run_handler. by destruct cb.
  - unfold deliver. cbn [store]. rewrite Hn, Herr.
    unfold dispatch, run_handler. by destruct cb.
Qed.

(** The theorem on the sample page, whose head is node 1. *)
Lemma loadScript_contract_witness :
  node_children
    (store (exec (loadScript "hls.js" None) (Samples.page [] HlsUndefined))) 1
  = [4]
  ∧ deliver Samples.chrome (ScriptFailed 4)
      (exec (loadScript "hls.js" None) (Samples.page [] HlsUndefined))
    = exec (loadScript "hls.js" None) (Samples.page [] HlsUndefined).
Proof.
  destruct (loadScript_contract Samples.chrome "hls.js" None
              (Samples.page [] HlsUndefined) (Samples.elem "head" [] []))
    as (_ & _ & Hc & _ & _ & _ & _ & _ & _ & Hf).
  - apply (bool_decide_unpack _). by vm_compute.
  - by vm_compute.
  - split; [exact Hc | exact Hf].
Defined.




(** From [data-startlevel] to the decoder, with [parseInt] as the model has
    it: exact on every integer. *)
Lemma startlevel_attribute_model (host : Host) (v : nat) (src : string)
    (w : World) (lib : HlsLib) (a : option string) :
  Hls w = HlsDefined lib →
  isSupported lib = Returns true →
  construct lib = Returns tt →
  let sl := start_level a in
  let w' := exec (attachHls host v src sl) w in
  (hint_supplied sl = true ↔
   ∃ s z, a = Some s ∧ s ≠ "" ∧ parseInt s = Int z)
  ∧ (hint_supplied sl = false →
     ∃ rest,
       emitted w w'
         ([EvAttachHls v src sl; EvHlsNew; EvHlsLoadSource src] ++ rest)
       ∧ ∀ p x, EvHlsSet p x ∉ rest)
  ∧ (∀ s z,
       a = Some s → s ≠ "" → parseInt s = Int z → (Z.abs z < 10 ^ 21)%Z →
       ∃ rest,
         emitted w w'
           ([EvAttachHls v src sl; EvHlsNew] ++ pin_level (Int z)
              ++ EvHlsLoadSource src :: rest))
  ∧ (∀ n, (0 ≤ n)%Z →
       start_level (Some (decimal n)) = VNum (Int n)
       ∧ start_level (Some (String "-" (decimal n))) = VNum (Int (- n))).
Proof.
  intros Hg Hsup Hc sl w'.
  assert (∀ s, s ≠ "" → start_level (Some s) = VNum (parseInt s)) as Hsl.
  { intros s Hs. unfold start_level. by apply String.eqb_neq in Hs as ->. }
  assert (∃ rest,
            emitted w w'
              ([EvAttachHls v src sl; EvHlsNew]
                 ++ (if hint_supplied sl then pin_level (parseInt_val sl)
                     else [])
                 ++ EvHlsLoadSource src :: rest)
            ∧ ∀ p x, EvHlsSet p x ∉ rest) as (rest & Hev & Hrest).
  { subst w'. unfold exec, emitted. rewrite AttachFacts.attachHls_cases.
    cbn [snd]. rewrite Hg, Hsup, Hc. cbv zeta.
    destruct (loadSource lib src) as [[]|];
      [destruct (attachMedia lib v) as [[]|] |];
      destruct (hint_supplied sl);
      cbn [store trace with_store with_trace pin_level app];
      rewrite <- ?app_assoc; cbn [app];
      eexists; (split; [reflexivity |]);
      intros p x; rewrite ?elem_of_cons, elem_of_nil;
      intuition discriminate. }
  split; [|split; [|split]].
  - subst sl. destruct a as [s|]; [| split; [done | by intros (? & ? & ? & _)]].
    destruct (String.eqb_spec s "") as [->|Hs].
    + split; [done | by intros (? & ? & [= <-] & ? & _)].
    + rewrite (Hsl s Hs). destruct (parseInt s) as [|z] eqn:Hp; cbn.
      * split; [done |]. intros (s' & z & [= <-] & _ & Hz). congruence.
      * split; [by eauto | done].
  - intros Hno. rewrite Hno in Hev. by exists rest.
  - intros s z -> Hs Hp Hz. subst sl. rewrite (Hsl s Hs), Hp in *.
    cbn [hint_supplied isNaN negb] in Hev.
    rewrite (JsFacts.parseInt_val_int z Hz) in Hev. by exists rest.
  - intros n Hn.
    destruct (JsFacts.decimal_fuel_head (Z.to_nat (Z.log2 n)) n "")
      as (d & r & _ & Hd).
    fold (decimal n) in Hd.
    rewrite !Hsl by (by rewrite ?Hd).
    by rewrite JsFacts.parseInt_decimal, JsFacts.parseInt_minus_decimal.
Qed.

(** X4.  From [data-startlevel] to the decoder, for an attribute of ASCII
    characters.  The attribute gives a hint exactly when it is present, not
    empty, and [parseInt] does not yield [NaN] on it; a missing, empty or
    non-numeric attribute leaves the decoder unconfigured.  An integer
    found there, up to 2^53 in absolute value, is the level the decoder is
    pinned to, and the decimal numeral of such an integer is read back as
    that integer, with or without a minus sign.  (Beyond 2^53 a Number
    rounds, which the model does not follow.) *)
Theorem startlevel_attribute (host : Host) (v : nat) (src : string)
    (w : World) (lib : HlsLib) (a : option string) :
  Hls w = HlsDefined lib →
  isSupported lib = Returns true →
  construct lib = Returns tt →
  ascii_only (or_empty a) = true →
  let sl := start_level a in
  let w' := exec (attachHls host v src sl) w in
  (hint_supplied sl = true ↔
   ∃ s, a = Some s ∧ s ≠ "" ∧ parseInt s ≠ NaN)
  ∧ (hint_supplied sl = false →
     ∃ rest,
       emitted w w'
         ([EvAttachHls v src sl; EvHlsNew; EvHlsLoadSource src] ++ rest)
       ∧ ∀ p x, EvHlsSet p x ∉ rest)
  ∧ (∀ s z,
       a = Some s → s ≠ "" → parseInt s = Int z →
       (Z.abs z ≤ 2 ^ 53)%Z →
       ∃ rest,
         emitted w w'
           ([EvAttachHls v src sl; EvHlsNew] ++ pin_level (Int z)
              ++ EvHlsLoadSource src :: rest))
  ∧ (∀ n, (0 ≤ n ≤ 2 ^ 53)%Z →
       start_level (Some (decimal n)) = VNum (Int n)
       ∧ start_level (Some (String "-" (decimal n))) = VNum (Int (- n))).
Proof.
  intros Hg Hsup Hc _.
  destruct (startlevel_attribute_model host v src w lib a Hg Hsup Hc)
    as (Hiff & Hno & Hpin & Hdec).
  cbv zeta in *.
  split; [|split; [exact Hno |split]].
  - rewrite Hiff. split.
    + intros (s & z & -> & Hs & Hp). exists s. by rewrite Hp.
    + intros (s & -> & Hs & Hp). exists s.
      destruct (parseInt s) as [|z]; [done |]. by exists z.
  - intros s z Ha Hs Hp Hz. apply (Hpin s z Ha Hs Hp). lia.
  - intros n [Hn _]. by apply Hdec.
Qed.

(** The theorem at [data-startlevel="2"], with the decoder defined. *)
Lemma startlevel_attribute_witness :
  hint_supplied (start_level (Some "2")) = true
  ∧ start_level (Some (decimal 2)) = VNum (Int 2).
Proof.
  destruct (startlevel_attribute Samples.chrome 5 "s.m3u8"
              (Samples.page [] (HlsDefined Samples.hls_js)) Samples.hls_js
              (Some "2") eq_refl eq_refl eq_refl eq_refl)
    as (Hh & _ & _ & Hd).
  split.
  - apply Hh. by exists "2".
  - apply Hd. lia.
Defined.

(** X5.  Where [detectMimeTypeFromUrl] applies the table.  For a URL
    [p.e] or [p.e?query], whatever dots and slashes [p] holds, the result
    is the entry of the extension [e] taken without regard to letter case;
    a URL without any dot and without query is looked up whole, as if it
    were an extension; and the result is always one of the four MIME types
    or the empty string. *)
Theorem detectMimeTypeFromUrl_table :
  (∀ p e q,
     free_of "?" p = true → free_of "?" e = true → free_of "." e = true →
     q = "" ∨ (∃ r, q = String "?" r) →
     detectMimeTypeFromUrl (p +:+ String "." e +:+ q)
     = spec_mime (toLowerCase e))
  ∧ (∀ u,
       free_of "." u = true → free_of "?" u = true →
       detectMimeTypeFromUrl u = spec_mime (toLowerCase u))
  ∧ (∀ url,
       detectMimeTypeFromUrl url
       ∈ [""; "video/mp4"; "video/webm"; "video/ogg"; "video/quicktime"]).
Proof.
  split; [|split].
  - apply UrlFacts.detectMimeTypeFromUrl_query.
  - intros u Hd Hq. unfold detectMimeTypeFromUrl.
    rewrite (UrlFacts.split_free "?" u Hq). cbn [first head or_empty].
    rewrite (UrlFacts.split_free "." u Hd). cbn [pop last or_empty].
    by destruct (String.eqb_spec u "") as [->|_].
  - intros url. unfold detectMimeTypeFromUrl.
    repeat match goal with
           | |- context [if ?b then _ else _] => destruct b
           end;
      rewrite !elem_of_cons; auto 10.
Qed.

(** ** Exceptions *)

Lemma returns_ret {A} (a : A) : returns (mret a).
Proof. intros w. by exists a. Qed.

Lemma returns_bind {A B} (m : M A) (k : A → M B) :
  returns m → (∀ a, returns (k a)) → returns (m ≫= k).
Proof.
  intros Hm Hk w. destruct (Hm w) as [a Ha].
  unfold mbind, M_bind. destruct (m w) as [[a'|] w1]; [| done].
  apply Hk.
Qed.

Lemma returns_if {A} (b : bool) (m1 m2 : M A) :
  returns m1 → returns m2 → returns (if b then m1 else m2).
Proof. by destruct b. Qed.

Lemma returns_run {A} (m : M A) :
  (∀ w, ∃ a w', m w = (Returns a, w')) → returns m.
Proof. intros H w. destruct (H w) as (a & w' & ->). by exists a. Qed.

Lemma returns_gets {A} (f : World → A) : returns (gets f).
Proof. intros w. by eexists. Qed.

Lemma returns_get_attr (i : nat) (k : string) : returns (get_attr i k).
Proof. apply returns_gets. Qed.

Lemma returns_remove (c : nat) : returns (remove c).
Proof. intros w. by eexists. Qed.

Lemma returns_attachHls (host : Host) (v : nat) (src : string) (h : JsVal) :
  returns (attachHls host v src h).
Proof.
  apply returns_run. intros w.
  destruct (attachHls_effect host v src h w) as (w' & evs & H & _). eauto.
Qed.

Lemma returns_attachDirectFile (host : Host) (v : nat) (src : string) :
  returns (attachDirectFile host v src).
Proof.
  apply returns_run. intros w.
  destruct (attachDirectFile_effect host v src w) as (w' & evs & H & _).
  eauto.
Qed.

Lemma returns_loadScript (src : string) (cb : option Callback) :
  returns (loadScript src cb).
Proof. apply returns_run. intros w. rewrite loadScript_run. eauto. Qed.

Lemma returns_buildPlayer (opts : Opts) (src poster : string) (lazy : bool)
    (sl : JsVal) :
  returns (buildPlayer opts src poster lazy sl).
Proof.
  apply returns_run. intros w.
  destruct (buildPlayer_run opts src poster lazy sl w) as (w' & H & _).
  eauto.
Qed.

Lemma returns_injectCard (card wrapper : nat) (title desc : string) :
  returns (injectCard card wrapper title desc).
Proof.
  apply returns_run. intros w.
  destruct (injectCard_run card wrapper title desc w) as (w' & _ & _ & H & _).
  eauto.
Qed.

Lemma returns_try_play (host : Host) (v : nat) : returns (try_play host v).
Proof. apply returns_run. intros w. rewrite try_play_run. eauto. Qed.

Lemma returns_attachEager (host : Host) (opts : Opts) (video overlay : nat)
    (src poster : string) (sl : JsVal) :
  returns (attachEager host opts video overlay src poster sl).
Proof.
  unfold attachEager. apply returns_bind.
  - apply returns_if; [| apply returns_attachDirectFile].
    apply returns_bind; [apply returns_gets |]. intros undef.
    apply returns_if; [apply returns_loadScript | apply returns_attachHls].
  - intros _. apply returns_if; [apply returns_remove | apply returns_ret].
Qed.

Lemma returns_initOne (host : Host) (card : nat) (opts : Opts) :
  returns (initOne host card opts).
Proof.
  unfold initOne.
  apply returns_bind; [apply returns_get_attr |]. intros src0.
  apply returns_if; [apply returns_ret |].
  do 2 (apply returns_bind; [apply returns_gets |]; intros ?).
  do 3 (apply returns_bind; [apply returns_get_attr |]; intros ?).
  apply returns_bind; [apply returns_buildPlayer |]. intros [[wr vi] ov].
  apply returns_bind; [| intros _; apply returns_injectCard].
  apply returns_if; [apply returns_attachEager | apply returns_ret].
Qed.

Lemma returns_forEach (cards : list nat) (f : nat → M unit) :
  (∀ c, returns (f c)) → returns (forEach cards f).
Proof.
  intros Hf. induction cards as [|c cards IH]; cbn [forEach].
  - apply returns_ret.
  - apply returns_bind; [apply Hf | by intros _].
Qed.

Lemma returns_onPlayClick (host : Host) (video overlay : nat) (src : string)
    (sl : JsVal) (cdn : string) :
  returns (onPlayClick host video overlay src sl cdn).
Proof.
  unfold onPlayClick.
  assert (returns (remove overlay;; try_play host video)) as Hreveal.
  { apply returns_bind; [apply returns_remove |]. intros _.
    apply returns_try_play. }
  apply returns_if.
  - apply returns_bind; [apply returns_gets |]. intros undef.
    apply returns_if; [apply returns_loadScript |].
    apply returns_bind; [apply returns_attachHls | by intros _].
  - apply returns_bind; [apply returns_attachDirectFile | by intros _].
Qed.

(** The native fallback of the completion callbacks. *)
Lemma fallback_outcome (host : Host) (video : nat) (src : string)
    (w : World) :
  let m := native ← can_play_hls host;
           if (native : bool) then set_src host video src else mret tt in
  (fallback_safe host → (m w).1 = Returns tt)
  ∧ (¬ fallback_safe host → (m w).1 = Throws).
Proof.
  unfold fallback_safe, native_declines. cbv zeta.
  unfold can_play_hls, set_src, set_attr, emit, lift, modify,
    mbind, mret, M_bind, M_ret.
  destruct (canPlayType host) as [|s|];
    [| destruct (String.eqb_spec s "") as [->|Hs];
       [| destruct (src_setter host) as [[]|]] |];
    cbn; split; try done; intros H; exfalso;
    first [ apply H; by eauto
          | destruct H as [[?|?]|(? & ? & ?)]; congruence ].
Qed.

(** X6.  No exception leaves [initAll], [initOne], the click listener or
    a completion callback run after a successful load, whatever the host
    and the decoder library do.  The completion callbacks run after a
    failed load raise an exception exactly when the native fallback does:
    when [canPlayType] throws, or answers a non-empty string and the
    assignment of [src] throws. *)
Theorem script_exceptions (host : Host) :
  (∀ options w, (initAll host options w).1 = Returns tt)
  ∧ (∀ card opts w, (initOne host card opts w).1 = Returns tt)
  ∧ (∀ video overlay src sl cdn w,
       (onPlayClick host video overlay src sl cdn w).1 = Returns tt)
  ∧ (∀ video overlay src sl w,
       (click_loaded host video overlay src sl false w).1 = Returns tt
       ∧ (eager_loaded host video src sl false w).1 = Returns tt)
  ∧ (∀ video overlay src sl w,
       (fallback_safe host →
        (click_loaded host video overlay src sl true w).1 = Returns tt
        ∧ (eager_loaded host video src sl true w).1 = Returns tt)
       ∧ (¬ fallback_safe host →
          (click_loaded host video overlay src sl true w).1 = Throws
          ∧ (eager_loaded host video src sl true w).1 = Throws)).
Proof.
  assert (∀ (m : M unit) w, returns m → (m w).1 = Returns tt) as Hunit.
  { intros m w Hm. destruct (Hm w) as [[] H]. exact H. }
  split; [|split; [|split; [|split]]].
  - intros options w. apply Hunit. unfold initAll.
    apply returns_bind; [apply returns_gets |]. intros cards.
    apply returns_if; [apply returns_ret |].
    apply returns_forEach. intros c. apply returns_initOne.
  - intros card opts w. apply Hunit, returns_initOne.
  - intros video overlay src sl cdn w. apply Hunit, returns_onPlayClick.
  - intros video overlay src sl w. split.
    + destruct (click_loaded_ok host video overlay src sl w)
        as (w' & pre & -> & _). done.
    + unfold eager_loaded. apply Hunit, returns_attachHls.
  - intros video overlay src sl w.
    destruct (click_loaded_failed host video overlay src sl w)
      as (o & w' & evs & Hrun & _ & _ & Hsafe & Hunsafe).
    destruct (fallback_outcome host video src w) as [Hok Hko].
    rewrite Hrun. unfold eager_loaded. cbn [fst].
    split; intros H.
    + split; [by apply Hsafe | by apply Hok].
    + split; [by apply Hunsafe | by apply Hko].
Qed.

(** ** What initialisation emits *)

Section Emits.
Context (P : Event → bool).











End Emits.





(** ** Fields that an update leaves alone *)

Section Projection.
Context {X : Type} (π : Node → X).

Lemma proj_alter (f : Node → Node) (i k : nat) (d : Store) :
  (∀ n, π (f n) = π n) → π <$> alter f i d !! k = π <$> d !! k.
Proof.
  intros Hf. rewrite lookup_alter. case_decide; [subst|done].
  destruct (d !! k); cbn; [by rewrite Hf | done].
Qed.

Lemma proj_fmap (f : Node → Node) (k : nat) (d : Store) :
  (∀ n, π (f n) = π n) → π <$> (f <$> d) !! k = π <$> d !! k.
Proof.
  intros Hf. rewrite lookup_fmap. destruct (d !! k); cbn; [by rewrite Hf | done].
Qed.

Lemma proj_detach (c k : nat) (d : Store) :
  (∀ g n, π (with_children g n) = π n) →
  π <$> detach c d !! k = π <$> d !! k.
Proof. intros Hf. by apply proj_fmap. Qed.

Lemma proj_appendChild (p c k : nat) (d : Store) :
  (∀ g n, π (with_children g n) = π n) →
  π <$> appendChild p c d !! k = π <$> d !! k.
Proof.
  intros Hf. unfold appendChild. rewrite proj_alter by done.
  by apply proj_detach.
Qed.

Lemma proj_setAttribute (i k : nat) (a v : string) (d : Store) :
  (∀ g n, π (with_attrs g n) = π n) →
  π <$> setAttribute i a v d !! k = π <$> d !! k.
Proof. intros Hf. unfold setAttribute. by apply proj_alter. Qed.

Lemma proj_clear (p k : nat) (d : Store) :
  (∀ g n, π (with_children g n) = π n) →
  (∀ s n, π (with_innerHTML s n) = π n) →
  π <$> clear p d !! k = π <$> d !! k.
Proof.
  intros Hc Hi. unfold clear. apply proj_alter. intros n.
  by rewrite Hi, Hc.
Qed.

End Projection.

(** The eager completion callback after a failed load. *)
Lemma eager_loaded_failed (host : Host) (video : nat) (src : string)
    (sl : JsVal) (w : World) :
  ∃ o w' evs,
    eager_loaded host video src sl true w = (o, w')
    ∧ trace w' = trace w ++ evs
    ∧ attach_calls evs = 0
    ∧ (native_declines host → o = Returns tt ∧ w' = w)
    ∧ (∀ s, canPlayType host = CanPlayReturns s → s ≠ "" →
         src_setter host = Returns tt →
         o = Returns tt ∧ evs = [EvSetSrc video src]
         ∧ store w' = setAttribute video "src" src (store w)).
Proof.
  unfold eager_loaded, native_declines, can_play_hls, set_src, set_attr,
    emit, lift, modify, mbind, mret, M_bind, M_ret.
  destruct w as [d n doc hd g t].
  destruct (canPlayType host) as [|s|];
    [| destruct (String.eqb_spec s "") as [->|Hs];
       [| destruct (src_setter host) as [[]|]] |];
    cbn; eexists _, _, _; (split; [reflexivity |]); cbn;
    first [ exists; [by rewrite app_nil_r |]
          | split; [by rewrite app_nil_r |]
          | split; [reflexivity |] ];
    (split; [reflexivity |]);
    (split; [intros [?|?]; by simplify_eq |]);
    intros s' ? ? ?; by simplify_eq.
Qed.

(** ** The player that [buildPlayer] assembles *)

(** Compute a node found by [lookup_norm], as a whole. *)
Ltac node_eval :=
  lookup_norm;
  unfold with_children, with_attrs, with_listener, with_backgroundImage,
    with_innerHTML, with_onload, with_onerror, new_node;
  cbn -[remove_id String.append];
  repeat first
    [ rewrite remove_id_nil
    | rewrite remove_id_cons_eq
    | rewrite remove_id_cons_ne by lia
    | progress cbn -[remove_id String.append] ].

Lemma buildPlayer_world (opts : Opts) (src poster : string) (lazy : bool)
    (sl : JsVal) (w : World) :
  let wrapper := next w in
  let video := S wrapper in
  let overlay := S video in
  let btn := S overlay in
  ∃ w1,
    buildPlayer opts src poster lazy sl w
    = (Returns (wrapper, video, overlay), w1)
    ∧ next w1 = S btn ∧ Hls w1 = Hls w
    ∧ doc_head w1 = doc_head w ∧ document w1 = document w
    ∧ store w1 !! wrapper
      = Some {| tag := "div"; attrs := [("class", "vd-wrapper")];
                children := [video; overlay]; text := ""; innerHTML := "";
                backgroundImage := ""; listeners := []; onload := None;
                onerror := None |}
    ∧ store w1 !! video
      = Some {| tag := "video";
                attrs := [("controls", ""); ("playsinline", "");
                          ("preload", if lazy then "none" else "metadata")];
                children := []; text := ""; innerHTML := "";
                backgroundImage := ""; listeners := []; onload := None;
                onerror := None |}
    ∧ store w1 !! overlay
      = Some {| tag := "div"; attrs := [("class", "vd-poster")];
                children := [btn]; text := ""; innerHTML := "";
                backgroundImage :=
                  (if String.eqb poster "" then ""
                   else "url(" +:+ dq +:+ poster +:+ dq +:+ ")");
                listeners := [OnPlayClick video overlay src sl (hlsCdn opts)];
                onload := None; onerror := None |}
    ∧ store w1 !! btn
      = Some {| tag := "div"; attrs := [("class", "vd-playbtn")];
                children := []; text := ""; innerHTML := "";
                backgroundImage := ""; listeners := []; onload := None;
                onerror := None |}
    ∧ (allocated w → ∀ j, j < next w → store w1 !! j = store w !! j).
Proof.
  cbv zeta.
  destruct (buildPlayer opts src poster lazy sl w) as [o w1] eqn:E.
  munfold E.
  destruct (String.eqb poster ""), lazy; munfold E; injection E as <- <-;
    destruct w as [d n doc hd g t];
    (eexists; split; [reflexivity |]);
    cbv beta iota delta [store next Hls doc_head document trace
                         with_store with_trace].
  all: do 4 (split; [reflexivity |]).
  all: do 4 (split; [node_eval; reflexivity |]).
  all: intros Hall j Hj; node_norm.
  all: destruct (d !! j) as [nd|] eqn:Ej; [| done]; cbn.
  all: destruct (Hall _ _ Ej) as [_ Hc]; cbn in Hc.
  all: f_equal; repeat rewrite with_children_id; try done.
  all: apply remove_id_above; eapply Forall_impl; [exact Hc |].
  all: cbv beta; intros; lia.
Qed.

(** X8.  An adaptive stream in eager mode, [window.Hls] undefined.
    [initOne] requests the decoder script from [opts.hlsCdn] and attaches
    nothing: the video element is left without [src] and without child.
    When the script has loaded, [attachHls] is called once, with the level
    read from [data-startlevel], and the callback changes no node but the
    video element.  When the script has failed and the browser declines
    native playback, the callback does nothing at all: no warning, no
    source; when the browser plays the stream natively, [src] is
    assigned. *)
Theorem eager_stream_waits_for_decoder (host : Host) (card : nat)
    (opts : Opts) (w : World) (src : string) :
  getAttribute (store w) card "data-src" = Some src →
  src ≠ "" →
  lazy_flag (getAttribute (store w) card "data-lazy") opts = false →
  isHlsSource src = true →
  Hls w = HlsUndefined →
  card < next w →
  doc_head w < next w →
  let w1 := exec (initOne host card opts) w in
  let video := S (next w) in
  let script := S (S (S (S (next w)))) in
  let sl := start_level (getAttribute (store w) card "data-startlevel") in
  (∃ evs, emitted w w1 evs ∧ attach_calls evs = 0
          ∧ EvCreate script "script" ∈ evs)
  ∧ getAttribute (store w1) script "src" = Some (hlsCdn opts)
  ∧ getAttribute (store w1) video "src" = None
  ∧ node_children (store w1) video = []
  ∧ (∀ g, ∃ pre,
       let w2 := deliver host (ScriptLoaded script g) w1 in
       emitted w1 w2 (EvAttachHls video src sl :: pre)
       ∧ attach_calls pre = 0
       ∧ (store w2 = store w1
          ∨ store w2 = setAttribute video "src" src (store w1)))
  ∧ (native_declines host → deliver host (ScriptFailed script) w1 = w1)
  ∧ (∀ s, canPlayType host = CanPlayReturns s → s ≠ "" →
       src_setter host = Returns tt →
       let w2 := deliver host (ScriptFailed script) w1 in
       emitted w1 w2 [EvSetSrc video src]
       ∧ store w2 = setAttribute video "src" src (store w1)).
Proof.
  intros Hsrc Hne%String.eqb_neq Hlazy Hd Hg Hcard Hhead. cbv zeta.
  set (sl := start_level (getAttribute (store w) card "data-startlevel")).
  set (cb := Some (CbEager (S (next w)) src sl)).
  (* the run of initOne *)
  unfold exec, initOne, get_attr.
  erewrite bind_run by (unfold gets; reflexivity). rewrite Hsrc.
  cbn [falsy_str or_empty]. rewrite Hne.
  repeat (erewrite bind_run by (unfold gets; reflexivity)).
  rewrite Hlazy. cbn [negb].
  match goal with
  | |- context [buildPlayer ?o ?s ?p ?l ?h] =>
      destruct (buildPlayer_world o s p l h w)
        as (wb & Hrun & Hnb & Hgb & Hhb & _ & _ & Hv & _);
      destruct (buildPlayer_run o s p l h w) as (wb' & Hrun' & Htb)
  end.
  rewrite Hrun in Hrun'. injection Hrun' as <-.
  rewrite (bind_run _ _ _ _ _ Hrun). cbv beta iota.
  unfold attachEager. rewrite Hd.
  assert (Hls_undefined wb = (Returns true, wb)) as Hu.
  { unfold Hls_undefined, gets. by rewrite Hgb, Hg. }
  rewrite !bind_assoc_run, (bind_run _ _ _ _ _ Hu).
  rewrite (bind_run _ _ _ _ _ (loadScript_run _ _ _)).
  fold sl cb.
  match goal with
  | |- context [mbind ?k (if ?b then remove ?c else mret tt) ?W] =>
      destruct (remove_if_run b c W)
        as (wr & Hrunr & Hnr & Hgr & _ & Htr & Hsr)
  end.
  rewrite (bind_run _ _ _ _ _ Hrunr).
  match goal with
  | |- context [injectCard ?c ?wp ?t ?ds wr] =>
      destruct (injectCard_run c wp t ds wr)
        as (w1 & f & g & Hrun1 & Hn1 & Hg1 & Ht1 & Hs1 & Hf & Hg')
  end.
  rewrite Hrun1. cbn [snd].
  cbn [store next Hls trace] in Hnr, Hgr, Htr, Hsr.
  rewrite Hnr, Hnb, Hhb in *.
  assert (store w1
          = appendChild card (next w)
              (appendChild card (S (S (S (S (S (next w))))))
                 (alter g (S (S (S (S (S (next w))))))
                    (alter f (S (S (S (S (S (next w))))))
                       (setAttribute (S (S (S (S (S (next w))))))
                          "class" "vd-head"
                          (<[S (S (S (S (S (next w))))):=new_node "div"]>
                             (clear card (store wr)))))))) as Hs1' by done.
  clear Hs1.
  (* the script element and the video element in the final store *)
  assert (∃ n1, store w1 !! S (S (S (S (next w)))) = Some n1
                ∧ onload n1 = Some (ScriptOnload cb)
                ∧ onerror n1 = Some (ScriptOnerror (hlsCdn opts) cb)
                ∧ assoc "src" (attrs n1) = Some (hlsCdn opts))
    as (n1 & Hn1s & Hload1 & Herr1 & Hsrc1).
  { rewrite Hs1', Hsr. unfold with_script. rewrite Hnb, Hhb.
    destruct (String.eqb (or_empty _) ""); node_norm;
      eexists; (split; [reflexivity |]); by node_norm. }
  assert (∃ nv, store w1 !! S (next w) = Some nv
                ∧ children nv = [] ∧ assoc "src" (attrs nv) = None)
    as (nv & Hnv & Hnvc & Hnvs).
  { rewrite Hs1', Hsr. unfold with_script. rewrite Hnb, Hhb.
    destruct (String.eqb (or_empty _) ""); node_norm; rewrite Hv;
      node_norm; eexists; (split; [reflexivity |]); split; reflexivity. }
  unfold emitted, getAttribute, node_children. rewrite Hn1s, Hnv.
  split; [|split; [done |split; [done |split; [done |]]]].
  { eexists. split; [by rewrite Ht1, Htr; cbn [trace]; rewrite Htb,
                       <- !app_assoc |].
    rewrite !attach_calls_app. split.
    - unfold build_events. by destruct (String.eqb (or_empty _) "").
    - rewrite !elem_of_app, !elem_of_cons. right. left. by left. }
  split; [|split].
  - intros g0.
    erewrite deliver_loaded; [| exact Hn1s | exact Hload1].
    unfold dispatch, run_handler, cb, run_callback, eager_loaded.
    destruct (attachHls_effect host (S (next w)) src sl (with_Hls g0 w1))
      as (w2 & pre & Hrun2 & Htr2 & Hc2 & _ & _ & _ & Hst2).
    rewrite Hrun2. by exists pre.
  - intros Hdecl.
    erewrite deliver_failed; [| exact Hn1s | exact Herr1].
    unfold dispatch, run_handler, cb, run_callback.
    destruct (eager_loaded_failed host (S (next w)) src sl w1)
      as (o & w2 & evs & Hrun2 & _ & _ & Hno & _).
    rewrite Hrun2. by destruct (Hno Hdecl) as [-> ->].
  - intros s Hcp Hs Hset.
    erewrite deliver_failed; [| exact Hn1s | exact Herr1].
    unfold dispatch, run_handler, cb, run_callback.
    destruct (eager_loaded_failed host (S (next w)) src sl w1)
      as (o & w2 & evs & Hrun2 & Htr2 & _ & _ & Hyes).
    rewrite Hrun2. destruct (Hyes s Hcp Hs Hset) as (-> & -> & Hst).
    by split.
Qed.

(** The theorem on a page with one card for [stream.m3u8]. *)
Lemma eager_stream_waits_for_decoder_witness :
  getAttribute
    (store (exec (initOne Samples.chrome 3 DEFAULTS)
              (Samples.page [("data-src", "stream.m3u8")] HlsUndefined)))
    8 "src"
  = Some (hlsCdn DEFAULTS)
  ∧ node_children
      (store (exec (initOne Samples.chrome 3 DEFAULTS)
                (Samples.page [("data-src", "stream.m3u8")] HlsUndefined)))
      5
    = [].
Proof.
  destruct (eager_stream_waits_for_decoder Samples.chrome 3 DEFAULTS
              (Samples.page [("data-src", "stream.m3u8")] HlsUndefined)
              "stream.m3u8")
    as (_ & Hs & _ & Hc & _);
    [by vm_compute | done | by vm_compute | by vm_compute | reflexivity
    | simpl; lia | simpl; lia |].
  split; [exact Hs | exact Hc].
Defined.

(** ** Fields of the nodes of the page that the script never writes *)

Section Preserved.
Context {X : Type} (π : Node → X) (n : nat) (p0 : nat → option X).
Hypothesis Hc : ∀ g nd, π (with_children g nd) = π nd.
Hypothesis Hi : ∀ s nd, π (with_innerHTML s nd) = π nd.

#[local] Abbreviation I := (preserved π n p0).
#[local] Abbreviation SI := (shows π n p0).
#[local] Abbreviation unseen := (Wording.unseen π n).

Lemma shows_insert (id : nat) (nd : Node) (d : Store) :
  n ≤ id → SI d → SI (<[id:=nd]> d).
Proof. intros Hid Hd k Hk. rewrite lookup_insert_ne by lia. by apply Hd. Qed.

Lemma shows_alter (f : Node → Node) (i : nat) (d : Store) :
  unseen i f → SI d → SI (alter f i d).
Proof.
  intros [Hi'|Hf] Hd k Hk.
  - rewrite lookup_alter_ne by lia. by apply Hd.
  - rewrite proj_alter by done. by apply Hd.
Qed.

Lemma shows_detach (c : nat) (d : Store) : SI d → SI (detach c d).
Proof. intros Hd k Hk. rewrite proj_detach by done. by apply Hd. Qed.

Lemma shows_appendChild (p c : nat) (d : Store) :
  SI d → SI (appendChild p c d).
Proof. intros Hd k Hk. rewrite proj_appendChild by done. by apply Hd. Qed.

Lemma shows_clear (p : nat) (d : Store) : SI d → SI (clear p d).
Proof. intros Hd k Hk. rewrite proj_clear by done. by apply Hd. Qed.

Lemma pres_ret {A} (a : A) (Q : A → Prop) : Q a → keeps I (mret a) Q.
Proof. by intros Ha w Hw. Qed.

Lemma pres_bind {A B} (m : M A) (k : A → M B) (Q : A → Prop)
    (R : B → Prop) :
  keeps I m Q → (∀ a, Q a → keeps I (k a) R) → keeps I (m ≫= k) R.
Proof.
  intros Hm Hk w Hw. destruct (Hm w Hw) as [H1 Ha].
  unfold mbind, M_bind. destruct (m w) as [[a|] w1]; simpl in *.
  - by apply Hk.
  - done.
Qed.

Lemma pres_try {A} (m h : M A) (Q : A → Prop) :
  keeps I m Q → keeps I h Q → keeps I (try_catch m h) Q.
Proof.
  intros Hm Hh w Hw. destruct (Hm w Hw) as [H1 Ha].
  unfold try_catch. destruct (m w) as [[a|] w1]; simpl in *; [done |].
  by apply Hh.
Qed.

Lemma pres_emit (ev : Event) : keeps I (emit ev) (λ _, True).
Proof. by intros w Hw. Qed.

Lemma pres_lift {A} (o : Outcome A) : keeps I (lift o) (λ _, True).
Proof. intros w Hw. split; [done | by destruct o]. Qed.

Lemma pres_gets {A} (f : World → A) : keeps I (gets f) (λ _, True).
Proof. by intros w Hw. Qed.

Lemma pres_alloc : keeps I alloc (λ id, n ≤ id).
Proof.
  intros w [Hn Hs]. unfold preserved, alloc. cbn.
  split; [split; [lia | done] | done].
Qed.

Lemma pres_modify (f : Store → Store) :
  (∀ d, SI d → SI (f d)) → keeps I (modify f) (λ _, True).
Proof.
  intros Hf w [Hn Hs]. unfold preserved, modify. cbn.
  split; [split; [done | by apply Hf] | done].
Qed.

Lemma pres_if {A} (b : bool) (m1 m2 : M A) (Q : A → Prop) :
  keeps I m1 Q → keeps I m2 Q → keeps I (if b then m1 else m2) Q.
Proof. by destruct b. Qed.

Lemma pres_weaken {A} (m : M A) (Q R : A → Prop) :
  (∀ a, Q a → R a) → keeps I m Q → keeps I m R.
Proof.
  intros HQR Hm w Hw. destruct (Hm w Hw) as [H1 Ha]. split; [done |].
  destruct (m w).1; [by apply HQR | done].
Qed.

Lemma pres_unit : keeps I (mret tt) (λ _, True).
Proof. by apply pres_ret. Qed.

(** One bind, one test or one store update at a time. *)
Ltac pres_step :=
  first
    [ simple apply (pres_ret _ (λ _, True)); exact Logic.I
    | simple apply pres_emit
    | simple apply pres_lift
    | simple apply pres_gets
    | eapply pres_bind; [| intros ? ?; cbv beta zeta in *]
    | apply pres_try
    | apply pres_if
    | apply pres_modify; intros ? ?
    | apply shows_appendChild
    | apply shows_detach
    | apply shows_clear
    | apply shows_insert; [lia |]
    | apply shows_alter; [first [left; lia | right; by intros []] |]
    | assumption
    | match goal with
      | |- keeps _ (match ?y with _ => _ end) _ => destruct y
      end ].

Ltac pres_auto := repeat pres_step.

Lemma pres_createElement (t : string) :
  keeps I (createElement t) (λ id, n ≤ id).
Proof.
  unfold createElement.
  eapply pres_bind; [apply pres_alloc |]. intros id Hid.
  eapply pres_bind; [| intros ? ?].
  { apply pres_modify. intros d. by apply shows_insert. }
  eapply pres_bind; [apply pres_emit | intros ? ?].
  by apply pres_ret.
Qed.

Lemma pres_append (p c : nat) : keeps I (append p c) (λ _, True).
Proof. unfold append. pres_auto. Qed.

Lemma pres_remove (c : nat) : keeps I (remove c) (λ _, True).
Proof. unfold remove. pres_auto. Qed.

Lemma pres_set_attr (i : nat) (k v : string) :
  unseen i (with_attrs (assoc_set k v)) →
  keeps I (set_attr i k v) (λ _, True).
Proof.
  intros Hu. unfold set_attr, setAttribute.
  apply pres_modify. intros d. by apply shows_alter.
Qed.

Lemma pres_set_src (host : Host) (v : nat) (url : string) :
  unseen v (with_attrs (assoc_set "src" url)) →
  keeps I (set_src host v url) (λ _, True).
Proof.
  intros Hv. unfold set_src.
  eapply pres_bind; [apply pres_emit | intros ? ?].
  eapply pres_bind; [apply pres_lift | intros ? ?].
  by apply pres_set_attr.
Qed.

Lemma pres_can_play_hls (host : Host) :
  keeps I (can_play_hls host) (λ _, True).
Proof. unfold can_play_hls. pres_auto. Qed.

Lemma pres_try_play (host : Host) (v : nat) :
  keeps I (try_play host v) (λ _, True).
Proof. unfold try_play. pres_auto. Qed.

Lemma pres_attachHls (host : Host) (v : nat) (src : string) (h : JsVal) :
  unseen v (with_attrs (assoc_set "src" src)) →
  keeps I (attachHls host v src h) (λ _, True).
Proof.
  intros Hv. unfold attachHls.
  eapply pres_bind; [apply pres_emit | intros ? ?].
  apply pres_try; [| apply pres_emit].
  eapply pres_bind; [apply pres_gets | intros g _].
  eapply pres_bind; [| intros sup _].
  { destruct g; pres_auto. }
  assert (keeps I
            (native ← can_play_hls host;
             if (native : bool) then set_src host v src
             else emit (EvWarn "No HLS support in this browser."))
            (λ _, True)) as Hnative.
  { eapply pres_bind; [apply pres_can_play_hls | intros native _].
    apply pres_if; [by apply pres_set_src | apply pres_emit]. }
  destruct g as [| |lib]; try exact Hnative.
  destruct sup; [| exact Hnative]. pres_auto.
Qed.

Lemma pres_remove_children (fuel v : nat) :
  keeps I (remove_children fuel v) (λ _, True).
Proof.
  induction fuel as [|fuel IH]; cbn [remove_children].
  { by apply pres_ret. }
  eapply pres_bind; [apply pres_gets | intros cs _].
  destruct cs as [|c cs]; [by apply pres_ret |].
  eapply pres_bind; [apply pres_remove | by intros ? ?].
Qed.

Lemma pres_attachDirectFile (host : Host) (v : nat) (src : string) :
  unseen v (with_attrs (assoc_set "src" src)) →
  keeps I (attachDirectFile host v src) (λ _, True).
Proof.
  intros Hv. unfold attachDirectFile.
  eapply pres_bind; [apply pres_emit | intros ? ?].
  eapply pres_bind; [apply pres_gets | intros ? ?].
  eapply pres_bind; [apply pres_remove_children | intros ? ?].
  eapply pres_bind; [apply pres_createElement | intros s Hs].
  eapply pres_bind; [apply pres_set_attr; by left | intros ? ?].
  eapply pres_bind; [| intros ? ?].
  { apply pres_if; [apply pres_set_attr; by left | apply pres_unit]. }
  eapply pres_bind; [apply pres_append | intros ? ?].
  apply pres_try; [by apply pres_set_src | apply pres_unit].
Qed.

Lemma pres_loadScript (src : string) (cb : option Callback) :
  keeps I (loadScript src cb) (λ _, True).
Proof.
  unfold loadScript.
  eapply pres_bind; [apply pres_createElement |]. intros s Hs.
  do 2 (eapply pres_bind; [apply pres_set_attr; by left | intros ? ?]).
  do 2 (eapply pres_bind;
          [apply pres_modify; intros ? ?; apply shows_alter; [by left | done]
          | intros ? ?]).
  eapply pres_bind; [apply pres_gets | intros h _]. apply pres_append.
Qed.

Lemma pres_createPosterOverlay (poster : string) (onClick : nat → Handler) :
  keeps I (createPosterOverlay poster onClick) (λ id, n ≤ id).
Proof.
  unfold createPosterOverlay.
  eapply pres_bind; [apply pres_createElement |]. intros o Ho.
  eapply pres_bind; [apply pres_set_attr; by left | intros ? ?].
  eapply pres_bind; [| intros ? ?].
  { apply pres_if; [| apply pres_unit].
    apply pres_modify. intros ? ?. apply shows_alter; [by left | done]. }
  eapply pres_bind; [apply pres_createElement |]. intros b Hb.
  eapply pres_bind; [apply pres_set_attr; by left | intros ? ?].
  eapply pres_bind; [apply pres_append | intros ? ?].
  eapply pres_bind; [| intros ? ?].
  { apply pres_modify. intros ? ?. apply shows_alter; [by left | done]. }
  by apply pres_ret.
Qed.

Lemma pres_buildPlayer (opts : Opts) (src poster : string) (lazy : bool)
    (sl : JsVal) :
  keeps I (buildPlayer opts src poster lazy sl)
    (λ p, n ≤ p.1.1 ∧ n ≤ p.1.2 ∧ n ≤ p.2).
Proof.
  unfold buildPlayer.
  eapply pres_bind; [apply pres_createElement |]. intros wr Hwr.
  eapply pres_bind; [apply pres_set_attr; by left | intros ? ?].
  eapply pres_bind; [apply pres_createElement |]. intros vi Hvi.
  do 3 (eapply pres_bind; [apply pres_set_attr; by left | intros ? ?]).
  eapply pres_bind; [apply pres_append | intros ? ?].
  eapply pres_bind; [apply pres_createPosterOverlay |]. intros ov Hov.
  eapply pres_bind; [apply pres_append | intros ? ?].
  by apply pres_ret.
Qed.

Lemma pres_attachEager (host : Host) (opts : Opts) (video overlay : nat)
    (src poster : string) (sl : JsVal) :
  unseen video (with_attrs (assoc_set "src" src)) →
  keeps I (attachEager host opts video overlay src poster sl) (λ _, True).
Proof.
  intros Hv. unfold attachEager, Hls_undefined.
  eapply pres_bind; [| intros ? ?].
  - apply pres_if; [| by apply pres_attachDirectFile].
    eapply pres_bind; [apply pres_gets | intros undef _].
    apply pres_if; [apply pres_loadScript | by apply pres_attachHls].
  - apply pres_if; [apply pres_remove | apply pres_unit].
Qed.

Lemma pres_injectCard (card wrapper : nat) (title desc : string) :
  keeps I (injectCard card wrapper title desc) (λ _, True).
Proof.
  unfold injectCard.
  eapply pres_bind; [apply pres_emit | intros ? ?].
  eapply pres_bind; [| intros ? ?].
  { apply pres_modify. intros ? ?. by apply shows_clear. }
  eapply pres_bind; [apply pres_createElement |]. intros h Hh.
  eapply pres_bind; [apply pres_set_attr; by left | intros ? ?].
  do 2 (eapply pres_bind;
          [apply pres_if; [| apply pres_unit];
           apply pres_modify; intros ? ?; apply shows_alter; [by left | done]
          | intros ? ?]).
  eapply pres_bind; [apply pres_append | intros ? ?]. apply pres_append.
Qed.

Lemma pres_initOne (host : Host) (card : nat) (opts : Opts) :
  keeps I (initOne host card opts) (λ _, True).
Proof.
  unfold initOne, get_attr.
  eapply pres_bind; [apply pres_gets | intros src0 _].
  apply pres_if; [by apply pres_ret |].
  do 5 (eapply pres_bind; [apply pres_gets | intros ? _]).
  eapply pres_bind; [apply pres_buildPlayer |].
  intros [[wr vi] ov] (Hwr & Hvi & Hov). simpl in Hwr, Hvi, Hov.
  eapply pres_bind; [| intros ? ?; by apply pres_injectCard].
  apply pres_if; [apply pres_attachEager; by left | apply pres_unit].
Qed.

Lemma pres_forEach (cards : list nat) (f : nat → M unit) :
  (∀ c, keeps I (f c) (λ _, True)) → keeps I (forEach cards f) (λ _, True).
Proof.
  intros Hf. induction cards as [|c cards IH]; cbn [forEach].
  - by apply pres_ret.
  - eapply pres_bind; [apply Hf | by intros ? ?].
Qed.

Lemma pres_initAll (host : Host) (options : option Options) :
  keeps I (initAll host options) (λ _, True).
Proof.
  unfold initAll.
  eapply pres_bind; [apply pres_gets | intros cards _].
  apply pres_if; [by apply pres_ret |].
  apply pres_forEach. intros c. apply pres_initOne.
Qed.

End Preserved.
Lemma getAttribute_proj (d d' : Store) (i i' : nat) (k : string) :
  (λ nd, assoc k (attrs nd)) <$> d !! i
  = (λ nd, assoc k (attrs nd)) <$> d' !! i' →
  getAttribute d i k = getAttribute d' i' k.
Proof.
  unfold getAttribute. destruct (d !! i), (d' !! i'); cbn; congruence.
Qed.

Lemma node_listeners_proj (d d' : Store) (i i' : nat) :
  listeners <$> d !! i = listeners <$> d' !! i' →
  node_listeners d i = node_listeners d' i'.
Proof.
  unfold node_listeners. destruct (d !! i), (d' !! i'); cbn; congruence.
Qed.

(** What [initAll] leaves of a field that updates of child lists and of
    [innerHTML] do not change. *)
Lemma initAll_shows {X} (π : Node → X) (host : Host)
    (options : option Options) (w : World) (k : nat) :
  (∀ g nd, π (with_children g nd) = π nd) →
  (∀ s nd, π (with_innerHTML s nd) = π nd) →
  k < next w →
  π <$> store (exec (initAll host options) w) !! k = π <$> store w !! k.
Proof.
  intros Hc Hi Hk.
  destruct (pres_initAll π (next w) (λ j, π <$> store w !! j) Hc Hi
              host options w) as [[_ Hs] _]; [by split |].
  by apply Hs.
Qed.

(** X9.  [initAll] writes no field of an element of the page but its
    child list and its [innerHTML]: the tag, the attributes, the click
    listeners, the text, the background image and the [onload] and
    [onerror] handlers of every node that was there are as they were.  In
    particular every [data-*] attribute survives, and so does the class
    [vd-card]. *)
Theorem initAll_frame (host : Host) (options : option Options) (w : World)
    (k : nat) :
  k < next w →
  let w' := exec (initAll host options) w in
  tag <$> store w' !! k = tag <$> store w !! k
  ∧ attrs <$> store w' !! k = attrs <$> store w !! k
  ∧ listeners <$> store w' !! k = listeners <$> store w !! k
  ∧ text <$> store w' !! k = text <$> store w !! k
  ∧ backgroundImage <$> store w' !! k = backgroundImage <$> store w !! k
  ∧ onload <$> store w' !! k = onload <$> store w !! k
  ∧ onerror <$> store w' !! k = onerror <$> store w !! k
  ∧ (∀ a, getAttribute (store w') k a = getAttribute (store w) k a)
  ∧ matches_card (store w') k = matches_card (store w) k.
Proof.
  intros Hk w'. subst w'.
  assert (attrs <$> store (exec (initAll host options) w) !! k
          = attrs <$> store w !! k) as Ha by (by apply initAll_shows).
  assert (∀ a, getAttribute (store (exec (initAll host options) w)) k a
               = getAttribute (store w) k a) as Hg.
  { intros a. apply getAttribute_proj.
    by apply (initAll_shows (λ nd, assoc a (attrs nd))). }
  repeat split; try (by apply initAll_shows); try done.
  unfold matches_card, has_class, class_list. by rewrite !Hg.
Qed.

(** The theorem at the card of the sample page. *)
Lemma initAll_frame_witness :
  getAttribute
    (store (exec (initAll Samples.chrome None)
              (Samples.page [("data-src", "movie.mp4")] HlsUndefined)))
    3 "data-src"
  = Some "movie.mp4".
Proof.
  destruct (initAll_frame Samples.chrome None
              (Samples.page [("data-src", "movie.mp4")] HlsUndefined) 3)
    as (_ & _ & _ & _ & _ & _ & _ & Hg & _); [simpl; lia |].
  exact (Hg "data-src").
Defined.

(** What the phases that follow [buildPlayer] leave of the player. *)
Lemma initOne_tail_shows {X} (π : Node → X) (host : Host) (card : nat)
    (opts : Opts) (w : World) (src : string) :
  (∀ g nd, π (with_children g nd) = π nd) →
  (∀ s nd, π (with_innerHTML s nd) = π nd) →
  (∀ u nd, π (with_attrs (assoc_set "src" u) nd) = π nd) →
  getAttribute (store w) card "data-src" = Some src →
  src ≠ "" →
  ∃ wb,
    buildPlayer opts src
      (or_empty (getAttribute (store w) card "data-poster"))
      (lazy_flag (getAttribute (store w) card "data-lazy") opts)
      (start_level (getAttribute (store w) card "data-startlevel")) w
    = (Returns (next w, S (next w), S (S (next w))), wb)
    ∧ ∀ k, k < S (S (S (S (next w)))) →
        π <$> store (exec (initOne host card opts) w) !! k
        = π <$> store wb !! k.
Proof.
  intros Hc Hi Hs Hsrc Hne%String.eqb_neq.
  unfold exec, initOne, get_attr.
  erewrite bind_run by (unfold gets; reflexivity). rewrite Hsrc.
  cbn [falsy_str or_empty]. rewrite Hne.
  repeat (erewrite bind_run by (unfold gets; reflexivity)).
  match goal with
  | |- context [buildPlayer ?o ?s ?p ?l ?h] =>
      destruct (buildPlayer_world o s p l h w) as (wb & Hrun & Hnb & _)
  end.
  exists wb. split; [exact Hrun |].
  rewrite (bind_run _ _ _ _ _ Hrun). cbv beta iota.
  intros k Hk.
  match goal with
  | |- context [(mbind ?kont ?m) wb] =>
      assert (keeps (preserved π (next wb) (λ j, π <$> store wb !! j))
                (mbind kont m) (λ _, True)) as Hkeep
  end.
  { eapply pres_bind; try done.
    - apply pres_if; [| by apply pres_unit].
      apply pres_attachEager; try done. by right.
    - intros ? ?. by apply pres_injectCard. }
  destruct (Hkeep wb) as [[_ Hshow] _]; [by split |].
  apply Hshow. lia.
Qed.

(** The player of a card after [initOne], as the model keeps it;
    [backgroundImage] holds the string assigned to
    [style.backgroundImage]. *)
Lemma player_after_initOne_nodes (host : Host) (card : nat) (opts : Opts)
    (w : World) (src : string) :
  getAttribute (store w) card "data-src" = Some src →
  src ≠ "" →
  let lazy := lazy_flag (getAttribute (store w) card "data-lazy") opts in
  let poster := or_empty (getAttribute (store w) card "data-poster") in
  let sl := start_level (getAttribute (store w) card "data-startlevel") in
  let w1 := exec (initOne host card opts) w in
  let wrapper := next w in
  let video := S wrapper in
  let overlay := S video in
  let btn := S overlay in
  getAttribute (store w1) wrapper "class" = Some "vd-wrapper"
  ∧ tag <$> store w1 !! video = Some "video"
  ∧ getAttribute (store w1) video "controls" = Some ""
  ∧ getAttribute (store w1) video "playsinline" = Some ""
  ∧ getAttribute (store w1) video "preload"
    = Some (if lazy then "none" else "metadata")
  ∧ getAttribute (store w1) overlay "class" = Some "vd-poster"
  ∧ backgroundImage <$> store w1 !! overlay
    = Some (if String.eqb poster "" then ""
            else "url(" +:+ dq +:+ poster +:+ dq +:+ ")")
  ∧ node_listeners (store w1) overlay
    = [OnPlayClick video overlay src sl (hlsCdn opts)]
  ∧ getAttribute (store w1) btn "class" = Some "vd-playbtn".
Proof.
  intros Hsrc Hne. cbv zeta.
  assert (∀ a u nd, a ≠ "src" →
            assoc a (attrs (with_attrs (assoc_set "src" u) nd))
            = assoc a (attrs nd)) as Hattr.
  { intros a u nd Ha. cbn. by apply assoc_set_ne. }
  destruct (buildPlayer_world opts src
              (or_empty (getAttribute (store w) card "data-poster"))
              (lazy_flag (getAttribute (store w) card "data-lazy") opts)
              (start_level (getAttribute (store w) card "data-startlevel")) w)
    as (wb & Hrun & _ & _ & _ & _ & Hw & Hv & Ho & Hb & _).
  assert (∀ X (π : Node → X),
            (∀ g nd, π (with_children g nd) = π nd) →
            (∀ s nd, π (with_innerHTML s nd) = π nd) →
            (∀ u nd, π (with_attrs (assoc_set "src" u) nd) = π nd) →
            ∀ k, k < S (S (S (S (next w)))) →
              π <$> store (exec (initOne host card opts) w) !! k
              = π <$> store wb !! k) as Hshow.
  { intros X π Hc Hi Hs k Hk.
    destruct (initOne_tail_shows π host card opts w src Hc Hi Hs Hsrc Hne)
      as (wb' & Hrun' & H).
    rewrite Hrun in Hrun'. injection Hrun' as <-. by apply H. }
  assert (∀ a k, a ≠ "src" → k < S (S (S (S (next w)))) →
            getAttribute (store (exec (initOne host card opts) w)) k a
            = getAttribute (store wb) k a) as Hget.
  { intros a k Ha Hk. apply getAttribute_proj.
    apply (Hshow _ (λ nd, assoc a (attrs nd))); try done.
    intros u nd. by apply Hattr. }
  rewrite !Hget by (done || lia).
  rewrite (node_listeners_proj _ (store wb) _ (S (S (next w))))
    by (apply Hshow; (done || lia)).
  rewrite !Hshow by (done || lia).
  unfold getAttribute, node_listeners. rewrite Hw, Hv, Ho, Hb. cbn.
  repeat split; by destruct (lazy_flag _ _).
Qed.

(** X10.  The player of a card, in every mode.  After [initOne] the
    wrapper has class [vd-wrapper]; the video element has [controls],
    [playsinline] and [preload], which is [none] in lazy mode and
    [metadata] otherwise; the overlay has class [vd-poster] and the click
    listener [onPlayClick] with the source and the level of the card; its
    button has class [vd-playbtn].  The background image of the overlay is
    left unset without a poster, and is [url("poster")] for a poster URL of
    printable ASCII characters without quotes, parentheses and
    backslash. *)
Theorem player_after_initOne (host : Host) (card : nat) (opts : Opts)
    (w : World) (src : string) :
  getAttribute (store w) card "data-src" = Some src →
  src ≠ "" →
  let lazy := lazy_flag (getAttribute (store w) card "data-lazy") opts in
  let poster := or_empty (getAttribute (store w) card "data-poster") in
  let sl := start_level (getAttribute (store w) card "data-startlevel") in
  let w1 := exec (initOne host card opts) w in
  let wrapper := next w in
  let video := S wrapper in
  let overlay := S video in
  let btn := S overlay in
  getAttribute (store w1) wrapper "class" = Some "vd-wrapper"
  ∧ tag <$> store w1 !! video = Some "video"
  ∧ getAttribute (store w1) video "controls" = Some ""
  ∧ getAttribute (store w1) video "playsinline" = Some ""
  ∧ getAttribute (store w1) video "preload"
    = Some (if lazy then "none" else "metadata")
  ∧ getAttribute (store w1) overlay "class" = Some "vd-poster"
  ∧ (poster = "" → backgroundImage <$> store w1 !! overlay = Some "")
  ∧ (poster ≠ "" → css_plain poster = true →
     backgroundImage <$> store w1 !! overlay
     = Some ("url(" +:+ dq +:+ poster +:+ dq +:+ ")"))
  ∧ node_listeners (store w1) overlay
    = [OnPlayClick video overlay src sl (hlsCdn opts)]
  ∧ getAttribute (store w1) btn "class" = Some "vd-playbtn".
Proof.
  intros Hsrc Hne.
  destruct (player_after_initOne_nodes host card opts w src Hsrc Hne)
    as (H1 & H2 & H3 & H4 & H5 & H6 & H7 & H8 & H9).
  cbv zeta in *.
  do 6 (split; [assumption |]).
  split; [intros Hp; by rewrite H7, Hp |].
  split; [| by split].
  intros Hp%String.eqb_neq _. by rewrite H7, Hp.
Qed.

(** The theorem on a lazy card of the sample page. *)
Lemma player_after_initOne_witness :
  getAttribute
    (store (exec (initOne Samples.chrome 3 DEFAULTS)
              (Samples.page [("data-src", "movie.mp4"); ("data-lazy", "1")]
                 HlsUndefined)))
    5 "preload"
  = Some "none".
Proof.
  destruct (player_after_initOne Samples.chrome 3 DEFAULTS
              (Samples.page [("data-src", "movie.mp4"); ("data-lazy", "1")]
                 HlsUndefined) "movie.mp4")
    as (_ & _ & _ & _ & Hp & _); [by vm_compute | done |].
  exact Hp.
Defined.

(** ** Version 1.0.0 *)

(** X11.  [attachHls] of version 1.0.0 is [attachHls] of version 1.1.0
    called without a hint: both return normally, leave the same DOM and
    perform the same actions in the same order; only the text logged with
    a caught exception differs. *)
Theorem attachHls_versions (host : Host) (v : nat) (src : string)
    (w : World) :
  let r0 := attachHlsV0 host v src w in
  let r1 := attachHls host v src VUndefined w in
  r0.1 = Returns tt ∧ r1.1 = Returns tt
  ∧ store r0.2 = store r1.2
  ∧ ∃ evs, emitted w r1.2 evs ∧ emitted w r0.2 (relabel <$> evs).
Proof.
  cbv zeta. rewrite AttachFacts.attachHls_cases. cbn [fst snd]. cbv zeta.
  unfold attachHlsV0, emitted.
  unfold try_catch, set_src, can_play_hls, set_attr, emit, gets, lift,
    modify, mbind, mret, M_bind, M_ret.
  cbn [hint_supplied].
  destruct w as [d n doc hd g t]. cbn [Hls with_trace].
  destruct g as [| |lib]; [| |destruct (isSupported lib) as [[|]|]].
  3: destruct (construct lib) as [[]|];
       [destruct (loadSource lib src) as [[]|];
          [destruct (attachMedia lib v) as [[]|] |] |].
  1,2,7: destruct (canPlayType host) as [|s|];
       [| destruct (String.eqb s "");
          [| destruct (src_setter host) as [[]|]] |].
  all: cbn; rewrite <- ?app_assoc; cbn;
    (split; [reflexivity |]); (split; [reflexivity |]);
    (split; [reflexivity |]); eexists; (split; [reflexivity |]);
    reflexivity.
Qed.



Lemma returns_unfold {A} (m : M A) :
  (∀ w, ∃ a w', m w = (Returns a, w')) → returns m.
Proof. apply returns_run. Qed.












(** ** The content of the card *)






(** ** The options that matter *)

(** [initOne] reads [opts.hlsCdn] and the truth value of [opts.lazyLoad],
    and nothing else of [opts]. *)
Lemma initOne_opts (host : Host) (card : nat) (o1 o2 : Opts) :
  hlsCdn o1 = hlsCdn o2 →
  truthy (lazyLoad o1) = truthy (lazyLoad o2) →
  initOne host card o1 = initOne host card o2.
Proof.
  intros Hc Hl.
  unfold initOne, buildPlayer, attachEager, lazy_flag.
  rewrite Hc, Hl. reflexivity.
Qed.

Lemma initAll_opts (host : Host) (o1 o2 : option Options) :
  hlsCdn (assign o1) = hlsCdn (assign o2) →
  truthy (lazyLoad (assign o1)) = truthy (lazyLoad (assign o2)) →
  initAll host o1 = initAll host o2.
Proof.
  intros Hc Hl.
  unfold initAll, initOne, buildPlayer, attachEager, lazy_flag.
  rewrite Hc, Hl. reflexivity.
Qed.

(** X15.  Two option objects make [initAll] behave alike on every page
    exactly when, merged over [DEFAULTS], they agree on [hlsCdn] and on the
    truth value of [lazyLoad]: [autoInit] is never read by [initAll], and
    of [lazyLoad] only the truth value counts. *)
Theorem initAll_options (host : Host) (o1 o2 : option Options) :
  (∀ w, initAll host o1 w = initAll host o2 w)
  ↔ hlsCdn (assign o1) = hlsCdn (assign o2)
    ∧ truthy (lazyLoad (assign o1)) = truthy (lazyLoad (assign o2)).
Proof.
  split.
  - intros H.
    pose proof (H (Samples.page [("data-src", "a.m3u8")] HlsUndefined)) as E.
    assert (N : ∀ o, initAll host o
      = initAll host (Some {| o_hlsCdn := Some (hlsCdn (assign o));
                              o_autoInit := None;
                              o_lazyLoad :=
                                Some (VBool (truthy (lazyLoad (assign o)))) |})).
    { intros o. by apply initAll_opts. }
    rewrite (N o1), (N o2) in E. clear N H.
    revert E.
    generalize (hlsCdn (assign o1)), (hlsCdn (assign o2)).
    generalize (truthy (lazyLoad (assign o1))),
               (truthy (lazyLoad (assign o2))).
    intros b1 b2 c1 c2 E.
    pose proof (f_equal (λ r, node_listeners (store r.2) 6) E) as El.
    pose proof (f_equal (λ r, getAttribute (store r.2) 5 "preload") E) as Ep.
    clear E.
    destruct b1, b2; vm_compute in El, Ep; try discriminate Ep.
    all: split; [congruence | reflexivity].
  - intros [Hc Hl] w. by rewrite (initAll_opts host o1 o2).
Qed.

(** X16.  In version 1.0.0 the only option that [initAll] reads is
    [hlsCdn]: [lazyLoad], though listed among the defaults, has no
    effect. *)
Theorem initAllV0_options (o1 o2 : option Options) :
  (∀ w, initAllV0 o1 w = initAllV0 o2 w)
  ↔ hlsCdn (assign o1) = hlsCdn (assign o2).
Proof.
  split.
  - intros H.
    pose proof (H (Samples.page [("data-src", "a.m3u8")] HlsUndefined)) as E.
    unfold initAllV0 in E. revert E.
    generalize (hlsCdn (assign o1)), (hlsCdn (assign o2)).
    intros c1 c2 E.
    apply (f_equal (λ r, getAttribute (store r.2) 4 "src")) in E.
    vm_compute in E. congruence.
  - intros Hc w. unfold initAllV0. by rewrite Hc.
Qed.

End ScriptFacts.
